(** * guint: fixed-width unsigned multi-word integers (uint512, uint1024)

    A shallow embedding of the Go packages [uint512] and [uint1024] and the
    properties of their arithmetic, bit and conversion engines.

    A value is the array [words] of the Go struct, least significant word
    first; a word is an integer in [0, 2^64).  The two packages are the same
    code at two array lengths, so every operation takes the number of words
    [N] (8 for uint512, 16 for uint1024) as its first argument.

    An index expression [words[i]] is the total lookup [words !!! i]: Go
    panics out of range, and on arrays of the declared length no loop of
    the packages reads or writes out of range. *)

From Stdlib Require Import ZArith Lia List String Ascii.
From stdpp Require Import base numbers list.

Local Open Scope Z_scope.

(** ** Machine words and the primitives of Go's math/bits *)

Definition wrap64 (x : Z) : Z := x mod 2 ^ 64.

Definition is_word (w : Z) : Prop := 0 <= w < 2 ^ 64.

(** [bits.Add64(x, y, carry)]: sum and carry out of x + y + carry. *)
Definition Add64 (x y carry : Z) : Z * Z :=
  ((x + y + carry) mod 2 ^ 64, (x + y + carry) / 2 ^ 64).

(** [bits.Sub64(x, y, borrow)]: difference and borrow out of x - y - borrow. *)
Definition Sub64 (x y borrow : Z) : Z * Z :=
  ((x - y - borrow) mod 2 ^ 64, if x - y - borrow <? 0 then 1 else 0).

(** [bits.Mul64(x, y)]: the 128-bit product as (hi, lo). *)
Definition Mul64 (x y : Z) : Z * Z :=
  ((x * y) / 2 ^ 64, (x * y) mod 2 ^ 64).

(** The uint64 operators [<<], [>>], [&], [|], [^], [&^] and unary [^]. *)
Definition shl64 (x : Z) (s : Z) : Z := wrap64 (Z.shiftl x s).
Definition shr64 (x : Z) (s : Z) : Z := Z.shiftr x s.
Definition not64 (x : Z) : Z := 2 ^ 64 - 1 - x.
Definition andnot64 (x y : Z) : Z := Z.land x (not64 y).

(** [bits.Len64(x)], the number of bits needed to write x (0 for 0), and
    [bits.LeadingZeros64(x)]. *)
Definition Len64 (x : Z) : Z := if x =? 0 then 0 else Z.log2 x + 1.

Definition LeadingZeros64 (x : Z) : Z := 64 - Len64 x.

(** [bits.TrailingZeros64(x)]: the number of zero bits below the lowest one
    bit, 64 for 0. *)
Fixpoint trailing_zeros (width : nat) (x : Z) : Z :=
  match width with
  | O => 0
  | S width' => if Z.odd x then 0 else 1 + trailing_zeros width' (Z.div2 x)
  end.

Definition TrailingZeros64 (x : Z) : Z := if x =? 0 then 64 else trailing_zeros 64 x.

(** [bits.OnesCount64(x)]: the number of one bits. *)
Fixpoint ones_count (width : nat) (x : Z) : Z :=
  match width with
  | O => 0
  | S width' => Z.b2z (Z.odd x) + ones_count width' (Z.div2 x)
  end.

Definition OnesCount64 (x : Z) : Z := ones_count 64 x.

(** ** Values *)

(** The number a word array stands for. *)
Fixpoint value (ws : list Z) : Z :=
  match ws with
  | [] => 0
  | w :: rest => w + 2 ^ 64 * value rest
  end.

(** The number a byte string stands for when read big-endian, first byte
    most significant. *)
Definition be_value (bs : list Z) : Z :=
  foldl (fun acc b => 256 * acc + b) 0 bs.

(** The number a string of decimal digits spells, and what a decimal digit
    is. *)
Definition digit_value (c : ascii) : Z := Z.of_N (N_of_ascii c) - 48.

Definition is_digit (c : ascii) : Prop := 0 <= digit_value c <= 9.

Definition decimal_value (s : string) : Z :=
  foldl (fun acc c => 10 * acc + digit_value c) 0 (list_ascii_of_string s).

(** The number a byte string stands for when read little-endian. *)
Fixpoint le_value (bs : list Z) : Z :=
  match bs with
  | [] => 0
  | b :: rest => b + 256 * le_value rest
  end.

(** The number a string of lower-case hexadecimal digits spells. *)
Definition hex_digit_value (c : ascii) : Z :=
  let n := Z.of_N (N_of_ascii c) in if n <? 58 then n - 48 else n - 87.

Definition is_hex_digit (c : ascii) : Prop :=
  let n := Z.of_N (N_of_ascii c) in 48 <= n <= 57 \/ 97 <= n <= 102.

Definition hex_value (s : string) : Z :=
  foldl (fun acc c => 16 * acc + hex_digit_value c) 0 (list_ascii_of_string s).

(** What the Go type guarantees of [words [N]uint64]. *)
Definition wf (N : nat) (ws : list Z) : Prop :=
  length ws = N /\ Forall is_word ws.

(** An operand passed by pointer to an in-place method: the receiver itself
    (as in [a.AddInPlace(a)]) or another object. *)
Inductive operand : Type :=
  | Aliased
  | Distinct (ws : list Z).

Definition operand_words (u : list Z) (o : operand) : list Z :=
  match o with
  | Aliased => u
  | Distinct ws => ws
  end.

(** Go's builtin [copy(dst, src)] on slices. *)
Definition copy {A} (dst src : list A) : list A :=
  take (length dst) src ++ drop (length src) dst.

(** The slice expression [s[lo:hi]] and the assignment of [src] over the
    elements of [dst] from index [lo] on. *)
Definition slice {A} (s : list A) (lo hi : nat) : list A :=
  take (hi - lo) (drop lo s).

Definition put_slice {A} (dst : list A) (lo : nat) (src : list A) : list A :=
  take lo dst ++ src ++ drop (lo + length src) dst.

(** ** Bytes and encoding/binary *)

Definition is_byte (b : Z) : Prop := 0 <= b < 256.

Definition wrap8 (x : Z) : Z := x mod 256.

(** [binary.LittleEndian.Uint64(b)]. *)
Definition LittleEndian_Uint64 (b : list Z) : Z :=
  Z.lor (b !!! 0%nat)
 (Z.lor (Z.shiftl (b !!! 1%nat) 8)
 (Z.lor (Z.shiftl (b !!! 2%nat) 16)
 (Z.lor (Z.shiftl (b !!! 3%nat) 24)
 (Z.lor (Z.shiftl (b !!! 4%nat) 32)
 (Z.lor (Z.shiftl (b !!! 5%nat) 40)
 (Z.lor (Z.shiftl (b !!! 6%nat) 48)
        (Z.shiftl (b !!! 7%nat) 56))))))).

(** [binary.BigEndian.Uint64(b)]. *)
Definition BigEndian_Uint64 (b : list Z) : Z :=
  Z.lor (b !!! 7%nat)
 (Z.lor (Z.shiftl (b !!! 6%nat) 8)
 (Z.lor (Z.shiftl (b !!! 5%nat) 16)
 (Z.lor (Z.shiftl (b !!! 4%nat) 24)
 (Z.lor (Z.shiftl (b !!! 3%nat) 32)
 (Z.lor (Z.shiftl (b !!! 2%nat) 40)
 (Z.lor (Z.shiftl (b !!! 1%nat) 48)
        (Z.shiftl (b !!! 0%nat) 56))))))).

(** The eight bytes [binary.LittleEndian.PutUint64] stores. *)
Definition LittleEndian_PutUint64 (v : Z) : list Z :=
  [wrap8 v; wrap8 (Z.shiftr v 8); wrap8 (Z.shiftr v 16); wrap8 (Z.shiftr v 24);
   wrap8 (Z.shiftr v 32); wrap8 (Z.shiftr v 40); wrap8 (Z.shiftr v 48);
   wrap8 (Z.shiftr v 56)].

(** The eight bytes [binary.BigEndian.PutUint64] stores. *)
Definition BigEndian_PutUint64 (v : Z) : list Z :=
  [wrap8 (Z.shiftr v 56); wrap8 (Z.shiftr v 48); wrap8 (Z.shiftr v 40);
   wrap8 (Z.shiftr v 32); wrap8 (Z.shiftr v 24); wrap8 (Z.shiftr v 16);
   wrap8 (Z.shiftr v 8); wrap8 v].

(** The conversion [string(digits)] of a byte slice. *)
Definition string_of_bytes (bs : list Z) : string :=
  string_of_list_ascii (map (fun b => ascii_of_N (Z.to_N b)) bs).

(** [fmt.Sprintf("%016x", x)] and [fmt.Sprintf("%x", x)] of a uint64:
    sixteen lower-case hexadecimal digits, and the same without the leading
    zeros (a single "0" for zero). *)
Definition hex_digit (d : Z) : ascii :=
  if d <? 10 then ascii_of_N (Z.to_N (48 + d)) else ascii_of_N (Z.to_N (87 + d)).

Definition hex16 (x : Z) : list ascii :=
  map (fun k => hex_digit (Z.land (Z.shiftr x (4 * Z.of_nat k)) 15)) (rev (seq 0 16)).

Fixpoint strip_leading_zeros (l : list ascii) : list ascii :=
  match l with
  | [] => []
  | c :: rest =>
      match rest with
      | [] => l
      | _ :: _ => if Ascii.eqb c "0" then strip_leading_zeros rest else l
      end
  end.

Definition Sprintf_016x (x : Z) : string := string_of_list_ascii (hex16 x).

Definition Sprintf_x (x : Z) : string :=
  string_of_list_ascii (strip_leading_zeros (hex16 x)).

(** The swap loop [for i, j := 0, len(digits)-1; i < j; i, j = i+1, j-1]. *)
Definition reverse_in_place (digits : list Z) : list Z :=
  foldl (fun d i =>
           let j := (length d - 1 - i)%nat in
           <[j := d !!! i]> (<[i := d !!! j]> d))
        digits (seq 0 (length digits / 2)).

(** ** Results of the fallible operations *)

Inductive error : Type := DivisionByZero.

Inductive result (A : Type) : Type :=
  | Ok (v : A)
  | Err (e : error).
Arguments Ok {A} v.
Arguments Err {A} e.

Module Engine.
Section WithWidth.

Variable N : nat.

(** The zero value of the struct, [&Uint512{}]. *)
Definition zeroed : list Z := replicate N 0.

Definition ZERO : list Z := zeroed.
Definition ONE : list Z := <[0%nat := 1]> zeroed.
Definition MAX : list Z := replicate N (2 ^ 64 - 1).

Definition New (val : Z) : list Z := <[0%nat := val]> zeroed.

Definition Clone (u : list Z) : list Z := copy zeroed u.

(** *** comparison.go *)

Fixpoint Equal_loop (idx : list nat) (u other : list Z) : bool :=
  match idx with
  | [] => true
  | i :: rest =>
      if negb (u !!! i =? other !!! i) then false
      else Equal_loop rest u other
  end.

Definition Equal (u other : list Z) : bool := Equal_loop (seq 0 N) u other.

Fixpoint Less_loop (idx : list nat) (u other : list Z) : bool :=
  match idx with
  | [] => false
  | i :: rest =>
      if u !!! i <? other !!! i then true
      else if u !!! i >? other !!! i then false
      else Less_loop rest u other
  end.

Definition Less (u other : list Z) : bool :=
  Less_loop (rev (seq 0 N)) u other.

Definition IsZero (u : list Z) : bool := Equal u ZERO.

(** *** arithmetic.go: addition and subtraction *)

Definition Add_step (u other : list Z) (st : list Z * Z) (i : nat) : list Z * Z :=
  let '(result, carry) := st in
  let '(sum, c1) := Add64 (u !!! i) (other !!! i) carry in
  (<[i := sum]> result, c1).

Definition Add (u other : list Z) : list Z :=
  fst (foldl (Add_step u other) (zeroed, 0) (seq 0 N)).

Definition AddInPlace_step (other : operand) (st : list Z * Z) (i : nat) : list Z * Z :=
  let '(u, carry) := st in
  let '(sum, c1) := Add64 (u !!! i) (operand_words u other !!! i) carry in
  (<[i := sum]> u, c1).

Definition AddInPlace (u : list Z) (other : operand) : list Z :=
  fst (foldl (AddInPlace_step other) (u, 0) (seq 0 N)).

Definition Sub_step (u other : list Z) (st : list Z * Z) (i : nat) : list Z * Z :=
  let '(result, borrow) := st in
  let '(diff, b1) := Sub64 (u !!! i) (other !!! i) borrow in
  (<[i := diff]> result, b1).

Definition Sub (u other : list Z) : list Z :=
  fst (foldl (Sub_step u other) (zeroed, 0) (seq 0 N)).

Definition SubInPlace_step (other : operand) (st : list Z * Z) (i : nat) : list Z * Z :=
  let '(u, borrow) := st in
  let '(diff, b1) := Sub64 (u !!! i) (operand_words u other !!! i) borrow in
  (<[i := diff]> u, b1).

Definition SubInPlace (u : list Z) (other : operand) : list Z :=
  fst (foldl (SubInPlace_step other) (u, 0) (seq 0 N)).

(** *** arithmetic.go: multiplication

    [R] is the length of the result array: the [Uint1024] result type of
    the uint512 package has 16 words, and so has the result of the uint1024
    package, whose [Mul] returns its own operand type. *)

Fixpoint Mul_inner (R : nat) (u other : list Z) (i : nat) (js : list nat)
    (st : list Z * Z) : list Z * Z :=
  match js with
  | [] => st
  | j :: rest =>
      if negb (i + j <? R)%nat then st
      else if other !!! j =? 0 then Mul_inner R u other i rest st
      else
        let '(result, carry) := st in
        let '(hi, lo) := Mul64 (u !!! i) (other !!! j) in
        let '(sum, c1) := Add64 (result !!! (i + j)%nat) lo carry in
        let result := <[(i + j)%nat := sum]> result in
        let carry := c1 in
        let '(result, carry) :=
          if (i + j + 1 <? R)%nat then
            let '(sum, c2) := Add64 (result !!! (i + j + 1)%nat) hi carry in
            (<[(i + j + 1)%nat := sum]> result, c2)
          else (result, carry) in
        Mul_inner R u other i rest (result, carry)
  end.

Fixpoint Mul_carry (ks : list nat) (st : list Z * Z) : list Z * Z :=
  match ks with
  | [] => st
  | k :: rest =>
      let '(result, carry) := st in
      if carry =? 0 then st
      else
        let '(sum, c) := Add64 (result !!! k) carry 0 in
        Mul_carry rest (<[k := sum]> result, c)
  end.

Definition Mul_row (R : nat) (u other : list Z) (result : list Z) (i : nat) : list Z :=
  if u !!! i =? 0 then result
  else
    let '(result, carry) := Mul_inner R u other i (seq 0 N) (result, 0) in
    fst (Mul_carry (seq (i + N) (R - (i + N))) (result, carry)).

Definition Mul (R : nat) (u other : list Z) : list Z :=
  foldl (Mul_row R u other) (replicate R 0) (seq 0 N).

(** *** bitwise.go *)

Definition And (u other : list Z) : list Z :=
  foldl (fun result i => <[i := Z.land (u !!! i) (other !!! i)]> result)
        zeroed (seq 0 N).

Definition Or (u other : list Z) : list Z :=
  foldl (fun result i => <[i := Z.lor (u !!! i) (other !!! i)]> result)
        zeroed (seq 0 N).

Definition Xor (u other : list Z) : list Z :=
  foldl (fun result i => <[i := Z.lxor (u !!! i) (other !!! i)]> result)
        zeroed (seq 0 N).

Definition Not (u : list Z) : list Z :=
  foldl (fun result i => <[i := not64 (u !!! i)]> result) zeroed (seq 0 N).

Definition clear_all (u : list Z) : list Z :=
  foldl (fun u i => <[i := 0]> u) u (seq 0 N).

(** One round of the loop that shifts bits within words, upward (the carry
    comes from the word below) and downward (from the word above). *)
Definition Shl_bits_step (bitShift : Z) (st : list Z * Z) (i : nat) : list Z * Z :=
  let '(u, carry) := st in
  let newCarry := shr64 (u !!! i) (64 - bitShift) in
  (<[i := Z.lor (shl64 (u !!! i) bitShift) carry]> u, newCarry).

Definition Shr_bits_step (bitShift : Z) (st : list Z * Z) (i : nat) : list Z * Z :=
  let '(u, carry) := st in
  let newCarry := shl64 (u !!! i) (64 - bitShift) in
  (<[i := Z.lor (shr64 (u !!! i) bitShift) carry]> u, newCarry).

(** The shift count is a Go [uint]. *)
Definition ShlInPlace (u : list Z) (n : Z) : list Z :=
  if n =? 0 then u
  else if n >=? 64 * Z.of_nat N then clear_all u
  else
    let wordShift := Z.to_nat (n / 64) in
    let bitShift := n mod 64 in
    let u :=
      if (0 <? wordShift)%nat then
        let u := foldl (fun u i => <[i := u !!! (i - wordShift)%nat]> u) u
                       (rev (seq wordShift (N - wordShift))) in
        foldl (fun u i => <[i := 0]> u) u (seq 0 wordShift)
      else u in
    if bitShift >? 0 then
      fst (foldl (Shl_bits_step bitShift) (u, 0) (seq wordShift (N - wordShift)))
    else u.

Definition Shl (u : list Z) (n : Z) : list Z := ShlInPlace (Clone u) n.

Definition ShrInPlace (u : list Z) (n : Z) : list Z :=
  if n =? 0 then u
  else if n >=? 64 * Z.of_nat N then clear_all u
  else
    let wordShift := Z.to_nat (n / 64) in
    let bitShift := n mod 64 in
    let u :=
      if (0 <? wordShift)%nat then
        let u := foldl (fun u i => <[i := u !!! (i + wordShift)%nat]> u) u
                       (seq 0 (N - wordShift)) in
        foldl (fun u i => <[i := 0]> u) u (seq (N - wordShift) wordShift)
      else u in
    if bitShift >? 0 then
      fst (foldl (Shr_bits_step bitShift) (u, 0) (rev (seq 0 (N - wordShift))))
    else u.

Definition Shr (u : list Z) (n : Z) : list Z := ShrInPlace (Clone u) n.

(** The bit index is a Go [int]; [/] and [%] truncate toward zero. *)
Definition out_of_range (i : Z) : bool := (i <? 0) || (i >=? 64 * Z.of_nat N).

Definition Bit (u : list Z) (i : Z) : bool :=
  if out_of_range i then false
  else
    let wordIndex := Z.to_nat (Z.quot i 64) in
    let bitIndex := Z.rem i 64 in
    negb (Z.land (u !!! wordIndex) (shl64 1 bitIndex) =? 0).

Definition SetBit (u : list Z) (i : Z) : list Z :=
  if out_of_range i then u
  else
    let wordIndex := Z.to_nat (Z.quot i 64) in
    let bitIndex := Z.rem i 64 in
    <[wordIndex := Z.lor (u !!! wordIndex) (shl64 1 bitIndex)]> u.

Definition ClearBit (u : list Z) (i : Z) : list Z :=
  if out_of_range i then u
  else
    let wordIndex := Z.to_nat (Z.quot i 64) in
    let bitIndex := Z.rem i 64 in
    <[wordIndex := andnot64 (u !!! wordIndex) (shl64 1 bitIndex)]> u.

Definition FlipBit (u : list Z) (i : Z) : list Z :=
  if out_of_range i then u
  else
    let wordIndex := Z.to_nat (Z.quot i 64) in
    let bitIndex := Z.rem i 64 in
    <[wordIndex := Z.lxor (u !!! wordIndex) (shl64 1 bitIndex)]> u.

(** *** arithmetic.go: division and modulo *)

Definition Div_step (u other : list Z) (st : list Z * list Z) (i : nat)
    : list Z * list Z :=
  let '(quotient, remainder) := st in
  let remainder := ShlInPlace remainder 1 in
  let remainder :=
    if Bit u (Z.of_nat i) then <[0%nat := Z.lor (remainder !!! 0%nat) 1]> remainder
    else remainder in
  if negb (Less remainder other) then
    (SetBit quotient (Z.of_nat i), SubInPlace remainder (Distinct other))
  else (quotient, remainder).

Definition Div (u other : list Z) : result (list Z) :=
  if IsZero other then Err DivisionByZero
  else if Less u other then Ok (Clone ZERO)
  else if Equal u other then Ok (Clone ONE)
  else
    Ok (fst (foldl (Div_step u other) (Clone ZERO, Clone ZERO)
                   (rev (seq 0 (64 * N))))).

Definition Mod_step (u other : list Z) (remainder : list Z) (i : nat) : list Z :=
  let remainder := ShlInPlace remainder 1 in
  let remainder :=
    if Bit u (Z.of_nat i) then <[0%nat := Z.lor (remainder !!! 0%nat) 1]> remainder
    else remainder in
  if negb (Less remainder other) then SubInPlace remainder (Distinct other)
  else remainder.

Definition Mod (u other : list Z) : result (list Z) :=
  if IsZero other then Err DivisionByZero
  else if Less u other then Ok (Clone u)
  else if Equal u other then Ok (Clone ZERO)
  else Ok (foldl (Mod_step u other) (Clone ZERO) (rev (seq 0 (64 * N)))).

(** *** The constructors and exporters *)

Definition FromLimbs (limbs : list Z) : list Z :=
  let n := length limbs in
  let n := if (N <? n)%nat then N else n in
  copy (take n zeroed) (take n limbs) ++ drop n zeroed.

Definition ToLimbs (u : list Z) : list Z := copy (replicate N 0) u.

Definition FromLeBytes (data : list Z) : list Z :=
  let dataLen := length data in
  let dataLen := if (8 * N <? dataLen)%nat then (8 * N)%nat else dataLen in
  foldl (fun u i =>
           let start := (i * 8)%nat in
           let end_ := (start + 8)%nat in
           if (start <? dataLen)%nat then
             let bytesToRead := if (dataLen <? end_)%nat then (dataLen - start)%nat else 8%nat in
             let wordBytes := copy (replicate 8 0) (slice data start (start + bytesToRead)) in
             <[i := LittleEndian_Uint64 wordBytes]> u
           else u)
        zeroed (seq 0 N).

Definition FromBeBytes (data : list Z) : list Z :=
  let dataLen := length data in
  let dataLen := if (8 * N <? dataLen)%nat then (8 * N)%nat else dataLen in
  if (dataLen =? 0)%nat then zeroed
  else
    let padded := replicate (8 * N) 0 in
    let padded := put_slice padded (8 * N - dataLen)
                    (copy (drop (8 * N - dataLen) padded) (take dataLen data)) in
    foldl (fun u i =>
             let start := (i * 8)%nat in
             <[(N - 1 - i)%nat := BigEndian_Uint64 (slice padded start (start + 8))]> u)
          zeroed (seq 0 N).

Definition ToLeBytes (u : list Z) : list Z :=
  foldl (fun bytes i =>
           let start := (i * 8)%nat in
           put_slice bytes start (LittleEndian_PutUint64 (u !!! i)))
        (replicate (8 * N) 0) (seq 0 N).

Definition ToBeBytes (u : list Z) : list Z :=
  foldl (fun bytes i =>
           let wordIndex := (N - 1 - i)%nat in
           let start := (i * 8)%nat in
           put_slice bytes start (BigEndian_PutUint64 (u !!! wordIndex)))
        (replicate (8 * N) 0) (seq 0 N).

(** *** Decimal rendering *)

Definition divBySmall_step (divisor : Z) (st : list Z * Z) (i : nat) : list Z * Z :=
  let '(u, remainder) := st in
  let dividend := Z.lor (shl64 remainder 32) (shr64 (u !!! i) 32) in
  let u := <[i := Z.lor (Z.land (u !!! i) 0xFFFFFFFF) (shl64 (dividend / divisor) 32)]> u in
  let remainder := dividend mod divisor in
  let dividend := Z.lor (shl64 remainder 32) (Z.land (u !!! i) 0xFFFFFFFF) in
  let u := <[i := Z.lor (Z.land (u !!! i) 0xFFFFFFFF00000000) (dividend / divisor)]> u in
  let remainder := dividend mod divisor in
  (u, remainder).

(** The receiver after the call, and the returned remainder. *)
Definition divBySmall (u : list Z) (divisor : Z) : list Z * Z :=
  foldl (divBySmall_step divisor) (u, 0) (rev (seq 0 N)).

(** The loop [for !temp.IsZero()] of [String]; [None] when [fuel] iterations
    do not reach zero. *)
Fixpoint String_loop (fuel : nat) (temp : list Z) (digits : list Z)
    : option (list Z) :=
  if IsZero temp then Some digits
  else
    match fuel with
    | O => None
    | S fuel' =>
        let '(temp, remainder) := divBySmall temp 10 in
        String_loop fuel' temp (digits ++ [wrap8 (48 + remainder)])
    end.

Definition String_fuel (fuel : nat) (u : list Z) : option string :=
  if IsZero u then Some "0"%string
  else
    match String_loop fuel (Clone u) [] with
    | None => None
    | Some digits => Some (string_of_bytes (reverse_in_place digits))
    end.

(** *** comparison.go: the derived comparisons *)

Definition LessOrEqual (u other : list Z) : bool := Less u other || Equal u other.

Definition Greater (u other : list Z) : bool := Less other u.

Definition GreaterOrEqual (u other : list Z) : bool := Greater u other || Equal u other.

Definition NotEqual (u other : list Z) : bool := negb (Equal u other).

Fixpoint Compare_loop (idx : list nat) (u other : list Z) : Z :=
  match idx with
  | [] => 0
  | i :: rest =>
      if u !!! i <? other !!! i then -1
      else if u !!! i >? other !!! i then 1
      else Compare_loop rest u other
  end.

Definition Compare (u other : list Z) : Z :=
  Compare_loop (rev (seq 0 N)) u other.

Definition IsOdd (u : list Z) : bool := Z.land (u !!! 0%nat) 1 =? 1.

Definition IsEven (u : list Z) : bool := Z.land (u !!! 0%nat) 1 =? 0.

Definition Min (u other : list Z) : list Z :=
  if Less u other then Clone u else Clone other.

Definition Max (u other : list Z) : list Z :=
  if Greater u other then Clone u else Clone other.

(** *** bitwise.go: the in-place logical operations and the bit counts *)

Definition AndInPlace (u : list Z) (other : operand) : list Z :=
  foldl (fun u i => <[i := Z.land (u !!! i) (operand_words u other !!! i)]> u)
        u (seq 0 N).

Definition OrInPlace (u : list Z) (other : operand) : list Z :=
  foldl (fun u i => <[i := Z.lor (u !!! i) (operand_words u other !!! i)]> u)
        u (seq 0 N).

Definition XorInPlace (u : list Z) (other : operand) : list Z :=
  foldl (fun u i => <[i := Z.lxor (u !!! i) (operand_words u other !!! i)]> u)
        u (seq 0 N).

Definition NotInPlace (u : list Z) : list Z :=
  foldl (fun u i => <[i := not64 (u !!! i)]> u) u (seq 0 N).

Fixpoint LeadingZeros_loop (idx : list nat) (u : list Z) : Z :=
  match idx with
  | [] => 64 * Z.of_nat N
  | i :: rest =>
      if negb (u !!! i =? 0) then
        (Z.of_nat N - 1 - Z.of_nat i) * 64 + LeadingZeros64 (u !!! i)
      else LeadingZeros_loop rest u
  end.

Definition LeadingZeros (u : list Z) : Z := LeadingZeros_loop (rev (seq 0 N)) u.

Fixpoint TrailingZeros_loop (idx : list nat) (u : list Z) : Z :=
  match idx with
  | [] => 64 * Z.of_nat N
  | i :: rest =>
      if negb (u !!! i =? 0) then Z.of_nat i * 64 + TrailingZeros64 (u !!! i)
      else TrailingZeros_loop rest u
  end.

Definition TrailingZeros (u : list Z) : Z := TrailingZeros_loop (seq 0 N) u.

Definition OnesCount (u : list Z) : Z :=
  foldl (fun count word => count + OnesCount64 word) 0 u.

(** *** Hexadecimal rendering *)

(** The search for the most significant non-zero word, -1 when there is
    none. *)
Fixpoint Hex_msw (idx : list nat) (u : list Z) : Z :=
  match idx with
  | [] => -1
  | i :: rest => if negb (u !!! i =? 0) then Z.of_nat i else Hex_msw rest u
  end.

Definition Hex (u : list Z) : string :=
  if IsZero u then "0x0"%string
  else
    let msw := Hex_msw (rev (seq 0 N)) u in
    if msw =? -1 then "0x0"%string
    else
      let result := ("0x" ++ Sprintf_x (u !!! Z.to_nat msw))%string in
      foldl (fun result i => (result ++ Sprintf_016x (u !!! i))%string)
            result (rev (seq 0 (Z.to_nat msw))).

End WithWidth.
End Engine.

(** ** The two packages *)

Module Uint512.

Definition N : nat := 8.

(** [func (u *Uint512) Mul(other *Uint512) *Uint1024], where [Uint1024] is
    the package's own 16-word result type. *)
Definition Mul (u other : list Z) : list Z := Engine.Mul N 16 u other.

(** The methods of the result type [Uint1024] of this package
    (arithmetic.go): [isZero], [divBySmall] and [String]. *)
Fixpoint Wide_isZero (words : list Z) : bool :=
  match words with
  | [] => true
  | word :: rest => if negb (word =? 0) then false else Wide_isZero rest
  end.

Definition Wide_divBySmall (u : list Z) (divisor : Z) : list Z * Z :=
  foldl (Engine.divBySmall_step divisor) (u, 0) (rev (seq 0 16)).

Fixpoint Wide_String_loop (fuel : nat) (temp : list Z) (digits : list Z)
    : option (list Z) :=
  if Wide_isZero temp then Some digits
  else
    match fuel with
    | O => None
    | S fuel' =>
        let '(temp, remainder) := Wide_divBySmall temp 10 in
        Wide_String_loop fuel' temp (digits ++ [wrap8 (48 + remainder)])
    end.

Definition Wide_String_fuel (fuel : nat) (u1024 : list Z) : option string :=
  if Wide_isZero u1024 then Some "0"%string
  else
    match Wide_String_loop fuel (copy (replicate 16 0) u1024) [] with
    | None => None
    | Some digits => Some (string_of_bytes (reverse_in_place digits))
    end.

End Uint512.

Module Uint1024.

Definition N : nat := 16.

(** [func (u *Uint1024) Mul(other *Uint1024) *Uint1024]. *)
Definition Mul (u other : list Z) : list Z := Engine.Mul N 16 u other.

End Uint1024.

(** * Properties *)

(** ** Word arrays and their values *)

Section Arrays.

Lemma pow64_pos (k : nat) : 0 < 2 ^ (64 * Z.of_nat k).
Proof. apply Z.pow_pos_nonneg; lia. Qed.

Lemma pow64_S (k : nat) : 2 ^ (64 * Z.of_nat (S k)) = 2 ^ 64 * 2 ^ (64 * Z.of_nat k).
Proof. rewrite <- Z.pow_add_r by lia. f_equal. lia. Qed.

Lemma pow64_add (j k : nat) :
  2 ^ (64 * Z.of_nat (j + k)) = 2 ^ (64 * Z.of_nat j) * 2 ^ (64 * Z.of_nat k).
Proof. rewrite <- Z.pow_add_r by lia. f_equal. lia. Qed.

Lemma value_app (a b : list Z) :
  value (a ++ b) = value a + 2 ^ (64 * Z.of_nat (length a)) * value b.
Proof.
  induction a as [|x a IH]; [simpl; lia|].
  rewrite <- app_comm_cons. cbn [value length]. rewrite IH, pow64_S. ring.
Qed.

Lemma value_snoc (a : list Z) (x : Z) :
  value (a ++ [x]) = value a + 2 ^ (64 * Z.of_nat (length a)) * x.
Proof. rewrite value_app. cbn [value]. ring. Qed.

Lemma value_replicate_0 (k : nat) : value (replicate k 0) = 0.
Proof. induction k as [|k IH]; cbn [replicate value]; lia. Qed.

Lemma value_bounds (ws : list Z) :
  Forall is_word ws -> 0 <= value ws < 2 ^ (64 * Z.of_nat (length ws)).
Proof.
  induction 1 as [|w ws Hw _ IH]; [simpl; lia|].
  cbn [length]. rewrite pow64_S. cbn [value]. unfold is_word in Hw. nia.
Qed.

Lemma value_inj (a b : list Z) :
  length a = length b -> Forall is_word a -> Forall is_word b ->
  value a = value b -> a = b.
Proof.
  revert b. induction a as [|x a IH]; intros [|y b] Hlen Ha Hb Hv; try discriminate; [done|].
  inversion Ha as [|? ? Hx Ha']; inversion Hb as [|? ? Hy Hb']; subst.
  cbn [value] in Hv. unfold is_word in Hx, Hy.
  assert (x = y) by lia. subst y.
  f_equal. apply IH; auto. lia.
Qed.

Lemma value_take_drop (ws : list Z) (k : nat) :
  value ws = value (take k ws) + 2 ^ (64 * Z.of_nat (length (take k ws))) * value (drop k ws).
Proof. rewrite <- value_app, take_drop. done. Qed.

Lemma lookup_total_lt (ws : list Z) (i : nat) :
  (i < length ws)%nat -> ws !! i = Some (ws !!! i).
Proof.
  intros Hi. destruct (lookup_lt_is_Some_2 ws i Hi) as [x Hx].
  rewrite Hx. f_equal. symmetry. by apply list_lookup_total_correct.
Qed.

Lemma split_at (ws : list Z) (i : nat) :
  (i < length ws)%nat -> ws = take i ws ++ ws !!! i :: drop (S i) ws.
Proof. intros Hi. symmetry. apply take_drop_middle. by apply lookup_total_lt. Qed.

Lemma take_S_total (ws : list Z) (i : nat) :
  (i < length ws)%nat -> take (S i) ws = take i ws ++ [ws !!! i].
Proof. intros Hi. apply take_S_r. by apply lookup_total_lt. Qed.

Lemma take_S_insert (ws : list Z) (i : nat) (x : Z) :
  (i < length ws)%nat -> take (S i) (<[i := x]> ws) = take i ws ++ [x].
Proof.
  intros Hi. rewrite (take_S_r _ _ x).
  - by rewrite take_insert_ge by lia.
  - by apply list_lookup_insert_eq.
Qed.

Lemma is_word_lookup (ws : list Z) (i : nat) :
  Forall is_word ws -> is_word (ws !!! i).
Proof.
  intros H. destruct (decide (i < length ws)%nat) as [Hi|Hi].
  - eapply Forall_lookup_1; [exact H|]. by apply lookup_total_lt.
  - rewrite list_lookup_total_alt. rewrite lookup_ge_None_2 by lia.
    unfold is_word. simpl. lia.
Qed.

Lemma Forall_is_word_insert (ws : list Z) (i : nat) (x : Z) :
  Forall is_word ws -> is_word x -> Forall is_word (<[i := x]> ws).
Proof. intros. by apply Forall_insert. Qed.

Lemma Forall_is_word_zero (k : nat) : Forall is_word (replicate k 0).
Proof. apply Forall_replicate. unfold is_word. lia. Qed.

Lemma wf_zeroed (N : nat) : wf N (Engine.zeroed N).
Proof. split; [apply length_replicate | apply Forall_is_word_zero]. Qed.

Lemma wf_insert (N : nat) (ws : list Z) (i : nat) (x : Z) :
  wf N ws -> is_word x -> wf N (<[i := x]> ws).
Proof.
  intros [Hl Hw] Hx. split; [by rewrite length_insert | by apply Forall_is_word_insert].
Qed.

Lemma copy_same_length {A} (dst src : list A) :
  length dst = length src -> copy dst src = src.
Proof.
  intros H. unfold copy. rewrite take_ge by lia. rewrite drop_ge by lia.
  by rewrite app_nil_r.
Qed.

Lemma Clone_wf (N : nat) (u : list Z) : length u = N -> Engine.Clone N u = u.
Proof.
  intros H. apply copy_same_length. unfold Engine.zeroed. by rewrite length_replicate.
Qed.

End Arrays.

Ltac solve_wf :=
  split; [reflexivity | repeat (constructor; [unfold is_word; lia|]); constructor].

(** ** Comparison *)

Section Comparison.

Variable N : nat.

Lemma Equal_loop_true (idx : list nat) (u other : list Z) :
  Engine.Equal_loop idx u other = true <->
  (forall i, In i idx -> u !!! i = other !!! i).
Proof.
  induction idx as [|i idx IH]; cbn [Engine.Equal_loop].
  - split; [intros _ i []|done].
  - destruct (Z.eqb_spec (u !!! i) (other !!! i)) as [E|E]; cbn [negb].
    + rewrite IH. split.
      * intros H j [<-|Hj]; auto.
      * intros H j Hj. apply H. by right.
    + split; [discriminate|]. intros H. exfalso. apply E, H. by left.
Qed.

Lemma Equal_spec (u other : list Z) :
  length u = N -> length other = N ->
  (Engine.Equal N u other = true <-> u = other).
Proof.
  intros Hu Ho. unfold Engine.Equal. rewrite Equal_loop_true. split.
  - intros H. apply (list_eq_same_length _ _ N); auto.
    intros i x y Hi Hx Hy.
    apply list_lookup_total_correct in Hx, Hy. subst x y.
    apply H, in_seq. lia.
  - intros -> i _. done.
Qed.

Lemma IsZero_spec (u : list Z) :
  length u = N -> (Engine.IsZero N u = true <-> u = Engine.ZERO N).
Proof.
  intros Hu. unfold Engine.IsZero. apply Equal_spec; auto.
  apply length_replicate.
Qed.

End Comparison.

(** ** C9: bit indices out of range *)

(** C9. For a bit index [i] outside [0, width), where the width is 64 bits
    per word (512 for uint512, 1024 for uint1024), [SetBit], [ClearBit] and
    [FlipBit] leave the value as it is and [Bit] answers false. *)
Theorem bit_index_out_of_range (N : nat) (u : list Z) (i : Z) :
  i < 0 \/ 64 * Z.of_nat N <= i ->
  Engine.SetBit N u i = u /\
  Engine.ClearBit N u i = u /\
  Engine.FlipBit N u i = u /\
  Engine.Bit N u i = false.
Proof.
  intros Hi.
  assert (Engine.out_of_range N i = true) as Hoor.
  { unfold Engine.out_of_range. destruct Hi as [Hi|Hi].
    - apply Z.ltb_lt in Hi. rewrite Hi. done.
    - apply Z.geb_le in Hi. rewrite Hi. apply orb_true_r. }
  unfold Engine.SetBit, Engine.ClearBit, Engine.FlipBit, Engine.Bit.
  rewrite Hoor. done.
Qed.

Lemma bit_index_out_of_range_witness :
  Engine.SetBit Uint512.N (Engine.New Uint512.N 5) 512 = Engine.New Uint512.N 5 /\
  Engine.ClearBit Uint512.N (Engine.New Uint512.N 5) 512 = Engine.New Uint512.N 5 /\
  Engine.FlipBit Uint512.N (Engine.New Uint512.N 5) 512 = Engine.New Uint512.N 5 /\
  Engine.Bit Uint512.N (Engine.New Uint512.N 5) 512 = false.
Proof. apply (bit_index_out_of_range 8 (Engine.New 8 5) 512). right. simpl. lia. Defined.

(** ** C3: the only failure is division by zero *)

(** C3. [Div] and [Mod] return the DivisionByZero error exactly when the
    divisor is the zero value, and return a value otherwise; no other
    operation has an error result. *)
Theorem division_by_zero_iff (N : nat) (a b : list Z) :
  wf N b ->
  (Engine.Div N a b = Err DivisionByZero <-> b = Engine.ZERO N) /\
  (Engine.Mod N a b = Err DivisionByZero <-> b = Engine.ZERO N) /\
  (b <> Engine.ZERO N ->
   exists q r, Engine.Div N a b = Ok q /\ Engine.Mod N a b = Ok r).
Proof.
  intros [Hlen _]. pose proof (IsZero_spec N b Hlen) as Hz.
  unfold Engine.Div, Engine.Mod.
  destruct (Engine.IsZero N b) eqn:E.
  - assert (b = Engine.ZERO N) as Hb by (by apply Hz).
    repeat split; auto. intros Hne. by destruct Hne.
  - assert (b <> Engine.ZERO N) as Hb.
    { intros Hb. apply Hz in Hb. discriminate. }
    split; [|split].
    + split; [|done]. repeat case_match; discriminate.
    + split; [|done]. repeat case_match; discriminate.
    + intros _. repeat case_match; eauto.
Qed.

Lemma division_by_zero_iff_witness :
  (Engine.Div 8 (Engine.New 8 7) (Engine.ZERO 8) = Err DivisionByZero /\
   Engine.Mod 8 (Engine.New 8 7) (Engine.ZERO 8) = Err DivisionByZero) /\
  (exists q r, Engine.Div 8 (Engine.New 8 7) (Engine.New 8 2) = Ok q /\
               Engine.Mod 8 (Engine.New 8 7) (Engine.New 8 2) = Ok r).
Proof.
  split.
  - destruct (division_by_zero_iff 8 (Engine.New 8 7) (Engine.ZERO 8) ltac:(solve_wf))
      as (HD & HM & _).
    split; [apply HD | apply HM]; reflexivity.
  - destruct (division_by_zero_iff 8 (Engine.New 8 7) (Engine.New 8 2) ltac:(solve_wf))
      as (_ & _ & H).
    apply H. discriminate.
Defined.

(** ** Addition and subtraction *)

Section AddSub.

Variable N : nat.

Lemma seq_snoc (m : nat) : seq 0 (S m) = seq 0 m ++ [m].
Proof. by rewrite seq_S. Qed.

Lemma Add64_spec (x y c : Z) :
  is_word x -> is_word y -> 0 <= c <= 1 ->
  let '(sum, c1) := Add64 x y c in
  is_word sum /\ 0 <= c1 <= 1 /\ sum + 2 ^ 64 * c1 = x + y + c.
Proof.
  unfold is_word, Add64. intros Hx Hy Hc.
  pose proof (Z.mod_pos_bound (x + y + c) (2 ^ 64) ltac:(lia)).
  pose proof (Z.div_mod (x + y + c) (2 ^ 64) ltac:(lia)).
  assert (0 <= (x + y + c) / 2 ^ 64 < 2).
  { split; [apply Z.div_pos; lia | apply Z.div_lt_upper_bound; lia]. }
  repeat split; lia.
Qed.

Lemma Sub64_spec (x y b : Z) :
  is_word x -> is_word y -> 0 <= b <= 1 ->
  let '(diff, b1) := Sub64 x y b in
  is_word diff /\ 0 <= b1 <= 1 /\ diff - 2 ^ 64 * b1 = x - y - b.
Proof.
  unfold is_word, Sub64. intros Hx Hy Hb.
  pose proof (Z.mod_pos_bound (x - y - b) (2 ^ 64) ltac:(lia)).
  destruct (Z.ltb_spec (x - y - b) 0) as [Hlt|Hge].
  - repeat split; try lia.
    rewrite <- (Z_mod_plus_full _ 1). rewrite Z.mod_small; lia.
  - repeat split; try lia. rewrite Z.mod_small; lia.
Qed.

(** The state of the copying loop of [Sub] after [m] words. *)
Lemma Sub_loop_inv (u other : list Z) (m : nat) :
  wf N u -> wf N other -> (m <= N)%nat ->
  let '(r, b) := foldl (Engine.Sub_step u other) (Engine.zeroed N, 0) (seq 0 m) in
  wf N r /\ 0 <= b <= 1 /\
  value (take m r) - 2 ^ (64 * Z.of_nat m) * b
    = value (take m u) - value (take m other).
Proof.
  intros Hu Ho. induction m as [|m IH]; intros Hm.
  - cbn [seq foldl]. split; [apply wf_zeroed|]. rewrite !take_0. simpl. lia.
  - rewrite seq_snoc, foldl_snoc.
    destruct (foldl _ _ (seq 0 m)) as [r b].
    destruct IH as (Hr & Hb & Hv); [lia|].
    unfold Engine.Sub_step.
    pose proof (Sub64_spec (u !!! m) (other !!! m) b
                  (is_word_lookup _ _ (proj2 Hu)) (is_word_lookup _ _ (proj2 Ho)) Hb) as HS.
    destruct (Sub64 (u !!! m) (other !!! m) b) as [diff b1].
    destruct HS as (Hd & Hb1 & Hs).
    split; [by apply wf_insert|]. split; [done|].
    destruct Hr as [Hlr _]. destruct Hu as [Hlu _]. destruct Ho as [Hlo _].
    rewrite take_S_insert by lia.
    rewrite !take_S_total by lia.
    rewrite !value_snoc, !length_take_le by lia.
    rewrite pow64_S. nia.
Qed.

Lemma Sub_wf (u other : list Z) :
  wf N u -> wf N other -> wf N (Engine.Sub N u other).
Proof.
  intros Hu Ho. pose proof (Sub_loop_inv u other N Hu Ho (le_n _)) as H.
  unfold Engine.Sub. destruct (foldl _ _ _) as [r b]. apply H.
Qed.

Lemma value_Sub (u other : list Z) :
  wf N u -> wf N other ->
  value (Engine.Sub N u other) = (value u - value other) mod 2 ^ (64 * Z.of_nat N).
Proof.
  intros Hu Ho. pose proof (Sub_loop_inv u other N Hu Ho (le_n _)) as H.
  unfold Engine.Sub. destruct (foldl _ _ _) as [r b]. cbn [fst].
  destruct H as ([Hlr Hwr] & Hb & Hv).
  destruct Hu as [Hlu Hwu]. destruct Ho as [Hlo Hwo].
  rewrite !take_ge in Hv by lia.
  pose proof (value_bounds r Hwr) as Hbr. rewrite Hlr in Hbr.
  apply (Z.mod_unique _ _ (- b)); [left; lia|]. lia.
Qed.

(** The in-place loops run through the same states as the copying ones:
    words below the loop index hold the result, words from the index on
    still hold the receiver, also when the operand is the receiver. *)
Lemma AddInPlace_loop (u : list Z) (other : operand) (m : nat) :
  length u = N -> (m <= N)%nat ->
  let '(r, c) := foldl (Engine.Add_step u (operand_words u other))
                       (Engine.zeroed N, 0) (seq 0 m) in
  length r = N /\
  foldl (Engine.AddInPlace_step other) (u, 0) (seq 0 m)
    = (take m r ++ drop m u, c).
Proof.
  intros Hu. induction m as [|m IH]; intros Hm.
  - cbn [seq foldl]. split; [apply length_replicate|]. by rewrite take_0, drop_0.
  - rewrite !seq_snoc, !foldl_snoc.
    destruct (foldl (Engine.Add_step _ _) _ (seq 0 m)) as [r c].
    destruct IH as [Hr ->]; [lia|].
    unfold Engine.Add_step, Engine.AddInPlace_step.
    assert ((take m r ++ drop m u) !!! m = u !!! m) as E1.
    { rewrite lookup_total_app_r by (rewrite length_take; lia).
      rewrite length_take_le by lia. rewrite lookup_total_drop. f_equal. lia. }
    assert (operand_words (take m r ++ drop m u) other !!! m
            = operand_words u other !!! m) as E2.
    { destruct other; [exact E1|done]. }
    rewrite E1, E2.
    destruct (Add64 _ _ _) as [sum c1].
    split; [by rewrite length_insert|]. f_equal.
    rewrite take_S_insert by lia.
    replace m with (length (take m r) + 0)%nat at 1 by (rewrite length_take_le; lia).
    rewrite insert_app_r. rewrite <- app_assoc. f_equal.
    rewrite (drop_S u (u !!! m) m) by (apply lookup_total_lt; lia). done.
Qed.

Lemma SubInPlace_loop (u : list Z) (other : operand) (m : nat) :
  length u = N -> (m <= N)%nat ->
  let '(r, b) := foldl (Engine.Sub_step u (operand_words u other))
                       (Engine.zeroed N, 0) (seq 0 m) in
  length r = N /\
  foldl (Engine.SubInPlace_step other) (u, 0) (seq 0 m)
    = (take m r ++ drop m u, b).
Proof.
  intros Hu. induction m as [|m IH]; intros Hm.
  - cbn [seq foldl]. split; [apply length_replicate|]. by rewrite take_0, drop_0.
  - rewrite !seq_snoc, !foldl_snoc.
    destruct (foldl (Engine.Sub_step _ _) _ (seq 0 m)) as [r b].
    destruct IH as [Hr ->]; [lia|].
    unfold Engine.Sub_step, Engine.SubInPlace_step.
    assert ((take m r ++ drop m u) !!! m = u !!! m) as E1.
    { rewrite lookup_total_app_r by (rewrite length_take; lia).
      rewrite length_take_le by lia. rewrite lookup_total_drop. f_equal. lia. }
    assert (operand_words (take m r ++ drop m u) other !!! m
            = operand_words u other !!! m) as E2.
    { destruct other; [exact E1|done]. }
    rewrite E1, E2.
    destruct (Sub64 _ _ _) as [diff b1].
    split; [by rewrite length_insert|]. f_equal.
    rewrite take_S_insert by lia.
    replace m with (length (take m r) + 0)%nat at 1 by (rewrite length_take_le; lia).
    rewrite insert_app_r. rewrite <- app_assoc. f_equal.
    rewrite (drop_S u (u !!! m) m) by (apply lookup_total_lt; lia). done.
Qed.

Lemma AddInPlace_Add (u : list Z) (other : operand) :
  length u = N ->
  Engine.AddInPlace N u other = Engine.Add N u (operand_words u other).
Proof.
  intros Hu. pose proof (AddInPlace_loop u other N Hu (le_n _)) as H.
  unfold Engine.AddInPlace, Engine.Add.
  destruct (foldl (Engine.Add_step _ _) _ _) as [r c].
  destruct H as [Hr ->]. cbn [fst].
  rewrite take_ge, drop_ge by lia. apply app_nil_r.
Qed.

Lemma SubInPlace_Sub (u : list Z) (other : operand) :
  length u = N ->
  Engine.SubInPlace N u other = Engine.Sub N u (operand_words u other).
Proof.
  intros Hu. pose proof (SubInPlace_loop u other N Hu (le_n _)) as H.
  unfold Engine.SubInPlace, Engine.Sub.
  destruct (foldl (Engine.Sub_step _ _) _ _) as [r c].
  destruct H as [Hr ->]. cbn [fst].
  rewrite take_ge, drop_ge by lia. apply app_nil_r.
Qed.

End AddSub.

(** ** C4: subtraction wraps around *)

(** C4. [Sub(a, b)] is the difference modulo 2^(64N): it is a value like any
    other (there is no error result), and when a < b it is 2^(64N) + a - b,
    the borrow out of the top word being dropped. *)
Theorem sub_wraps_around (N : nat) (a b : list Z) :
  wf N a -> wf N b ->
  wf N (Engine.Sub N a b) /\
  value (Engine.Sub N a b) = (value a - value b) mod 2 ^ (64 * Z.of_nat N) /\
  (value a < value b ->
   value (Engine.Sub N a b) = 2 ^ (64 * Z.of_nat N) + value a - value b).
Proof.
  intros Ha Hb. split; [by apply Sub_wf|]. split; [by apply value_Sub|].
  intros Hlt. rewrite value_Sub by done.
  pose proof (value_bounds a (proj2 Ha)) as Hba.
  pose proof (value_bounds b (proj2 Hb)) as Hbb.
  rewrite (proj1 Ha) in Hba. rewrite (proj1 Hb) in Hbb.
  symmetry. apply (Z.mod_unique _ _ (-1)); [left; lia | lia].
Qed.

Lemma sub_wraps_around_witness :
  wf 8 (Engine.Sub 8 (Engine.New 8 1) (Engine.New 8 2)) /\
  value (Engine.Sub 8 (Engine.New 8 1) (Engine.New 8 2))
    = (value (Engine.New 8 1) - value (Engine.New 8 2)) mod 2 ^ (64 * Z.of_nat 8) /\
  value (Engine.Sub 8 (Engine.New 8 1) (Engine.New 8 2))
    = 2 ^ (64 * Z.of_nat 8) + value (Engine.New 8 1) - value (Engine.New 8 2).
Proof.
  destruct (sub_wraps_around 8 (Engine.New 8 1) (Engine.New 8 2)
              ltac:(solve_wf) ltac:(solve_wf)) as (H1 & H2 & H3).
  split; [exact H1|]. split; [exact H2|]. apply H3. reflexivity.
Defined.

(** ** C10: the in-place variants *)

(** C10. Each in-place method leaves in the receiver the value its copying
    counterpart returns for the original operands, also when the operand is
    the receiver itself: [AddInPlace]/[Add], [SubInPlace]/[Sub],
    [ShlInPlace]/[Shl] and [ShrInPlace]/[Shr]. *)
Theorem in_place_matches_copy (N : nat) (a : list Z) (b : operand) (n : Z) :
  wf N a ->
  Engine.AddInPlace N a b = Engine.Add N a (operand_words a b) /\
  Engine.SubInPlace N a b = Engine.Sub N a (operand_words a b) /\
  Engine.ShlInPlace N a n = Engine.Shl N a n /\
  Engine.ShrInPlace N a n = Engine.Shr N a n.
Proof.
  intros [Hlen _]. split; [by apply AddInPlace_Add|].
  split; [by apply SubInPlace_Sub|].
  unfold Engine.Shl, Engine.Shr. by rewrite Clone_wf.
Qed.

Lemma in_place_matches_copy_witness :
  Engine.AddInPlace 8 (Engine.MAX 8) Aliased
    = Engine.Add 8 (Engine.MAX 8) (operand_words (Engine.MAX 8) Aliased) /\
  Engine.SubInPlace 8 (Engine.MAX 8) Aliased
    = Engine.Sub 8 (Engine.MAX 8) (operand_words (Engine.MAX 8) Aliased) /\
  Engine.ShlInPlace 8 (Engine.MAX 8) 70 = Engine.Shl 8 (Engine.MAX 8) 70 /\
  Engine.ShrInPlace 8 (Engine.MAX 8) 70 = Engine.Shr 8 (Engine.MAX 8) 70.
Proof. apply (in_place_matches_copy 8 (Engine.MAX 8) Aliased 70). solve_wf. Defined.

(** ** Loops that write one word per index *)

Section WriteLoops.

Context {A B : Type}.

Lemma foldl_ext_in (f g : A -> B -> A) (l : list B) (a : A) :
  (forall x i, In i l -> f x i = g x i) -> foldl f a l = foldl g a l.
Proof.
  revert a. induction l as [|i l IH]; intros a H; [done|].
  cbn [foldl]. rewrite H by (by left). apply IH.
  intros x j Hj. apply H. by right.
Qed.

End WriteLoops.

Lemma foldl_insert_asc {A} (g : nat -> A) (r0 : list A) (m : nat) :
  (m <= length r0)%nat ->
  foldl (fun r i => <[i := g i]> r) r0 (seq 0 m) = map g (seq 0 m) ++ drop m r0.
Proof.
  induction m as [|m IH]; intros Hm; [done|].
  rewrite seq_snoc, foldl_snoc, IH by lia.
  rewrite map_app. cbn [map].
  replace m with (length (map g (seq 0 m)) + 0)%nat at 1
    by (rewrite length_map, length_seq; lia).
  rewrite insert_app_r, <- app_assoc. f_equal.
  destruct (drop m r0) as [|x t] eqn:E.
  - apply (f_equal length) in E. rewrite length_drop in E. simpl in E. lia.
  - cbn. f_equal.
    assert (drop 1 (drop m r0) = t) as <- by (by rewrite E).
    rewrite drop_drop. f_equal. lia.
Qed.

Lemma foldl_insert_desc {A} (g : nat -> A) (r0 : list A) (m : nat) :
  (m <= length r0)%nat ->
  foldl (fun r i => <[(length r0 - 1 - i)%nat := g i]> r) r0 (seq 0 m)
    = take (length r0 - m) r0 ++ rev (map g (seq 0 m)).
Proof.
  induction m as [|m IH]; intros Hm.
  - cbn [seq map rev foldl]. by rewrite Nat.sub_0_r, take_ge, app_nil_r.
  - rewrite seq_snoc, foldl_snoc, IH by lia.
    rewrite map_app, rev_app_distr. cbn [map rev app].
    assert (length r0 - m = S (length r0 - S m))%nat as -> by lia.
    destruct (lookup_lt_is_Some_2 r0 (length r0 - S m) ltac:(lia)) as [x Hx].
    rewrite (take_S_r _ _ x Hx), <- app_assoc. cbn [app].
    replace (length r0 - 1 - m)%nat
      with (length (take (length r0 - S m) r0) + 0)%nat
      by (rewrite length_take_le; lia).
    by rewrite insert_app_r.
Qed.

Lemma map_lookup_total_seq (ws : list Z) :
  map (fun i => ws !!! i) (seq 0 (length ws)) = ws.
Proof.
  induction ws as [|w ws IH] using rev_ind; [done|].
  rewrite length_app. cbn [length]. rewrite Nat.add_1_r, seq_snoc, map_app.
  cbn [map]. f_equal.
  - rewrite <- IH at 2. apply map_ext_in. intros i Hi. apply in_seq in Hi.
    apply lookup_total_app_l. lia.
  - f_equal. rewrite lookup_total_app_r by lia. by rewrite Nat.sub_diag.
Qed.

(** ** C5, first part: words *)

Lemma FromLimbs_ToLimbs (N : nat) (a : list Z) :
  length a = N -> Engine.FromLimbs N (Engine.ToLimbs N a) = a.
Proof.
  intros Ha. unfold Engine.ToLimbs.
  rewrite copy_same_length by (by rewrite length_replicate).
  unfold Engine.FromLimbs. rewrite Ha, Nat.ltb_irrefl.
  rewrite copy_same_length.
  - unfold Engine.zeroed. rewrite drop_replicate, Nat.sub_diag. cbn [replicate].
    rewrite app_nil_r. apply take_ge. lia.
  - unfold Engine.zeroed. rewrite !length_take, length_replicate. lia.
Qed.

(** ** Bytes *)

Lemma land_low_high (x q k : Z) :
  0 <= k -> 0 <= x < 2 ^ k -> Z.land x (Z.shiftl q k) = 0.
Proof.
  intros Hk Hx. apply Z.bits_inj'. intros n Hn.
  rewrite Z.land_spec, Z.bits_0.
  destruct (Z.lt_ge_cases n k) as [Hlt|Hge].
  - rewrite Z.shiftl_spec_low by lia. apply andb_false_r.
  - rewrite <- (Z.mod_small x (2 ^ k)) by lia.
    rewrite Z.mod_pow2_bits_high by lia. done.
Qed.

Lemma lor_disjoint_add (x y k q : Z) :
  0 <= k -> 0 <= x < 2 ^ k -> y = q * 2 ^ k -> Z.lor x y = x + y.
Proof.
  intros Hk Hx Hy.
  assert (Z.land x y = 0) as Hl.
  { rewrite Hy, <- Z.shiftl_mul_pow2 by lia. by apply land_low_high. }
  rewrite <- Z.lxor_lor by done. symmetry. by apply Z.add_nocarry_lxor.
Qed.

Lemma lookup_total_8 (b0 b1 b2 b3 b4 b5 b6 b7 : Z) :
  let b := [b0; b1; b2; b3; b4; b5; b6; b7] in
  b !!! 0%nat = b0 /\ b !!! 1%nat = b1 /\ b !!! 2%nat = b2 /\ b !!! 3%nat = b3 /\
  b !!! 4%nat = b4 /\ b !!! 5%nat = b5 /\ b !!! 6%nat = b6 /\ b !!! 7%nat = b7.
Proof. repeat split. Qed.

Lemma LittleEndian_Uint64_sum (b0 b1 b2 b3 b4 b5 b6 b7 : Z) :
  is_byte b0 -> is_byte b1 -> is_byte b2 -> is_byte b3 ->
  is_byte b4 -> is_byte b5 -> is_byte b6 -> is_byte b7 ->
  LittleEndian_Uint64 [b0; b1; b2; b3; b4; b5; b6; b7]
  = b0 + 2 ^ 8 * b1 + 2 ^ 16 * b2 + 2 ^ 24 * b3 + 2 ^ 32 * b4 + 2 ^ 40 * b5
    + 2 ^ 48 * b6 + 2 ^ 56 * b7.
Proof.
  unfold is_byte, LittleEndian_Uint64. intros.
  destruct (lookup_total_8 b0 b1 b2 b3 b4 b5 b6 b7)
    as (-> & -> & -> & -> & -> & -> & -> & ->).
  rewrite !Z.shiftl_mul_pow2 by lia.
  rewrite (lor_disjoint_add (b6 * 2 ^ 48) _ 56 b7) by lia.
  rewrite (lor_disjoint_add (b5 * 2 ^ 40) _ 48 (b6 + b7 * 2 ^ 8)) by lia.
  rewrite (lor_disjoint_add (b4 * 2 ^ 32) _ 40 (b5 + b6 * 2 ^ 8 + b7 * 2 ^ 16)) by lia.
  rewrite (lor_disjoint_add (b3 * 2 ^ 24) _ 32
             (b4 + b5 * 2 ^ 8 + b6 * 2 ^ 16 + b7 * 2 ^ 24)) by lia.
  rewrite (lor_disjoint_add (b2 * 2 ^ 16) _ 24
             (b3 + b4 * 2 ^ 8 + b5 * 2 ^ 16 + b6 * 2 ^ 24 + b7 * 2 ^ 32)) by lia.
  rewrite (lor_disjoint_add (b1 * 2 ^ 8) _ 16
             (b2 + b3 * 2 ^ 8 + b4 * 2 ^ 16 + b5 * 2 ^ 24 + b6 * 2 ^ 32 + b7 * 2 ^ 40))
    by lia.
  rewrite (lor_disjoint_add b0 _ 8
             (b1 + b2 * 2 ^ 8 + b3 * 2 ^ 16 + b4 * 2 ^ 24 + b5 * 2 ^ 32 + b6 * 2 ^ 40
              + b7 * 2 ^ 48)) by lia.
  lia.
Qed.

Lemma BigEndian_Uint64_rev (b0 b1 b2 b3 b4 b5 b6 b7 : Z) :
  BigEndian_Uint64 [b0; b1; b2; b3; b4; b5; b6; b7]
  = LittleEndian_Uint64 [b7; b6; b5; b4; b3; b2; b1; b0].
Proof. reflexivity. Qed.

Lemma byte_step (x : Z) :
  0 <= x -> x = 256 * (x / 256) + wrap8 x /\ is_byte (wrap8 x) /\ 0 <= x / 256.
Proof.
  intros Hx. unfold wrap8, is_byte.
  pose proof (Z.div_mod x 256 ltac:(lia)).
  pose proof (Z.mod_pos_bound x 256 ltac:(lia)).
  pose proof (Z.div_pos x 256 Hx ltac:(lia)). lia.
Qed.

Lemma shiftr_next (v k k' : Z) :
  0 <= k -> k' = k + 8 -> Z.shiftr v k / 256 = Z.shiftr v k'.
Proof.
  intros Hk ->. rewrite !Z.shiftr_div_pow2 by lia.
  rewrite Z.pow_add_r by lia. rewrite Z.div_div by lia. done.
Qed.

Lemma PutUint64_digits (v : Z) :
  is_word v ->
  Forall is_byte (LittleEndian_PutUint64 v) /\
  LittleEndian_Uint64 (LittleEndian_PutUint64 v) = v.
Proof.
  unfold is_word. intros Hv. unfold LittleEndian_PutUint64.
  pose proof (byte_step v ltac:(lia)) as (E0 & B0 & P0).
  rewrite <- (Z.shiftr_0_r v) in E0 at 2. rewrite <- (Z.shiftr_0_r v) in P0.
  rewrite (shiftr_next v 0 8) in E0, P0 by lia.
  pose proof (byte_step _ P0) as (E1 & B1 & P1).
  rewrite (shiftr_next v 8 16) in E1, P1 by lia.
  pose proof (byte_step _ P1) as (E2 & B2 & P2).
  rewrite (shiftr_next v 16 24) in E2, P2 by lia.
  pose proof (byte_step _ P2) as (E3 & B3 & P3).
  rewrite (shiftr_next v 24 32) in E3, P3 by lia.
  pose proof (byte_step _ P3) as (E4 & B4 & P4).
  rewrite (shiftr_next v 32 40) in E4, P4 by lia.
  pose proof (byte_step _ P4) as (E5 & B5 & P5).
  rewrite (shiftr_next v 40 48) in E5, P5 by lia.
  pose proof (byte_step _ P5) as (E6 & B6 & P6).
  rewrite (shiftr_next v 48 56) in E6, P6 by lia.
  pose proof (byte_step _ P6) as (E7 & B7 & P7).
  rewrite (shiftr_next v 56 64) in E7, P7 by lia.
  assert (Z.shiftr v 64 = 0) as E8.
  { rewrite Z.shiftr_div_pow2 by lia. apply Z.div_small. lia. }
  split.
  - repeat (constructor; [assumption|]). constructor.
  - rewrite LittleEndian_Uint64_sum by assumption.
    rewrite E8 in E7. lia.
Qed.

Lemma LittleEndian_roundtrip (v : Z) :
  is_word v -> LittleEndian_Uint64 (LittleEndian_PutUint64 v) = v.
Proof. intros Hv. by apply PutUint64_digits. Qed.

Lemma BigEndian_roundtrip (v : Z) :
  is_word v -> BigEndian_Uint64 (BigEndian_PutUint64 v) = v.
Proof. intros Hv. by apply PutUint64_digits. Qed.

Lemma bytes8_inv (c : list Z) :
  length c = 8%nat ->
  exists b0 b1 b2 b3 b4 b5 b6 b7, c = [b0; b1; b2; b3; b4; b5; b6; b7].
Proof.
  intros H. do 8 (destruct c as [|? c]; [discriminate|]).
  destruct c; [|discriminate]. by repeat eexists.
Qed.

Lemma BigEndian_Uint64_be_value (c : list Z) :
  length c = 8%nat -> Forall is_byte c ->
  BigEndian_Uint64 c = be_value c /\ is_word (be_value c).
Proof.
  intros Hl Hb. destruct (bytes8_inv c Hl) as (b0&b1&b2&b3&b4&b5&b6&b7&->).
  repeat match goal with
         | H : Forall _ (_ :: _) |- _ => inversion H; subst; clear H
         end.
  rewrite BigEndian_Uint64_rev, LittleEndian_Uint64_sum by assumption.
  unfold be_value, is_word, is_byte in *. cbn [foldl]. lia.
Qed.

Lemma be_value_snoc (a : list Z) (x : Z) : be_value (a ++ [x]) = 256 * be_value a + x.
Proof. unfold be_value. by rewrite foldl_snoc. Qed.

Lemma be_value_app (a b : list Z) :
  be_value (a ++ b) = be_value a * 256 ^ Z.of_nat (length b) + be_value b.
Proof.
  induction b as [|x b IH] using rev_ind.
  - rewrite app_nil_r. unfold be_value at 3. cbn. lia.
  - rewrite app_assoc, !be_value_snoc, IH, length_app. cbn [length].
    rewrite Nat2Z.inj_add, Z.pow_add_r by lia. change (256 ^ Z.of_nat 1) with 256. ring.
Qed.

Lemma be_value_zeros (k : nat) : be_value (replicate k 0) = 0.
Proof.
  induction k as [|k IH]; [done|].
  rewrite replicate_S_end, be_value_snoc, IH. done.
Qed.

Lemma pow256_8 (k : nat) : 256 ^ Z.of_nat (8 * k) = 2 ^ (64 * Z.of_nat k).
Proof.
  change 256 with (2 ^ 8). rewrite <- Z.pow_mul_r by lia. f_equal. lia.
Qed.

Lemma length_concat_8 (cs : list (list Z)) :
  Forall (fun c => length c = 8%nat /\ Forall is_byte c) cs ->
  length (concat cs) = (8 * length cs)%nat.
Proof.
  induction 1 as [|c cs [Hc _] _ IH]; [done|].
  cbn [concat]. rewrite length_app, IH, Hc. cbn [length]. lia.
Qed.

(** Words decoded big-endian from consecutive 8-byte chunks, stored last
    chunk first, stand for the number the bytes spell. *)
Lemma value_rev_BigEndian (cs : list (list Z)) :
  Forall (fun c => length c = 8%nat /\ Forall is_byte c) cs ->
  value (rev (map BigEndian_Uint64 cs)) = be_value (concat cs) /\
  Forall is_word (rev (map BigEndian_Uint64 cs)).
Proof.
  induction 1 as [|c cs [Hc Hb] Hcs [IHv IHw]]; [by split|].
  destruct (BigEndian_Uint64_be_value c Hc Hb) as [E W].
  cbn [map rev concat]. split.
  - rewrite value_snoc, IHv, be_value_app, length_rev, length_map.
    rewrite (length_concat_8 cs Hcs), pow256_8, E. ring.
  - apply Forall_app. split; [done|]. constructor; [by rewrite E|constructor].
Qed.

Lemma concat_slices (P : list Z) (m : nat) :
  (8 * m <= length P)%nat ->
  concat (map (fun i => slice P (i * 8) (i * 8 + 8)) (seq 0 m)) = take (8 * m) P.
Proof.
  induction m as [|m IH]; intros Hm.
  - by rewrite Nat.mul_0_r, take_0.
  - rewrite seq_snoc, map_app, concat_app, IH by lia. cbn [map concat].
    rewrite app_nil_r. unfold slice.
    replace (m * 8 + 8 - m * 8)%nat with 8%nat by lia.
    replace (m * 8)%nat with (8 * m)%nat by lia.
    rewrite take_take_drop. f_equal. lia.
Qed.

Lemma slices_wf (P : list Z) (m : nat) :
  (8 * m <= length P)%nat -> Forall is_byte P ->
  Forall (fun c => length c = 8%nat /\ Forall is_byte c)
         (map (fun i => slice P (i * 8) (i * 8 + 8)) (seq 0 m)).
Proof.
  intros Hm HP. apply Forall_forall. intros c Hc.
  apply list_elem_of_In in Hc.
  apply in_map_iff in Hc as (i & <- & Hi). apply in_seq in Hi.
  unfold slice. split.
  - rewrite length_take, length_drop. lia.
  - by apply Forall_take, Forall_drop.
Qed.

Lemma foldl_insert_desc_N {A} (N : nat) (g : nat -> A) (r0 : list A) :
  length r0 = N ->
  foldl (fun r i => <[(N - 1 - i)%nat := g i]> r) r0 (seq 0 N) = rev (map g (seq 0 N)).
Proof.
  intros <-. rewrite foldl_insert_desc by lia. by rewrite Nat.sub_diag, take_0.
Qed.

(** ** C7: big-endian input *)

Section BigEndianInput.

Variable N : nat.

(** The 8N-byte buffer [padded] of [FromBeBytes]. *)
Lemma FromBeBytes_padded (data : list Z) (dataLen : nat) :
  (dataLen <= 8 * N)%nat -> (dataLen <= length data)%nat ->
  put_slice (replicate (8 * N) 0) (8 * N - dataLen)
    (copy (drop (8 * N - dataLen) (replicate (8 * N) 0)) (take dataLen data))
  = replicate (8 * N - dataLen) 0 ++ take dataLen data.
Proof.
  intros H1 H2. rewrite copy_same_length
    by (rewrite length_drop, length_replicate, length_take; lia).
  unfold put_slice. rewrite take_replicate, drop_replicate, length_take.
  replace (8 * N - (8 * N - dataLen + dataLen `min` length data))%nat with 0%nat by lia.
  replace ((8 * N - dataLen) `min` (8 * N))%nat with (8 * N - dataLen)%nat by lia.
  cbn [replicate]. by rewrite app_nil_r.
Qed.

Lemma FromBeBytes_value (data : list Z) :
  Forall is_byte data ->
  wf N (Engine.FromBeBytes N data) /\
  value (Engine.FromBeBytes N data) = be_value (take (8 * N) data).
Proof.
  intros Hd. unfold Engine.FromBeBytes.
  set (dataLen := if (8 * N <? length data)%nat then (8 * N)%nat else length data).
  assert (dataLen <= 8 * N /\ dataLen <= length data /\
          take (8 * N) data = take dataLen data)%nat as (H1 & H2 & H3).
  { unfold dataLen. destruct (Nat.ltb_spec (8 * N) (length data)).
    - repeat split; lia.
    - repeat split; try lia. by rewrite !take_ge by lia. }
  destruct (Nat.eqb_spec dataLen 0) as [E0|Hne].
  - split; [apply wf_zeroed|]. rewrite H3, E0, take_0.
    unfold Engine.zeroed. by rewrite value_replicate_0.
  - rewrite FromBeBytes_padded by done.
    set (P := replicate (8 * N - dataLen) 0 ++ take dataLen data).
    assert (length P = (8 * N)%nat) as HlP.
    { unfold P. rewrite length_app, length_replicate, length_take. lia. }
    assert (Forall is_byte P) as HbP.
    { unfold P. apply Forall_app. split.
      - apply Forall_replicate. unfold is_byte. lia.
      - by apply Forall_take. }
    rewrite (foldl_insert_desc_N N
               (fun i => BigEndian_Uint64 (slice P (i * 8) (i * 8 + 8))))
      by apply length_replicate.
    rewrite <- (map_map (fun i => slice P (i * 8) (i * 8 + 8)) BigEndian_Uint64).
    destruct (value_rev_BigEndian _ (slices_wf P N ltac:(lia) HbP)) as [Ev Ew].
    split.
    + split; [|done]. by rewrite length_rev, !length_map, length_seq.
    + rewrite Ev, concat_slices by lia. rewrite take_ge by lia.
      unfold P. rewrite be_value_app, be_value_zeros, H3. lia.
Qed.

End BigEndianInput.

(** C7. [FromBeBytes] reads its input as one big-endian number: an input of
    at most 8N bytes is right-aligned, its bytes being the least significant
    ones, which is the same as putting zero bytes in front of it up to the
    full width; of a longer input only the first 8N bytes count. *)
Theorem FromBeBytes_right_aligned (N : nat) (data : list Z) :
  Forall is_byte data ->
  ((length data <= 8 * N)%nat ->
   value (Engine.FromBeBytes N data) = be_value data /\
   Engine.FromBeBytes N data
     = Engine.FromBeBytes N (replicate (8 * N - length data) 0 ++ data)) /\
  ((8 * N < length data)%nat ->
   Engine.FromBeBytes N data = Engine.FromBeBytes N (take (8 * N) data)).
Proof.
  intros Hd. destruct (FromBeBytes_value N data Hd) as [[Hl Hw] Hv]. split.
  - intros Hlen. rewrite take_ge in Hv by lia. split; [done|].
    assert (Forall is_byte (replicate (8 * N - length data) 0 ++ data)) as Hd'.
    { apply Forall_app. split; [|done]. apply Forall_replicate. unfold is_byte. lia. }
    destruct (FromBeBytes_value N _ Hd') as [[Hl' Hw'] Hv'].
    apply value_inj; [congruence|done|done|].
    rewrite Hv, Hv'. rewrite take_ge by (rewrite length_app, length_replicate; lia).
    by rewrite be_value_app, be_value_zeros.
  - intros Hlen.
    destruct (FromBeBytes_value N (take (8 * N) data) (Forall_take _ _ _ Hd))
      as [[Hl' Hw'] Hv'].
    apply value_inj; [congruence|done|done|].
    rewrite Hv, Hv'. by rewrite take_take, Nat.min_id.
Qed.

Lemma FromBeBytes_right_aligned_witness :
  (value (Engine.FromBeBytes 8 [1; 2; 3]) = be_value [1; 2; 3] /\
   Engine.FromBeBytes 8 [1; 2; 3]
     = Engine.FromBeBytes 8 (replicate (8 * 8 - length [1; 2; 3]) 0 ++ [1; 2; 3])) /\
  Engine.FromBeBytes 8 (replicate 65 7)
    = Engine.FromBeBytes 8 (take (8 * 8) (replicate 65 7)).
Proof.
  split.
  - apply (FromBeBytes_right_aligned 8 [1; 2; 3]).
    + repeat (constructor; [unfold is_byte; lia|]). constructor.
    + simpl. lia.
  - apply (FromBeBytes_right_aligned 8 (replicate 65 7)).
    + apply Forall_replicate. unfold is_byte. lia.
    + simpl. lia.
Defined.

(** ** C5: export and import round trips *)

Section RoundTrips.

Variable N : nat.

(** The export loops fill the buffer eight bytes at a time. *)
Lemma put_loop (put : Z -> list Z) (w : nat -> Z) (m : nat) :
  (forall v, length (put v) = 8%nat) -> (m <= N)%nat ->
  foldl (fun bytes i => put_slice bytes (i * 8) (put (w i)))
        (replicate (8 * N) 0) (seq 0 m)
  = concat (map (fun i => put (w i)) (seq 0 m)) ++ replicate (8 * (N - m)) 0.
Proof.
  intros Hput. induction m as [|m IH]; intros Hm.
  - cbn [seq map concat foldl app]. by rewrite Nat.sub_0_r.
  - rewrite seq_snoc, foldl_snoc, IH by lia.
    rewrite map_app, concat_app. cbn [map concat]. rewrite app_nil_r.
    set (pre := concat (map (fun i => put (w i)) (seq 0 m))).
    assert (length pre = (m * 8)%nat) as Hpre.
    { unfold pre. clear IH Hm. induction m as [|m IH]; [done|].
      rewrite seq_snoc, map_app, concat_app, length_app, IH.
      cbn [map concat]. rewrite app_nil_r, Hput. lia. }
    unfold put_slice. rewrite <- Hpre at 1. rewrite take_app_length.
    rewrite <- app_assoc. f_equal. f_equal.
    rewrite Hput, <- Hpre. rewrite drop_app_add, drop_replicate. f_equal. lia.
Qed.

Lemma slice_chunk (f : nat -> list Z) (i : nat) :
  (forall j, length (f j) = 8%nat) -> (i < N)%nat ->
  slice (concat (map f (seq 0 N))) (i * 8) (i * 8 + 8) = f i.
Proof.
  intros Hf Hi.
  assert (forall m, length (concat (map f (seq 0 m))) = (m * 8)%nat) as Hlen.
  { induction m as [|m IH]; [done|].
    rewrite seq_snoc, map_app, concat_app, length_app, IH.
    cbn [map concat]. rewrite app_nil_r, Hf. lia. }
  replace N with (i + S (N - S i))%nat by lia.
  rewrite seq_app, map_app, concat_app. cbn [seq map concat Nat.add].
  unfold slice. rewrite <- (Hlen i) at 3. rewrite drop_app_length.
  replace (i * 8 + 8 - i * 8)%nat with (length (f i)) by (rewrite Hf; lia).
  by rewrite take_app_length.
Qed.

Lemma ToLeBytes_chunks (u : list Z) :
  Engine.ToLeBytes N u
  = concat (map (fun i => LittleEndian_PutUint64 (u !!! i)) (seq 0 N)).
Proof.
  unfold Engine.ToLeBytes.
  rewrite (put_loop LittleEndian_PutUint64 (fun i => u !!! i) N)
    by (done || lia).
  rewrite Nat.sub_diag, Nat.mul_0_r. apply app_nil_r.
Qed.

Lemma ToBeBytes_chunks (u : list Z) :
  Engine.ToBeBytes N u
  = concat (map (fun i => BigEndian_PutUint64 (u !!! (N - 1 - i)%nat)) (seq 0 N)).
Proof.
  unfold Engine.ToBeBytes.
  rewrite (put_loop BigEndian_PutUint64 (fun i => u !!! (N - 1 - i)%nat) N)
    by (done || lia).
  rewrite Nat.sub_diag, Nat.mul_0_r. apply app_nil_r.
Qed.

Lemma length_chunks (f : nat -> list Z) :
  (forall j, length (f j) = 8%nat) ->
  length (concat (map f (seq 0 N))) = (8 * N)%nat.
Proof.
  intros Hf. induction N as [|m IH]; [done|].
  rewrite seq_snoc, map_app, concat_app, length_app, IH.
  cbn [map concat]. rewrite app_nil_r, Hf. lia.
Qed.

Lemma FromLeBytes_ToLeBytes (a : list Z) :
  wf N a -> Engine.FromLeBytes N (Engine.ToLeBytes N a) = a.
Proof.
  intros [Hl Hw]. rewrite ToLeBytes_chunks.
  set (f := fun i => LittleEndian_PutUint64 (a !!! i)).
  set (data := concat (map f (seq 0 N))).
  assert (length data = (8 * N)%nat) as Hdata by (by apply length_chunks).
  unfold Engine.FromLeBytes. rewrite Hdata, Nat.ltb_irrefl.
  rewrite (foldl_ext_in _ (fun r i => <[i := a !!! i]> r)).
  - rewrite foldl_insert_asc by (unfold Engine.zeroed; rewrite length_replicate; lia).
    unfold Engine.zeroed. rewrite drop_replicate, Nat.sub_diag, app_nil_r.
    rewrite <- Hl. apply map_lookup_total_seq.
  - intros r i Hi. apply in_seq in Hi.
    destruct (Nat.ltb_spec (i * 8) (8 * N)) as [_|?]; [|lia].
    destruct (Nat.ltb_spec (8 * N) (i * 8 + 8)) as [?|_]; [lia|].
    f_equal. unfold data. rewrite slice_chunk by (done || lia).
    rewrite copy_same_length by done.
    apply LittleEndian_roundtrip. by apply is_word_lookup.
Qed.

Lemma rev_map_lookup_desc (a : list Z) :
  rev (map (fun i => a !!! (length a - 1 - i)%nat) (seq 0 (length a))) = a.
Proof.
  induction a as [|x a IH] using rev_ind; [done|].
  rewrite length_app. cbn [length]. rewrite Nat.add_1_r.
  cbn [seq map]. rewrite <- seq_shift, map_map. cbn [rev]. f_equal.
  - etransitivity; [|exact IH]. f_equal.
    apply map_ext_in. intros i Hi. apply in_seq in Hi.
    rewrite lookup_total_app_l by lia. f_equal. lia.
  - f_equal. rewrite lookup_total_app_r by lia.
    replace (S (length a) - 1 - 0 - length a)%nat with 0%nat by lia. done.
Qed.

Lemma FromBeBytes_ToBeBytes (a : list Z) :
  wf N a -> Engine.FromBeBytes N (Engine.ToBeBytes N a) = a.
Proof.
  intros [Hl Hw]. rewrite ToBeBytes_chunks.
  set (f := fun i => BigEndian_PutUint64 (a !!! (N - 1 - i)%nat)).
  set (data := concat (map f (seq 0 N))).
  assert (length data = (8 * N)%nat) as Hdata by (by apply length_chunks).
  unfold Engine.FromBeBytes. rewrite Hdata, Nat.ltb_irrefl.
  destruct (Nat.eqb_spec (8 * N) 0) as [E0|Hne].
  - assert (N = 0%nat) as HN by lia. rewrite HN in *.
    destruct a; [done|discriminate].
  - rewrite FromBeBytes_padded by lia.
    rewrite Nat.sub_diag. cbn [replicate app]. rewrite take_ge by lia.
    rewrite (foldl_ext_in _ (fun r i => <[(N - 1 - i)%nat := a !!! (N - 1 - i)%nat]> r)).
    + rewrite (foldl_insert_desc_N N (fun i => a !!! (N - 1 - i)%nat))
        by apply length_replicate.
      rewrite <- Hl. apply rev_map_lookup_desc.
    + intros r i Hi. apply in_seq in Hi.
      f_equal. unfold data. rewrite slice_chunk by (done || lia).
      apply BigEndian_roundtrip. by apply is_word_lookup.
Qed.

End RoundTrips.

(** C5. Exporting a value and importing the result gives the value back, for
    the word, little-endian byte and big-endian byte forms. *)
Theorem export_import_round_trip (N : nat) (a : list Z) :
  wf N a ->
  Engine.FromLimbs N (Engine.ToLimbs N a) = a /\
  Engine.FromLeBytes N (Engine.ToLeBytes N a) = a /\
  Engine.FromBeBytes N (Engine.ToBeBytes N a) = a.
Proof.
  intros Ha. split; [apply FromLimbs_ToLimbs, Ha|].
  split; [by apply FromLeBytes_ToLeBytes | by apply FromBeBytes_ToBeBytes].
Qed.

Lemma export_import_round_trip_witness :
  Engine.FromLimbs 8 (Engine.ToLimbs 8 [1; 2; 3; 4; 5; 6; 7; 2 ^ 64 - 1])
    = [1; 2; 3; 4; 5; 6; 7; 2 ^ 64 - 1] /\
  Engine.FromLeBytes 8 (Engine.ToLeBytes 8 [1; 2; 3; 4; 5; 6; 7; 2 ^ 64 - 1])
    = [1; 2; 3; 4; 5; 6; 7; 2 ^ 64 - 1] /\
  Engine.FromBeBytes 8 (Engine.ToBeBytes 8 [1; 2; 3; 4; 5; 6; 7; 2 ^ 64 - 1])
    = [1; 2; 3; 4; 5; 6; 7; 2 ^ 64 - 1].
Proof.
  apply (export_import_round_trip 8 [1; 2; 3; 4; 5; 6; 7; 2 ^ 64 - 1]). solve_wf.
Defined.

(** ** Shifts *)

Lemma foldl_insert_range {A} (g : nat -> A) (r0 : list A) (s m : nat) :
  (s + m <= length r0)%nat ->
  foldl (fun r i => <[i := g i]> r) r0 (seq s m)
  = take s r0 ++ map g (seq s m) ++ drop (s + m) r0.
Proof.
  induction m as [|m IH]; intros Hm.
  - cbn [seq map foldl app]. by rewrite Nat.add_0_r, take_drop.
  - rewrite seq_S, foldl_snoc, IH by lia.
    rewrite map_app. cbn [map].
    rewrite insert_app_r_alt by (rewrite length_take; lia).
    rewrite length_take_le by lia. f_equal.
    rewrite insert_app_r_alt by (rewrite length_map, length_seq; lia).
    rewrite length_map, length_seq, <- app_assoc. f_equal.
    replace (s + m - s - m)%nat with 0%nat by lia.
    destruct (lookup_lt_is_Some_2 r0 (s + m) ltac:(lia)) as [x Hx].
    rewrite (drop_S _ _ _ Hx). cbn. do 2 f_equal. lia.
Qed.

Lemma map_const_seq {A} (x : A) (s m : nat) : map (fun _ => x) (seq s m) = replicate m x.
Proof.
  revert s. induction m as [|m IH]; intros s; [done|].
  cbn [seq map replicate]. by rewrite IH.
Qed.

Lemma clear_all_zero (N : nat) (u : list Z) :
  length u = N -> Engine.clear_all N u = replicate N 0.
Proof.
  intros Hu. unfold Engine.clear_all. rewrite (foldl_insert_range (fun _ => 0)) by lia.
  rewrite take_0, drop_ge by lia. cbn [app Nat.add].
  by rewrite app_nil_r, map_const_seq.
Qed.

Lemma move_up (ws : nat) (u : list Z) (m : nat) :
  (ws + m <= length u)%nat ->
  foldl (fun u i => <[i := u !!! (i - ws)%nat]> u) u (rev (seq ws m))
  = take ws u ++ take m u ++ drop (ws + m) u.
Proof.
  revert u. induction m as [|m IH]; intros u Hm.
  - cbn [seq rev foldl]. rewrite take_0, Nat.add_0_r. cbn [app]. by rewrite take_drop.
  - rewrite seq_S, rev_app_distr. cbn [rev app foldl].
    rewrite IH by (rewrite length_insert; lia).
    replace (ws + m - ws)%nat with m by lia.
    rewrite !take_insert_ge by lia.
    rewrite drop_insert_ge by lia. rewrite Nat.sub_diag.
    rewrite (take_S_total u m) by lia. rewrite <- app_assoc. do 2 f_equal.
    destruct (lookup_lt_is_Some_2 u (ws + m) ltac:(lia)) as [x Hx].
    rewrite (drop_S _ _ _ Hx). cbn. do 2 f_equal. lia.
Qed.

Lemma move_down (ws : nat) (u : list Z) (m : nat) :
  (m + ws <= length u)%nat ->
  foldl (fun u i => <[i := u !!! (i + ws)%nat]> u) u (seq 0 m)
  = take m (drop ws u) ++ drop m u.
Proof.
  induction m as [|m IH]; intros Hm.
  - done.
  - rewrite seq_snoc, foldl_snoc, IH by lia.
    assert (length (take m (drop ws u)) = m) as Hl
      by (rewrite length_take, length_drop; lia).
    rewrite lookup_total_app_r by lia. rewrite Hl.
    rewrite lookup_total_drop.
    rewrite insert_app_r_alt by lia. rewrite Hl, Nat.sub_diag.
    destruct (lookup_lt_is_Some_2 u m ltac:(lia)) as [x Hx].
    rewrite (drop_S _ _ _ Hx). cbn [insert list_insert].
    rewrite (take_S_r _ _ (u !!! (m + (m + ws - m))%nat)).
    + by rewrite <- app_assoc.
    + rewrite lookup_drop. rewrite lookup_total_lt by lia. do 2 f_equal. lia.
Qed.

Lemma pow2_split (bs : Z) : 0 < bs < 64 -> 2 ^ bs * 2 ^ (64 - bs) = 2 ^ 64.
Proof. intros H. rewrite <- Z.pow_add_r by lia. f_equal. lia. Qed.

Lemma shl_word (x c bs : Z) :
  is_word x -> 0 < bs < 64 -> 0 <= c < 2 ^ bs ->
  is_word (Z.lor (shl64 x bs) c) /\
  0 <= shr64 x (64 - bs) < 2 ^ bs /\
  Z.lor (shl64 x bs) c + 2 ^ 64 * shr64 x (64 - bs) = x * 2 ^ bs + c.
Proof.
  unfold is_word, shl64, shr64, wrap64. intros Hx Hbs Hc.
  pose proof (pow2_split bs Hbs) as Hp.
  rewrite Z.shiftl_mul_pow2, Z.shiftr_div_pow2 by lia.
  assert (0 < 2 ^ bs) by (apply Z.pow_pos_nonneg; lia).
  assert (0 < 2 ^ (64 - bs)) by (apply Z.pow_pos_nonneg; lia).
  pose proof (Z.div_mod x (2 ^ (64 - bs)) ltac:(lia)) as Hdm.
  pose proof (Z.mod_pos_bound x (2 ^ (64 - bs)) ltac:(lia)) as Hr.
  set (q := x / 2 ^ (64 - bs)) in *. set (r := x mod 2 ^ (64 - bs)) in *.
  assert (0 <= q < 2 ^ bs) as Hq.
  { split; [apply Z.div_pos; lia|]. apply Z.div_lt_upper_bound; lia. }
  assert ((x * 2 ^ bs) mod 2 ^ 64 = r * 2 ^ bs) as Em.
  { rewrite <- Hp. rewrite (Z.mul_comm (2 ^ bs) (2 ^ (64 - bs))).
    rewrite Z.mul_mod_distr_r by lia. done. }
  rewrite Em, Z.lor_comm, (lor_disjoint_add c _ bs r) by lia.
  repeat split; nia.
Qed.

Lemma shr_word (x e bs : Z) :
  is_word x -> 0 < bs < 64 -> 0 <= e < 2 ^ bs ->
  is_word (Z.lor (shr64 x bs) (e * 2 ^ (64 - bs))) /\
  shl64 x (64 - bs) = (x mod 2 ^ bs) * 2 ^ (64 - bs) /\
  0 <= x mod 2 ^ bs < 2 ^ bs /\
  Z.lor (shr64 x bs) (e * 2 ^ (64 - bs)) * 2 ^ bs + x mod 2 ^ bs = x + e * 2 ^ 64.
Proof.
  unfold is_word, shl64, shr64, wrap64. intros Hx Hbs He.
  pose proof (pow2_split bs Hbs) as Hp.
  rewrite Z.shiftl_mul_pow2, Z.shiftr_div_pow2 by lia.
  assert (0 < 2 ^ bs) by (apply Z.pow_pos_nonneg; lia).
  assert (0 < 2 ^ (64 - bs)) by (apply Z.pow_pos_nonneg; lia).
  pose proof (Z.div_mod x (2 ^ bs) ltac:(lia)) as Hdm.
  pose proof (Z.mod_pos_bound x (2 ^ bs) ltac:(lia)) as Hr.
  set (q := x / 2 ^ bs) in *. set (r := x mod 2 ^ bs) in *.
  assert (0 <= q < 2 ^ (64 - bs)) as Hq.
  { split; [apply Z.div_pos; lia|]. apply Z.div_lt_upper_bound; lia. }
  assert ((x * 2 ^ (64 - bs)) mod 2 ^ 64 = r * 2 ^ (64 - bs)) as Em.
  { rewrite <- Hp. rewrite Z.mul_mod_distr_r by lia. done. }
  rewrite Em, (lor_disjoint_add q _ (64 - bs) e) by lia.
  repeat split; nia.
Qed.

Section ShiftLoops.

Variable bs : Z.
Hypothesis Hbs : 0 < bs < 64.

Lemma shl_bits_loop (pre t : list Z) (m : nat) :
  Forall is_word t -> (m <= length t)%nat ->
  exists t' c',
    foldl (Engine.Shl_bits_step bs) (pre ++ t, 0) (seq (length pre) m) = (pre ++ t' ++ drop m t, c') /\
    length t' = m /\ Forall is_word t' /\ 0 <= c' < 2 ^ bs /\
    value t' + 2 ^ (64 * Z.of_nat m) * c' = value (take m t) * 2 ^ bs.
Proof.
  intros Ht. induction m as [|m IH]; intros Hm.
  - exists [], 0. cbn [seq foldl app length]. rewrite drop_0, take_0.
    assert (0 < 2 ^ bs) by (apply Z.pow_pos_nonneg; lia).
    repeat split; (done || lia || (simpl; lia)).
  - destruct IH as (t' & c' & E & Hl & Hw & Hc & Hv); [lia|].
    rewrite seq_S, foldl_snoc, E. unfold Engine.Shl_bits_step.
    assert ((pre ++ t' ++ drop m t) !!! (length pre + m)%nat = t !!! m) as Er.
    { rewrite lookup_total_app_r by lia. rewrite lookup_total_app_r by lia.
      rewrite lookup_total_drop. f_equal. lia. }
    rewrite Er.
    destruct (shl_word (t !!! m) c' bs (is_word_lookup _ _ Ht) Hbs Hc) as (W1 & W2 & W3).
    exists (t' ++ [Z.lor (shl64 (t !!! m) bs) c']), (shr64 (t !!! m) (64 - bs)).
    split; [|split; [|split; [|split]]].
    + f_equal. rewrite insert_app_r_alt by lia.
      rewrite insert_app_r_alt by lia.
      replace (length pre + m - length pre - length t')%nat with 0%nat by lia.
      rewrite (drop_S t (t !!! m) m) by (apply lookup_total_lt; lia).
      cbn [insert list_insert]. by rewrite <- app_assoc.
    + rewrite length_app. cbn [length]. lia.
    + apply Forall_app. split; [done|]. by constructor.
    + done.
    + rewrite value_snoc, Hl, (take_S_total t m) by lia.
      rewrite value_snoc, length_take_le by lia. rewrite pow64_S. nia.
Qed.

Lemma shr_bits_loop (t post : list Z) (e : Z) :
  Forall is_word t -> 0 <= e < 2 ^ bs ->
  exists t' e',
    foldl (Engine.Shr_bits_step bs) (t ++ post, e * 2 ^ (64 - bs)) (rev (seq 0 (length t)))
      = (t' ++ post, e' * 2 ^ (64 - bs)) /\
    length t' = length t /\ Forall is_word t' /\ 0 <= e' < 2 ^ bs /\
    value t' * 2 ^ bs + e' = value t + e * 2 ^ (64 * Z.of_nat (length t)).
Proof.
  revert post e. induction t as [|x t IH] using rev_ind; intros post e Ht He.
  - exists [], e. cbn [length seq rev foldl app value].
    repeat split; (done || lia || (simpl; lia)).
  - apply Forall_app in Ht as [Ht Hx]. inversion Hx as [|? ? Hx' _]; subst.
    rewrite length_app. cbn [length]. rewrite Nat.add_1_r.
    rewrite seq_snoc, rev_app_distr. cbn [rev app foldl]. unfold Engine.Shr_bits_step at 2.
    rewrite <- app_assoc. cbn [app].
    rewrite list_lookup_total_middle by done.
    rewrite (insert_app_r_alt t) by lia. rewrite Nat.sub_diag. cbn [insert list_insert].
    destruct (shr_word x e bs Hx' Hbs He) as (W1 & W2 & W3 & W4).
    rewrite W2.
    destruct (IH (Z.lor (shr64 x bs) (e * 2 ^ (64 - bs)) :: post) (x mod 2 ^ bs) Ht W3)
      as (t' & e' & E & Hl & Hw & He' & Hv).
    rewrite E.
    exists (t' ++ [Z.lor (shr64 x bs) (e * 2 ^ (64 - bs))]), e'.
    split; [|split; [|split; [|split]]].
    + by rewrite <- app_assoc.
    + rewrite length_app. cbn [length]. lia.
    + apply Forall_app. split; [done|]. by constructor.
    + done.
    + rewrite !value_snoc, Hl, pow64_S. nia.
Qed.

End ShiftLoops.

Section ShiftValues.

Variable N : nat.

Lemma shift_split (n : Z) :
  0 < n < 64 * Z.of_nat N ->
  let ws := Z.to_nat (n / 64) in
  (ws < N)%nat /\ 0 <= n mod 64 < 64 /\ n = 64 * Z.of_nat ws + n mod 64.
Proof.
  intros Hn ws. unfold ws.
  pose proof (Z.div_mod n 64 ltac:(lia)). pose proof (Z.mod_pos_bound n 64 ltac:(lia)).
  assert (0 <= n / 64) by (apply Z.div_pos; lia).
  assert (n / 64 < Z.of_nat N) by (apply Z.div_lt_upper_bound; lia).
  rewrite Z2Nat.id by lia. repeat split; lia.
Qed.

Lemma value_take (u : list Z) (k : nat) :
  Forall is_word u -> (k <= length u)%nat ->
  value u = value (take k u) + 2 ^ (64 * Z.of_nat k) * value (drop k u) /\
  0 <= value (take k u) < 2 ^ (64 * Z.of_nat k) /\
  0 <= value (drop k u).
Proof.
  intros Hu Hk. pose proof (value_take_drop u k) as E.
  pose proof (value_bounds (take k u) (Forall_take _ _ _ Hu)) as B1.
  pose proof (value_bounds (drop k u) (Forall_drop _ _ _ Hu)) as B2.
  rewrite length_take_le in E, B1 by lia. repeat split; lia.
Qed.

Lemma Shl_words_moved (u : list Z) (ws : nat) :
  length u = N -> (ws < N)%nat ->
  (if (0 <? ws)%nat then
     foldl (fun u i => <[i := 0]> u)
       (foldl (fun u i => <[i := u !!! (i - ws)%nat]> u) u (rev (seq ws (N - ws))))
       (seq 0 ws)
   else u) = replicate ws 0 ++ take (N - ws) u.
Proof.
  intros Hu Hws. destruct (Nat.ltb_spec 0 ws) as [Hpos|Hz].
  - rewrite move_up by lia.
    rewrite (foldl_insert_range (fun _ => 0))
      by (rewrite !length_app, !length_take, length_drop; lia).
    rewrite take_0, map_const_seq. cbn [app Nat.add].
    rewrite drop_app_length' by (rewrite length_take; lia).
    rewrite (drop_ge u) by lia. by rewrite app_nil_r.
  - assert (ws = 0)%nat as -> by lia. cbn [replicate app].
    rewrite Nat.sub_0_r. symmetry. apply take_ge. lia.
Qed.

Lemma Shr_words_moved (u : list Z) (ws : nat) :
  length u = N -> (ws < N)%nat ->
  (if (0 <? ws)%nat then
     foldl (fun u i => <[i := 0]> u)
       (foldl (fun u i => <[i := u !!! (i + ws)%nat]> u) u (seq 0 (N - ws)))
       (seq (N - ws) ws)
   else u) = drop ws u ++ replicate ws 0.
Proof.
  intros Hu Hws. destruct (Nat.ltb_spec 0 ws) as [Hpos|Hz].
  - rewrite move_down by lia.
    rewrite (take_ge (drop ws u)) by (rewrite length_drop; lia).
    set (r0 := drop ws u ++ drop (N - ws) u).
    assert (length r0 = N) as Hr0
      by (unfold r0; rewrite length_app, !length_drop; lia).
    rewrite (foldl_insert_range (fun _ => 0)) by lia.
    rewrite map_const_seq, (drop_ge r0) by lia.
    unfold r0. rewrite take_app_length' by (rewrite length_drop; lia).
    by rewrite app_nil_r.
  - assert (ws = 0)%nat as -> by lia. cbn [replicate]. by rewrite drop_0, app_nil_r.
Qed.

Lemma ShlInPlace_value (u : list Z) (n : Z) :
  wf N u -> 0 <= n ->
  wf N (Engine.ShlInPlace N u n) /\
  value (Engine.ShlInPlace N u n) = (value u * 2 ^ n) mod 2 ^ (64 * Z.of_nat N).
Proof.
  intros [Hl Hw] Hn. unfold Engine.ShlInPlace.
  pose proof (value_bounds u Hw) as Hb. rewrite Hl in Hb.
  destruct (Z.eqb_spec n 0) as [->|Hn0].
  { split; [done|]. rewrite Z.mul_1_r, Z.mod_small; lia. }
  destruct (Z.geb_spec n (64 * Z.of_nat N)) as [Hbig|Hlt].
  { rewrite clear_all_zero by done. split.
    - split; [apply length_replicate | apply Forall_is_word_zero].
    - rewrite value_replicate_0.
      replace n with ((n - 64 * Z.of_nat N) + 64 * Z.of_nat N) by lia.
      rewrite Z.pow_add_r, Z.mul_assoc, Z_mod_mult by lia. done. }
  destruct (shift_split n ltac:(lia)) as (Hws & Hbs & En).
  set (ws := Z.to_nat (n / 64)) in *. set (bs := n mod 64) in *.
  rewrite Shl_words_moved by done.
  set (t := take (N - ws) u).
  assert (length t = (N - ws)%nat) as Hlt' by (unfold t; rewrite length_take; lia).
  assert (Forall is_word t) as Hwt by (by apply Forall_take).
  destruct (value_take u (N - ws) Hw ltac:(lia)) as (Ev & Bt & Bd).
  fold t in Ev, Bt.
  assert (2 ^ (64 * Z.of_nat N)
          = 2 ^ (64 * Z.of_nat ws) * 2 ^ (64 * Z.of_nat (N - ws))) as EN.
  { rewrite <- pow64_add. do 2 f_equal. lia. }
  pose proof (pow64_pos ws) as PA. pose proof (pow64_pos (N - ws)) as PB.
  assert (2 ^ n = 2 ^ (64 * Z.of_nat ws) * 2 ^ bs) as E2n.
  { rewrite <- Z.pow_add_r by lia. f_equal. lia. }
  destruct (Z.gtb_spec bs 0) as [Hpos|Hz].
  - destruct (shl_bits_loop bs ltac:(lia) (replicate ws 0) t (N - ws) Hwt ltac:(lia))
      as (t' & c' & E & Hl' & Hw' & Hc' & Hv').
    rewrite length_replicate in E. rewrite E. cbn [fst].
    rewrite drop_ge, app_nil_r by lia. split.
    + split.
      * rewrite length_app, length_replicate. lia.
      * apply Forall_app. split; [apply Forall_is_word_zero|done].
    + rewrite value_app, value_replicate_0, length_replicate.
      rewrite take_ge in Hv' by lia.
      pose proof (value_bounds t' Hw') as Bt'. rewrite Hl' in Bt'.
      apply (Z.mod_unique _ _ (c' + value (drop (N - ws) u) * 2 ^ bs)).
      * left. rewrite EN. nia.
      * rewrite EN, E2n, Ev.
        set (A := 2 ^ (64 * Z.of_nat ws)) in *.
        set (B := 2 ^ (64 * Z.of_nat (N - ws))) in *.
        set (p := 2 ^ bs) in *.
        replace ((value t + B * value (drop (N - ws) u)) * (A * p))
          with (A * (value t * p) + A * B * (value (drop (N - ws) u) * p)) by ring.
        rewrite <- Hv'. ring.
  - assert (bs = 0) as Ebs by lia. split.
    + split.
      * rewrite length_app, length_replicate. lia.
      * apply Forall_app. split; [apply Forall_is_word_zero|done].
    + rewrite value_app, value_replicate_0, length_replicate.
      apply (Z.mod_unique _ _ (value (drop (N - ws) u))).
      * left. rewrite EN. nia.
      * rewrite EN, E2n, Ev, Ebs. ring.
Qed.

Lemma ShrInPlace_value (u : list Z) (n : Z) :
  wf N u -> 0 <= n ->
  wf N (Engine.ShrInPlace N u n) /\
  value (Engine.ShrInPlace N u n) = value u / 2 ^ n.
Proof.
  intros [Hl Hw] Hn. unfold Engine.ShrInPlace.
  pose proof (value_bounds u Hw) as Hb. rewrite Hl in Hb.
  destruct (Z.eqb_spec n 0) as [->|Hn0].
  { split; [done|]. by rewrite Z.div_1_r. }
  destruct (Z.geb_spec n (64 * Z.of_nat N)) as [Hbig|Hlt].
  { rewrite clear_all_zero by done. split.
    - split; [apply length_replicate | apply Forall_is_word_zero].
    - rewrite value_replicate_0. symmetry. apply Z.div_small. split; [lia|].
      apply Z.lt_le_trans with (2 ^ (64 * Z.of_nat N)); [lia|].
      apply Z.pow_le_mono_r; lia. }
  destruct (shift_split n ltac:(lia)) as (Hws & Hbs & En).
  set (ws := Z.to_nat (n / 64)) in *. set (bs := n mod 64) in *.
  rewrite Shr_words_moved by done.
  set (t := drop ws u).
  assert (length t = (N - ws)%nat) as Hlt' by (unfold t; rewrite length_drop; lia).
  assert (Forall is_word t) as Hwt by (by apply Forall_drop).
  destruct (value_take u ws Hw ltac:(lia)) as (Ev & Bt & Bd).
  fold t in Ev, Bd.
  pose proof (pow64_pos ws) as PA.
  assert (2 ^ n = 2 ^ (64 * Z.of_nat ws) * 2 ^ bs) as E2n.
  { rewrite <- Z.pow_add_r by lia. f_equal. lia. }
  assert (0 < 2 ^ bs) as Pp by (apply Z.pow_pos_nonneg; lia).
  destruct (Z.gtb_spec bs 0) as [Hpos|Hz].
  - destruct (shr_bits_loop bs ltac:(lia) t (replicate ws 0) 0 Hwt ltac:(lia))
      as (t' & e' & E & Hl' & Hw' & He' & Hv').
    rewrite Hlt', Z.mul_0_l in E. rewrite E. cbn [fst]. split.
    + split.
      * rewrite length_app, length_replicate. lia.
      * apply Forall_app. split; [done|apply Forall_is_word_zero].
    + rewrite value_app, value_replicate_0, Z.mul_0_r, Z.add_0_r.
      apply (Z.div_unique _ _ _ (value (take ws u) + 2 ^ (64 * Z.of_nat ws) * e')).
      * left. rewrite E2n. nia.
      * rewrite Ev, E2n. nia.
  - assert (bs = 0) as Ebs by lia. split.
    + split.
      * rewrite length_app, length_replicate. lia.
      * apply Forall_app. split; [done|apply Forall_is_word_zero].
    + rewrite value_app, value_replicate_0, Z.mul_0_r, Z.add_0_r.
      apply (Z.div_unique _ _ _ (value (take ws u))).
      * left. rewrite E2n, Ebs. lia.
      * rewrite Ev, E2n, Ebs. ring.
Qed.

End ShiftValues.

(** ** Bitwise AND *)

Lemma land_is_word (x y : Z) : is_word x -> is_word y -> is_word (Z.land x y).
Proof.
  unfold is_word. intros Hx Hy.
  assert (Z.land x y = Z.land x y mod 2 ^ 64) as E.
  { rewrite <- (Z.land_ones _ 64) by lia.
    rewrite (Z.land_comm x y), <- Z.land_assoc, (Z.land_ones x 64) by lia.
    rewrite Z.mod_small by lia. done. }
  rewrite E. apply Z.mod_pos_bound. lia.
Qed.

Lemma land_cons (x y a b : Z) :
  is_word x -> is_word y -> 0 <= a -> 0 <= b ->
  Z.land (x + 2 ^ 64 * a) (y + 2 ^ 64 * b) = Z.land x y + 2 ^ 64 * Z.land a b.
Proof.
  intros Hx Hy Ha Hb. pose proof (land_is_word x y Hx Hy) as Hxy.
  unfold is_word in *.
  rewrite <- (lor_disjoint_add x (2 ^ 64 * a) 64 a) by lia.
  rewrite <- (lor_disjoint_add y (2 ^ 64 * b) 64 b) by lia.
  rewrite <- (lor_disjoint_add (Z.land x y) (2 ^ 64 * Z.land a b) 64 (Z.land a b)) by lia.
  rewrite !(Z.mul_comm (2 ^ 64)), <- !Z.shiftl_mul_pow2 by lia.
  rewrite Z.land_lor_distr_l, !Z.land_lor_distr_r.
  rewrite (land_low_high x b 64), (Z.land_comm (Z.shiftl a 64) y),
    (land_low_high y a 64) by lia.
  rewrite Z.lor_0_r, Z.lor_0_l. by rewrite Z.shiftl_land.
Qed.

Lemma value_nonneg (ws : list Z) : Forall is_word ws -> 0 <= value ws.
Proof. intros H. pose proof (value_bounds ws H). lia. Qed.

Lemma value_map_land (u o : list Z) :
  length u = length o -> Forall is_word u -> Forall is_word o ->
  Forall is_word (map (fun i => Z.land (u !!! i) (o !!! i)) (seq 0 (length u))) /\
  value (map (fun i => Z.land (u !!! i) (o !!! i)) (seq 0 (length u)))
  = Z.land (value u) (value o).
Proof.
  revert o. induction u as [|x u IH]; intros [|y o] Hl Hu Ho; try discriminate.
  - by split.
  - inversion Hu as [|? ? Hx Hu']; inversion Ho as [|? ? Hy Ho']; subst.
    destruct (IH o ltac:(simpl in Hl; lia) Hu' Ho') as [IHw IHv].
    cbn [length seq map]. rewrite <- seq_shift, map_map.
    change (map (fun i => Z.land ((x :: u) !!! S i) ((y :: o) !!! S i)) (seq 0 (length u)))
      with (map (fun i => Z.land (u !!! i) (o !!! i)) (seq 0 (length u))).
    change ((x :: u) !!! 0%nat) with x. change ((y :: o) !!! 0%nat) with y.
    split.
    + constructor; [by apply land_is_word|done].
    + cbn [value]. rewrite IHv.
      symmetry. apply land_cons; auto using value_nonneg.
Qed.

Lemma And_value (N : nat) (u o : list Z) :
  wf N u -> wf N o ->
  wf N (Engine.And N u o) /\
  value (Engine.And N u o) = Z.land (value u) (value o).
Proof.
  intros [Hlu Hwu] [Hlo Hwo]. unfold Engine.And.
  rewrite foldl_insert_asc by (unfold Engine.zeroed; rewrite length_replicate; lia).
  unfold Engine.zeroed. rewrite drop_replicate, Nat.sub_diag, app_nil_r.
  destruct (value_map_land u o ltac:(lia) Hwu Hwo) as [Hw Hv].
  rewrite Hlu in Hw, Hv. split; [|done].
  split; [|done]. by rewrite length_map, length_seq.
Qed.

Lemma ONE_value (N : nat) : (0 < N)%nat -> wf N (Engine.ONE N) /\ value (Engine.ONE N) = 1.
Proof.
  intros HN. unfold Engine.ONE, Engine.zeroed. destruct N as [|n]; [lia|].
  cbn [replicate insert list_insert value]. rewrite value_replicate_0. split; [|lia].
  split.
  - cbn [length]. by rewrite length_replicate.
  - constructor; [unfold is_word; lia | apply Forall_is_word_zero].
Qed.

(** ** C8: shift laws *)

(** C8. Shifting left by zero changes nothing; shifting left or right by the
    bit width or more gives the zero value; and shifting left and back right
    by [k] below the width clears the top [k] bits, which is the bitwise AND
    with [(one << (width - k)) - 1]. *)
Theorem shift_laws (N : nat) (a : list Z) (n k : Z) :
  wf N a ->
  Engine.Shl N a 0 = a /\
  (64 * Z.of_nat N <= n ->
   Engine.Shl N a n = Engine.ZERO N /\ Engine.Shr N a n = Engine.ZERO N) /\
  (0 <= k < 64 * Z.of_nat N ->
   Engine.Shr N (Engine.Shl N a k) k
   = Engine.And N a
       (Engine.Sub N (Engine.Shl N (Engine.ONE N) (64 * Z.of_nat N - k)) (Engine.ONE N)) /\
   value (Engine.Shr N (Engine.Shl N a k) k) = value a mod 2 ^ (64 * Z.of_nat N - k)).
Proof.
  intros Ha. pose proof Ha as [Hl Hw].
  unfold Engine.Shl, Engine.Shr. rewrite !Clone_wf by done.
  split; [done|]. split.
  - intros Hn. unfold Engine.ShlInPlace, Engine.ShrInPlace.
    destruct (Z.eqb_spec n 0) as [->|_].
    + assert (N = 0%nat) as -> by lia. destruct a; [done|discriminate].
    + destruct (Z.geb_spec n (64 * Z.of_nat N)) as [_|?]; [|lia].
      by rewrite clear_all_zero.
  - intros Hk.
    assert (0 < N)%nat as HN by lia.
    destruct (ONE_value N HN) as [H1 V1].
    destruct (ShlInPlace_value N a k Ha ltac:(lia)) as [Hs Vs].
    rewrite (Clone_wf N (Engine.ShlInPlace N a k)) by apply Hs.
    destruct (ShrInPlace_value N _ k Hs ltac:(lia)) as [Hr Vr].
    rewrite (Clone_wf N (Engine.ONE N)) by apply H1.
    destruct (ShlInPlace_value N _ (64 * Z.of_nat N - k) H1 ltac:(lia)) as [Hm Vm].
    pose proof (Sub_wf N _ _ Hm H1) as Hd.
    pose proof (value_Sub N _ _ Hm H1) as Vd.
    destruct (And_value N a _ Ha Hd) as [Hand Vand].
    set (W := 64 * Z.of_nat N) in *.
    assert (2 ^ W = 2 ^ (W - k) * 2 ^ k) as EW.
    { rewrite <- Z.pow_add_r by lia. f_equal. lia. }
    assert (0 < 2 ^ k) by (apply Z.pow_pos_nonneg; lia).
    assert (0 < 2 ^ (W - k)) by (apply Z.pow_pos_nonneg; lia).
    assert (value (Engine.ShrInPlace N (Engine.ShlInPlace N a k) k)
            = value a mod 2 ^ (W - k)) as Vtop.
    { rewrite Vr, Vs, EW, Z.mul_mod_distr_r by lia. by rewrite Z.div_mul by lia. }
    split; [|exact Vtop].
    apply value_inj; [by rewrite (proj1 Hr), (proj1 Hand) | apply Hr | apply Hand |].
    rewrite Vtop, Vand, Vd, Vm, V1.
    assert (((1 * 2 ^ (W - k)) mod 2 ^ W - 1) mod 2 ^ W = Z.ones (W - k)) as ->.
    { rewrite Z.ones_equiv, Z.mul_1_l. destruct (Z.eq_dec k 0) as [->|Hk0].
      - rewrite Z.sub_0_r, Z.mod_same by lia.
        symmetry. apply (Z.mod_unique _ _ (-1)); [left|]; lia.
      - rewrite (Z.mod_small (2 ^ (W - k))) by (split; [lia|]; apply Z.pow_lt_mono_r; lia).
        apply Z.mod_small. split; [lia|].
        assert (2 ^ (W - k) < 2 ^ W) by (apply Z.pow_lt_mono_r; lia). lia. }
    by rewrite Z.land_ones by lia.
Qed.

Lemma shift_laws_witness :
  Engine.Shl 8 (Engine.MAX 8) 0 = Engine.MAX 8 /\
  (Engine.Shl 8 (Engine.MAX 8) 512 = Engine.ZERO 8 /\
   Engine.Shr 8 (Engine.MAX 8) 512 = Engine.ZERO 8) /\
  (Engine.Shr 8 (Engine.Shl 8 (Engine.MAX 8) 70) 70
   = Engine.And 8 (Engine.MAX 8)
       (Engine.Sub 8 (Engine.Shl 8 (Engine.ONE 8) (64 * Z.of_nat 8 - 70)) (Engine.ONE 8)) /\
   value (Engine.Shr 8 (Engine.Shl 8 (Engine.MAX 8) 70) 70)
   = value (Engine.MAX 8) mod 2 ^ (64 * Z.of_nat 8 - 70)).
Proof.
  destruct (shift_laws 8 (Engine.MAX 8) 512 70 ltac:(solve_wf)) as (H1 & H2 & H3).
  split; [exact H1|]. split; [apply H2; simpl; lia | apply H3; simpl; lia].
Defined.

(** ** Division by a small divisor *)

Lemma land_high_mask (lo hi : Z) :
  0 <= lo < 2 ^ 32 -> 0 <= hi < 2 ^ 32 ->
  Z.land (lo + hi * 2 ^ 32) 0xFFFFFFFF00000000 = hi * 2 ^ 32.
Proof.
  intros Hlo Hhi.
  rewrite <- (lor_disjoint_add lo (hi * 2 ^ 32) 32 hi) by lia.
  change 0xFFFFFFFF00000000 with (Z.shiftl (Z.ones 32) 32).
  rewrite <- Z.shiftl_mul_pow2 by lia.
  rewrite Z.land_lor_distr_l, land_low_high by lia.
  rewrite <- Z.shiftl_land, Z.land_ones, Z.mod_small by lia.
  apply Z.lor_0_l.
Qed.

Lemma land_low_mask (x : Z) : Z.land x 0xFFFFFFFF = x mod 2 ^ 32.
Proof. change 0xFFFFFFFF with (Z.ones 32). apply Z.land_ones. lia. Qed.

Lemma shl64_32_small (r : Z) : 0 <= r < 2 ^ 32 -> shl64 r 32 = r * 2 ^ 32.
Proof.
  intros Hr. unfold shl64, wrap64. rewrite Z.shiftl_mul_pow2 by lia.
  apply Z.mod_small. lia.
Qed.

Lemma half_quotient (r h d : Z) :
  0 < d <= 2 ^ 32 -> 0 <= r < d -> 0 <= h < 2 ^ 32 ->
  0 <= (r * 2 ^ 32 + h) / d < 2 ^ 32 /\
  0 <= (r * 2 ^ 32 + h) mod d < d /\
  (r * 2 ^ 32 + h) / d * d + (r * 2 ^ 32 + h) mod d = r * 2 ^ 32 + h.
Proof.
  intros Hd Hr Hh.
  pose proof (Z.div_mod (r * 2 ^ 32 + h) d ltac:(lia)).
  pose proof (Z.mod_pos_bound (r * 2 ^ 32 + h) d ltac:(lia)).
  repeat split; try lia.
  - apply Z.div_pos; lia.
  - apply Z.div_lt_upper_bound; nia.
Qed.

Lemma divBySmall_word (x r d : Z) :
  is_word x -> 0 < d <= 2 ^ 32 -> 0 <= r < d ->
  let dividend := Z.lor (shl64 r 32) (shr64 x 32) in
  let w1 := Z.lor (Z.land x 0xFFFFFFFF) (shl64 (dividend / d) 32) in
  let r1 := dividend mod d in
  let dividend2 := Z.lor (shl64 r1 32) (Z.land w1 0xFFFFFFFF) in
  let w2 := Z.lor (Z.land w1 0xFFFFFFFF00000000) (dividend2 / d) in
  let r2 := dividend2 mod d in
  is_word w2 /\ 0 <= r2 < d /\ w2 * d + r2 = r * 2 ^ 64 + x.
Proof.
  unfold is_word. intros Hx Hd Hr.
  pose proof (Z.div_mod x (2 ^ 32) ltac:(lia)) as Ex.
  pose proof (Z.mod_pos_bound x (2 ^ 32) ltac:(lia)) as Hlo.
  assert (0 <= x / 2 ^ 32 < 2 ^ 32) as Hhi.
  { split; [apply Z.div_pos; lia | apply Z.div_lt_upper_bound; lia]. }
  cbv zeta.
  unfold shr64. rewrite Z.shiftr_div_pow2 by lia.
  set (hi := x / 2 ^ 32) in *. set (lo := x mod 2 ^ 32) in *.
  rewrite (shl64_32_small r) by lia.
  rewrite (Z.lor_comm (r * 2 ^ 32)), (lor_disjoint_add hi (r * 2 ^ 32) 32 r) by lia.
  rewrite (Z.add_comm hi (r * 2 ^ 32)).
  destruct (half_quotient r hi d Hd Hr Hhi) as (Hq1 & Hr1 & E1).
  set (q1 := (r * 2 ^ 32 + hi) / d) in *. set (r1 := (r * 2 ^ 32 + hi) mod d) in *.
  rewrite land_low_mask. fold lo.
  rewrite (shl64_32_small q1) by lia.
  rewrite (lor_disjoint_add lo (q1 * 2 ^ 32) 32 q1) by lia.
  rewrite land_low_mask.
  assert ((lo + q1 * 2 ^ 32) mod 2 ^ 32 = lo) as ->.
  { rewrite Z_mod_plus_full. apply Z.mod_small. lia. }
  rewrite (shl64_32_small r1) by lia.
  rewrite (Z.lor_comm (r1 * 2 ^ 32)), (lor_disjoint_add lo (r1 * 2 ^ 32) 32 r1) by lia.
  rewrite (Z.add_comm lo (r1 * 2 ^ 32)).
  destruct (half_quotient r1 lo d Hd Hr1 Hlo) as (Hq2 & Hr2 & E2).
  set (q2 := (r1 * 2 ^ 32 + lo) / d) in *. set (r2 := (r1 * 2 ^ 32 + lo) mod d) in *.
  rewrite land_high_mask by lia.
  rewrite (Z.lor_comm (q1 * 2 ^ 32)), (lor_disjoint_add q2 (q1 * 2 ^ 32) 32 q1) by lia.
  repeat split; (lia || nia).
Qed.

Lemma divBySmall_loop (d : Z) (t post : list Z) (r : Z) :
  0 < d <= 2 ^ 32 -> Forall is_word t -> 0 <= r < d ->
  exists t' r',
    foldl (Engine.divBySmall_step d) (t ++ post, r) (rev (seq 0 (length t)))
      = (t' ++ post, r') /\
    length t' = length t /\ Forall is_word t' /\ 0 <= r' < d /\
    value t' * d + r' = r * 2 ^ (64 * Z.of_nat (length t)) + value t.
Proof.
  intros Hd. revert post r. induction t as [|x t IH] using rev_ind; intros post r Ht Hr.
  - exists [], r. cbn [length seq rev foldl app value].
    repeat split; (done || lia || (simpl; lia)).
  - apply Forall_app in Ht as [Ht Hx]. inversion Hx as [|? ? Hx' _]; subst.
    rewrite length_app. cbn [length]. rewrite Nat.add_1_r.
    rewrite seq_snoc, rev_app_distr. cbn [rev app foldl].
    unfold Engine.divBySmall_step at 2.
    rewrite <- app_assoc. cbn [app].
    rewrite list_lookup_total_middle by done.
    rewrite !list_lookup_total_insert_eq
      by (rewrite ?length_insert, length_app; cbn [length]; lia).
    rewrite list_insert_insert_eq.
    rewrite (insert_app_r_alt t) by lia. rewrite Nat.sub_diag. cbn [insert list_insert].
    destruct (divBySmall_word x r d Hx' Hd Hr) as (W1 & W2 & W3).
    cbv zeta in W1, W2, W3.
    match goal with
    | |- context [foldl _ (t ++ ?w :: post, ?r1) _] =>
        destruct (IH (w :: post) r1 Ht W2) as (t' & r' & E & Hl & Hw & Hr' & Hv);
        rewrite E; exists (t' ++ [w]), r'
    end.
    split; [|split; [|split; [|split]]].
    + by rewrite <- app_assoc.
    + rewrite length_app. cbn [length]. lia.
    + apply Forall_app. split; [done|]. by constructor.
    + done.
    + rewrite !value_snoc, Hl, pow64_S. nia.
Qed.

Lemma divBySmall_spec (N : nat) (u : list Z) (d : Z) :
  wf N u -> 0 < d <= 2 ^ 32 ->
  wf N (fst (Engine.divBySmall N u d)) /\
  value (fst (Engine.divBySmall N u d)) = value u / d /\
  snd (Engine.divBySmall N u d) = value u mod d.
Proof.
  intros [Hl Hw] Hd. unfold Engine.divBySmall.
  destruct (divBySmall_loop d u [] 0 Hd Hw ltac:(lia)) as (t' & r' & E & Hl' & Hw' & Hr' & Hv).
  rewrite !app_nil_r, Hl in E. rewrite E. cbn [fst snd].
  rewrite Z.mul_0_l, Z.add_0_l in Hv.
  split; [split; [lia|done]|]. split.
  - apply (Z.div_unique _ _ _ r'); [left|]; lia.
  - apply (Z.mod_unique _ _ (value t')); [left|]; lia.
Qed.

(** ** Decimal rendering *)

Lemma list_eq_total (a b : list Z) :
  length a = length b ->
  (forall i, (i < length a)%nat -> a !!! i = b !!! i) -> a = b.
Proof.
  intros Hl H. apply (list_eq_same_length _ _ (length a)); auto.
  intros i x y Hi Hx Hy.
  apply list_lookup_total_correct in Hx, Hy. subst x y. by apply H.
Qed.

Lemma rev_lookup_total (d : list Z) (i : nat) :
  (i < length d)%nat -> rev d !!! i = d !!! (length d - 1 - i)%nat.
Proof.
  intros Hi. rewrite !list_lookup_total_alt, <- !nth_lookup.
  rewrite rev_nth by lia. f_equal. lia.
Qed.

Lemma swap_loop (d : list Z) (m : nat) :
  (2 * m <= length d)%nat ->
  let d' := foldl (fun d i =>
                     let j := (length d - 1 - i)%nat in
                     <[j := d !!! i]> (<[i := d !!! j]> d)) d (seq 0 m) in
  length d' = length d /\
  forall i, (i < length d)%nat ->
    d' !!! i = if decide (i < m \/ length d - m <= i)%nat
               then d !!! (length d - 1 - i)%nat else d !!! i.
Proof.
  induction m as [|m IH]; intros Hm; cbv zeta.
  - cbn [seq foldl]. split; [done|]. intros i Hi.
    destruct (decide _) as [[?|?]|?]; (lia || done).
  - rewrite seq_snoc, foldl_snoc.
    destruct IH as [Hl Hp]; [lia|].
    set (d' := foldl _ d (seq 0 m)) in *. cbv zeta. rewrite Hl.
    split; [by rewrite !length_insert|].
    intros i Hi.
    rewrite (Hp m) by lia. rewrite (Hp (length d - 1 - m)%nat) by lia.
    destruct (decide (m < m \/ length d - m <= m)%nat) as [?|_]; [lia|].
    destruct (decide (length d - 1 - m < m \/ length d - m <= length d - 1 - m)%nat)
      as [?|_]; [lia|].
    destruct (decide (i = length d - 1 - m)%nat) as [->|Hne1].
    { rewrite list_lookup_total_insert_eq by (rewrite length_insert; lia).
      destruct (decide _) as [_|?]; [|lia]. f_equal. lia. }
    rewrite list_lookup_total_insert_ne by lia.
    destruct (decide (i = m)) as [->|Hne2].
    { rewrite list_lookup_total_insert_eq by lia.
      destruct (decide _) as [_|?]; [|lia]. done. }
    rewrite list_lookup_total_insert_ne by lia.
    rewrite Hp by lia.
    destruct (decide (i < m \/ length d - m <= i)%nat),
             (decide (i < S m \/ length d - S m <= i)%nat); try lia; done.
Qed.

Lemma reverse_in_place_rev (d : list Z) : reverse_in_place d = rev d.
Proof.
  unfold reverse_in_place.
  assert (2 * (length d / 2) <= length d)%nat as Hm.
  { pose proof (Nat.div_mod_eq (length d) 2). lia. }
  destruct (swap_loop d (length d / 2) Hm) as [Hl Hp]. cbv zeta in Hl, Hp.
  apply list_eq_total; [by rewrite Hl, length_rev|].
  rewrite Hl. intros i Hi. rewrite Hp, rev_lookup_total by lia.
  destruct (decide _) as [_|Hmid]; [done|].
  f_equal. pose proof (Nat.div_mod_eq (length d) 2).
  pose proof (Nat.mod_upper_bound (length d) 2). lia.
Qed.

Lemma value_zero_iff (N : nat) (u : list Z) :
  wf N u -> (u = Engine.ZERO N <-> value u = 0).
Proof.
  intros [Hl Hw]. split.
  - intros ->. apply value_replicate_0.
  - intros Hv. apply value_inj; auto.
    + unfold Engine.ZERO, Engine.zeroed. by rewrite length_replicate.
    + apply Forall_is_word_zero.
    + unfold Engine.ZERO, Engine.zeroed. by rewrite Hv, value_replicate_0.
Qed.

Lemma IsZero_value (N : nat) (u : list Z) :
  wf N u -> Engine.IsZero N u = (value u =? 0).
Proof.
  intros Hu. pose proof (IsZero_spec N u (proj1 Hu)) as H1.
  pose proof (value_zero_iff N u Hu) as H2.
  destruct (Engine.IsZero N u), (Z.eqb_spec (value u) 0); try done.
  - exfalso. apply n, H2, H1. done.
  - apply H2, H1 in e. discriminate.
Qed.

Lemma String_loop_spec (N : nat) (fuel : nat) (temp digits : list Z) :
  wf N temp -> value temp < 10 ^ Z.of_nat fuel ->
  exists ds,
    Engine.String_loop N fuel temp digits = Some (digits ++ ds) /\
    Forall (fun b => 48 <= b <= 57) ds /\
    foldr (fun b acc => (b - 48) + 10 * acc) 0 ds = value temp /\
    (value temp = 0 -> ds = []) /\
    (value temp <> 0 -> exists ds' b, ds = ds' ++ [b] /\ b <> 48).
Proof.
  revert temp digits. induction fuel as [|fuel IH]; intros temp digits Ht Hv.
  - pose proof (value_nonneg temp (proj2 Ht)).
    assert (value temp = 0) as E0 by (simpl in Hv; lia).
    exists []. cbn [Engine.String_loop]. rewrite IsZero_value, E0 by done.
    rewrite app_nil_r. repeat split; (done || constructor).
  - cbn [Engine.String_loop]. rewrite IsZero_value by done.
    destruct (Z.eqb_spec (value temp) 0) as [E0|Hne].
    + exists []. rewrite app_nil_r, E0. repeat split; (done || constructor).
    + destruct (divBySmall_spec N temp 10 Ht ltac:(lia)) as (Hq & Vq & Vr).
      destruct (Engine.divBySmall N temp 10) as [q r]. cbn [fst snd] in Hq, Vq, Vr.
      pose proof (value_nonneg temp (proj2 Ht)) as Hnn.
      pose proof (Z.div_mod (value temp) 10 ltac:(lia)) as Edm.
      pose proof (Z.mod_pos_bound (value temp) 10 ltac:(lia)) as Hr.
      assert (value q < 10 ^ Z.of_nat fuel) as Hlt.
      { rewrite Vq. apply Z.div_lt_upper_bound; [lia|].
        rewrite Nat2Z.inj_succ, Z.pow_succ_r in Hv by lia. lia. }
      destruct (IH q (digits ++ [wrap8 (48 + r)]) Hq Hlt)
        as (ds & E & Hd & Hf & Hnil & Hlast).
      assert (wrap8 (48 + r) = 48 + r) as Ew.
      { unfold wrap8. apply Z.mod_small. lia. }
      exists ((48 + r) :: ds). split; [|split; [|split; [|split]]].
      * rewrite E, Ew, <- app_assoc. done.
      * constructor; [lia|done].
      * cbn [foldr]. rewrite Hf. lia.
      * done.
      * intros _. destruct (Z.eq_dec (value q) 0) as [Eq0|Hq0].
        -- exists [], (48 + r). rewrite (Hnil Eq0). split; [done|lia].
        -- destruct (Hlast Hq0) as (ds' & b & -> & Hb).
           exists ((48 + r) :: ds'), b. done.
Qed.

Lemma digit_value_byte (b : Z) :
  0 <= b < 256 -> digit_value (ascii_of_N (Z.to_N b)) = b - 48.
Proof.
  intros Hb. unfold digit_value. rewrite N_ascii_embedding by lia.
  rewrite Z2N.id by lia. done.
Qed.

Lemma decimal_value_bytes (bs : list Z) :
  Forall (fun b => 48 <= b <= 57) bs ->
  decimal_value (string_of_bytes bs) = foldl (fun acc b => 10 * acc + (b - 48)) 0 bs /\
  Forall is_digit (list_ascii_of_string (string_of_bytes bs)).
Proof.
  intros Hb. unfold decimal_value, string_of_bytes.
  rewrite list_ascii_of_string_of_list_ascii. split.
  - generalize 0. induction Hb as [|b bs Hb _ IH]; intros acc; [done|].
    cbn [map foldl]. rewrite digit_value_byte by lia. apply IH.
  - induction Hb as [|b bs Hb _ IH]; [constructor|].
    cbn [map]. constructor; [|done]. unfold is_digit. rewrite digit_value_byte; lia.
Qed.

Lemma foldl_rev_digits (ds : list Z) :
  foldl (fun acc b => 10 * acc + (b - 48)) 0 (rev ds)
  = foldr (fun b acc => (b - 48) + 10 * acc) 0 ds.
Proof.
  induction ds as [|b ds IH]; [done|].
  cbn [rev foldr]. rewrite foldl_snoc, IH. lia.
Qed.

Lemma String_loop_mono (N : nat) (fuel fuel' : nat) (temp digits r : list Z) :
  (fuel <= fuel')%nat ->
  Engine.String_loop N fuel temp digits = Some r ->
  Engine.String_loop N fuel' temp digits = Some r.
Proof.
  revert fuel' temp digits. induction fuel as [|fuel IH]; intros fuel' temp digits Hle H.
  - cbn [Engine.String_loop] in H. destruct (Engine.IsZero N temp) eqn:E; [|discriminate].
    destruct fuel'; cbn [Engine.String_loop]; by rewrite E.
  - destruct fuel' as [|fuel']; [lia|]. cbn [Engine.String_loop] in *.
    destruct (Engine.IsZero N temp); [done|].
    destruct (Engine.divBySmall N temp 10) as [q rem]. apply IH; [lia|done].
Qed.

(** C6. [String] renders zero as "0" and any other value as its decimal
    numeral: digits only, no leading zero, spelling the value.  The loop of
    [String] ends within 64N rounds, with the same result however many more
    are allowed.  In particular 2^64-1 renders as "18446744073709551615". *)
Theorem String_is_decimal (N : nat) (a : list Z) :
  wf N a ->
  (exists s,
     (forall fuel, (64 * N <= fuel)%nat -> Engine.String_fuel N fuel a = Some s) /\
     (value a = 0 -> s = "0"%string) /\
     (value a <> 0 ->
      Forall is_digit (list_ascii_of_string s) /\
      (exists c rest, s = String c rest /\ c <> "0"%char) /\
      decimal_value s = value a)) /\
  Engine.String_fuel Uint512.N 512 (Engine.New Uint512.N (2 ^ 64 - 1))
    = Some "18446744073709551615"%string.
Proof.
  intros Ha. split; [|by vm_compute].
  unfold Engine.String_fuel. rewrite IsZero_value by done.
  destruct (Z.eqb_spec (value a) 0) as [E0|Hne].
  - exists "0"%string. repeat split; try done.
  - rewrite Clone_wf by apply Ha.
    assert (value a < 10 ^ Z.of_nat (64 * N)) as Hlt.
    { pose proof (value_bounds a (proj2 Ha)) as Hb. rewrite (proj1 Ha) in Hb.
      apply Z.lt_le_trans with (2 ^ (64 * Z.of_nat N)); [lia|].
      replace (Z.of_nat (64 * N)) with (64 * Z.of_nat N) by lia.
      apply Z.pow_le_mono_l. lia. }
    destruct (String_loop_spec N (64 * N) a [] Ha Hlt) as (ds & E & Hd & Hf & _ & Hlast).
    cbn [app] in E.
    exists (string_of_bytes (rev ds)). split; [|split; [done|]].
    + intros fuel Hfuel. rewrite (String_loop_mono N _ fuel _ _ _ Hfuel E).
      by rewrite reverse_in_place_rev.
    + intros _.
      assert (Forall (fun b => 48 <= b <= 57) (rev ds)) as Hd'.
      { apply Forall_forall. intros b Hb. apply list_elem_of_In, in_rev in Hb.
        rewrite Forall_forall in Hd. apply Hd. by apply list_elem_of_In. }
      destruct (decimal_value_bytes (rev ds) Hd') as [Ev Edig].
      split; [done|]. split.
      * destruct (Hlast Hne) as (ds' & b & -> & Hb).
        rewrite rev_app_distr. cbn [rev app].
        eexists _, _. split; [reflexivity|].
        intros Hc. apply (f_equal N_of_ascii) in Hc.
        rewrite Forall_app in Hd. destruct Hd as [_ Hd].
        inversion Hd as [|? ? Hb' _]; subst.
        rewrite N_ascii_embedding in Hc by lia.
        change (N_of_ascii "0") with 48%N in Hc. lia.
      * by rewrite Ev, foldl_rev_digits.
Qed.

Lemma String_is_decimal_witness :
  exists s,
    (forall fuel, (64 * 8 <= fuel)%nat ->
       Engine.String_fuel 8 fuel (Engine.New 8 300) = Some s) /\
    (value (Engine.New 8 300) = 0 -> s = "0"%string) /\
    (value (Engine.New 8 300) <> 0 ->
     Forall is_digit (list_ascii_of_string s) /\
     (exists c rest, s = String c rest /\ c <> "0"%char) /\
     decimal_value s = value (Engine.New 8 300)).
Proof. apply (String_is_decimal 8 (Engine.New 8 300)). solve_wf. Defined.

(** ** Multiplication *)

Lemma Add64_is_word (x y c : Z) : is_word (fst (Add64 x y c)).
Proof. unfold Add64, is_word. cbn [fst]. apply Z.mod_pos_bound. lia. Qed.

Section MulShape.

Variables (N R : nat) (u other : list Z).

Lemma Mul_inner_wf (i : nat) (js : list nat) (st : list Z * Z) :
  wf R (fst st) -> wf R (fst (Engine.Mul_inner R u other i js st)).
Proof.
  revert st. induction js as [|j js IH]; intros [result carry] Hst; [done|].
  cbn [Engine.Mul_inner].
  destruct (negb (i + j <? R)%nat); [done|].
  destruct (other !!! j =? 0); [by apply IH|].
  destruct (Mul64 (u !!! i) (other !!! j)) as [hi lo].
  pose proof (Add64_is_word (result !!! (i + j)%nat) lo carry) as W1.
  destruct (Add64 (result !!! (i + j)%nat) lo carry) as [sum c1]. cbn [fst] in *.
  destruct (i + j + 1 <? R)%nat.
  - pose proof (Add64_is_word (<[(i + j)%nat := sum]> result !!! (i + j + 1)%nat) hi c1) as W2.
    destruct (Add64 _ hi c1) as [sum2 c2]. cbn [fst] in *.
    apply IH. cbn [fst]. by repeat apply wf_insert.
  - apply IH. cbn [fst]. by apply wf_insert.
Qed.

Lemma Mul_carry_wf (ks : list nat) (st : list Z * Z) :
  wf R (fst st) -> wf R (fst (Engine.Mul_carry ks st)).
Proof.
  revert st. induction ks as [|k ks IH]; intros [result carry] Hst; [done|].
  cbn [Engine.Mul_carry]. destruct (carry =? 0); [done|].
  pose proof (Add64_is_word (result !!! k) carry 0) as W.
  destruct (Add64 (result !!! k) carry 0) as [sum c]. cbn [fst] in *.
  apply IH. cbn [fst]. by apply wf_insert.
Qed.

Lemma Mul_row_wf (result : list Z) (i : nat) :
  wf R result -> wf R (Engine.Mul_row N R u other result i).
Proof.
  intros Hr. unfold Engine.Mul_row. destruct (u !!! i =? 0); [done|].
  pose proof (Mul_inner_wf i (seq 0 N) (result, 0) Hr) as H.
  destruct (Engine.Mul_inner R u other i (seq 0 N) (result, 0)) as [r c].
  by apply Mul_carry_wf.
Qed.

Lemma Mul_wf : wf R (Engine.Mul N R u other).
Proof.
  unfold Engine.Mul.
  assert (wf R (replicate R 0)) as H0.
  { split; [apply length_replicate | apply Forall_is_word_zero]. }
  revert H0. generalize (replicate R 0). generalize (seq 0 N).
  intros l. induction l as [|i l IH]; intros r Hr; [done|].
  cbn [foldl]. by apply IH, Mul_row_wf.
Qed.

Lemma Mul_inner_app (i : nat) (js ks : list nat) (st : list Z * Z) :
  (forall j, In j js -> (i + j < R)%nat) ->
  Engine.Mul_inner R u other i (js ++ ks) st
  = Engine.Mul_inner R u other i ks (Engine.Mul_inner R u other i js st).
Proof.
  revert st. induction js as [|j js IH]; intros [result carry] Hjs; [done|].
  cbn [app Engine.Mul_inner].
  destruct (Nat.ltb_spec (i + j) R) as [_|Hge].
  2:{ exfalso. specialize (Hjs j ltac:(by left)). lia. }
  cbn [negb].
  assert (forall j', In j' js -> (i + j' < R)%nat) as Hjs' by (intros; apply Hjs; by right).
  destruct (other !!! j =? 0); [by apply IH|].
  destruct (Mul64 _ _) as [hi lo]. destruct (Add64 _ lo carry) as [sum c1].
  destruct (i + j + 1 <? R)%nat.
  - destruct (Add64 _ hi c1) as [sum2 c2]. by apply IH.
  - by apply IH.
Qed.

End MulShape.

Lemma value_insert (ws : list Z) (i : nat) (x : Z) :
  (i < length ws)%nat ->
  value (<[i := x]> ws) = value ws + 2 ^ (64 * Z.of_nat i) * (x - ws !!! i).
Proof.
  intros Hi. rewrite (split_at ws i Hi) at 2.
  rewrite insert_take_drop by lia.
  rewrite !value_app, length_take_le by lia. cbn [value]. ring.
Qed.

Lemma Mul64_spec (x y : Z) :
  is_word x -> is_word y ->
  let '(hi, lo) := Mul64 x y in
  is_word lo /\ 0 <= hi <= 2 ^ 64 - 2 /\ lo + 2 ^ 64 * hi = x * y.
Proof.
  unfold is_word, Mul64. intros Hx Hy.
  pose proof (Z.div_mod (x * y) (2 ^ 64) ltac:(lia)).
  pose proof (Z.mod_pos_bound (x * y) (2 ^ 64) ltac:(lia)).
  assert (0 <= x * y <= (2 ^ 64 - 1) * (2 ^ 64 - 1)) by nia.
  assert (0 <= x * y / 2 ^ 64) by (apply Z.div_pos; lia).
  assert (x * y / 2 ^ 64 < 2 ^ 64 - 1) by (apply Z.div_lt_upper_bound; lia).
  repeat split; lia.
Qed.

(** The first row of the schoolbook product: no carry is pending between
    rounds, and words above the round index are still zero. *)
Lemma Mul_row0_inv (R : nat) (u other : list Z) (m : nat) :
  is_word (u !!! 0%nat) -> Forall is_word other ->
  (m <= length other)%nat -> (m <= R)%nat ->
  exists result carry,
    Engine.Mul_inner R u other 0 (seq 0 m) (replicate R 0, 0) = (result, carry) /\
    wf R result /\
    ((m < R)%nat ->
     carry = 0 /\ value result = u !!! 0%nat * value (take m other) /\
     drop (S m) result = replicate (R - S m) 0) /\
    (m = R ->
     value result = (u !!! 0%nat * value (take m other)) mod 2 ^ (64 * Z.of_nat R)).
Proof.
  intros Hx Ho. induction m as [|m IH]; intros Hm HmR.
  - exists (replicate R 0), 0. cbn [seq Engine.Mul_inner].
    split; [done|]. split; [split; [apply length_replicate|apply Forall_is_word_zero]|].
    rewrite take_0, value_replicate_0. cbn [value]. split.
    + intros _. split; [done|]. split; [lia|]. rewrite drop_replicate. done.
    + intros <-. rewrite Z.mul_0_r. done.
  - destruct IH as (result & carry & E & Hwf & Hlt & _); [lia|lia|].
    destruct Hlt as (-> & Hv & Hz); [lia|].
    rewrite seq_snoc, Mul_inner_app, E
      by (intros j Hj; apply in_seq in Hj; lia).
    cbn [Engine.Mul_inner]. cbn [Nat.add].
    destruct (Nat.ltb_spec m R) as [_|?]; [|lia]. cbn [negb].
    destruct Hwf as [Hl Hw].
    pose proof (value_take other m Ho ltac:(lia)) as (_ & Bt & _).
    pose proof (is_word_lookup other m Ho) as Hy.
    assert (value (take (S m) other)
            = value (take m other) + 2 ^ (64 * Z.of_nat m) * other !!! m) as Et.
    { rewrite take_S_total, value_snoc, length_take_le by lia. done. }
    pose proof (pow64_pos m) as Pm.
    assert (2 ^ (64 * Z.of_nat m) * 2 ^ 64 <= 2 ^ (64 * Z.of_nat R)) as PR.
    { rewrite <- Z.pow_add_r by lia. apply Z.pow_le_mono_r; lia. }
    destruct (Z.eqb_spec (other !!! m) 0) as [E0|Hne].
    { exists result, 0. split; [done|]. split; [done|].
      rewrite Et, E0, Z.mul_0_r, Z.add_0_r. split.
      - intros HS. split; [done|]. split; [done|].
        replace (S (S m)) with (S m + 1)%nat by lia.
        rewrite <- (drop_drop _ 1 (S m)), Hz, drop_replicate. f_equal. lia.
      - intros HS. rewrite <- Hv. symmetry. apply Z.mod_small.
        pose proof (value_bounds result Hw). rewrite Hl in *. lia. }
    pose proof (Mul64_spec (u !!! 0%nat) (other !!! m) Hx Hy) as HM.
    destruct (Mul64 (u !!! 0%nat) (other !!! m)) as [hi lo].
    destruct HM as (Hlo & Hhi & Ep).
    pose proof (Add64_spec (result !!! m) lo 0 (is_word_lookup _ _ Hw) Hlo ltac:(lia)) as HA.
    destruct (Add64 (result !!! m) lo 0) as [sum c1].
    destruct HA as (Hs & Hc1 & Es).
    destruct (Nat.ltb_spec (m + 1) R) as [HS|HS].
    + assert (<[m := sum]> result !!! (m + 1)%nat = 0) as Ez.
      { rewrite list_lookup_total_insert_ne by lia.
        replace (m + 1)%nat with (S m + 0)%nat by lia.
        rewrite <- lookup_total_drop, Hz. apply lookup_total_replicate_2. lia. }
      rewrite Ez.
      pose proof (Add64_spec 0 hi c1 ltac:(unfold is_word; lia)
                    ltac:(unfold is_word; lia) Hc1) as HB.
      destruct (Add64 0 hi c1) as [sum2 c2].
      destruct HB as (Hs2 & Hc2 & Es2).
      assert (c2 = 0) as -> by (unfold is_word in *; lia).
      exists (<[(m + 1)%nat := sum2]> (<[m := sum]> result)), 0.
      split; [done|]. split; [by repeat apply wf_insert|]. split; [|lia].
      intros _. split; [done|]. split.
      * rewrite value_insert by (rewrite length_insert; lia).
        rewrite value_insert by lia. rewrite Ez, Hv, Et.
        replace (Z.of_nat (m + 1)) with (Z.of_nat (S m)) by lia.
        rewrite pow64_S. nia.
      * rewrite !drop_insert_lt by lia.
        replace (S (S m)) with (S m + 1)%nat by lia.
        rewrite <- (drop_drop _ 1 (S m)), Hz, drop_replicate. f_equal. lia.
    + exists (<[m := sum]> result), c1.
      split; [done|]. split; [by apply wf_insert|]. split; [lia|].
      intros HR.
      assert (wf R (<[m := sum]> result)) as [Hl' Hw'] by (by apply wf_insert).
      pose proof (value_bounds _ Hw') as Bv. rewrite Hl' in Bv.
      apply (Z.mod_unique _ _ (hi + c1)); [left; lia|].
      rewrite value_insert, Hv, Et by lia.
      replace (2 ^ (64 * Z.of_nat R)) with (2 ^ 64 * 2 ^ (64 * Z.of_nat m)).
      * nia.
      * rewrite <- pow64_S. do 2 f_equal. lia.
Qed.

Lemma Mul_carry_idle (ks : list nat) (result : list Z) (carry : Z) :
  ks = [] \/ carry = 0 -> Engine.Mul_carry ks (result, carry) = (result, carry).
Proof.
  intros [->| ->]; [done|]. destruct ks; done.
Qed.

Lemma foldl_Mul_row_zero (N R : nat) (u other : list Z) (idx : list nat) (result : list Z) :
  (forall i, In i idx -> u !!! i = 0) ->
  foldl (Engine.Mul_row N R u other) result idx = result.
Proof.
  revert result. induction idx as [|i idx IH]; intros result H; [done|].
  cbn [foldl]. unfold Engine.Mul_row at 2. rewrite (H i) by (by left).
  cbn [Z.eqb]. apply IH. intros j Hj. apply H. by right.
Qed.

(** The product when the left operand fits in one word. *)
Lemma Mul_single_word (N R : nat) (x : Z) (b : list Z) :
  (0 < N <= R)%nat -> is_word x -> wf N b ->
  value (Engine.Mul N R (Engine.New N x) b) = (x * value b) mod 2 ^ (64 * Z.of_nat R).
Proof.
  intros HN Hx [Hl Hw]. unfold Engine.Mul.
  destruct N as [|n]; [lia|]. cbn [seq foldl].
  assert (Engine.New (S n) x !!! 0%nat = x) as E0 by done.
  assert (forall i, In i (seq 1 n) -> Engine.New (S n) x !!! i = 0) as Ez.
  { intros i Hi. apply in_seq in Hi. unfold Engine.New, Engine.zeroed.
    rewrite list_lookup_total_insert_ne by lia. apply lookup_total_replicate_2. lia. }
  rewrite foldl_Mul_row_zero by done.
  unfold Engine.Mul_row. rewrite E0.
  pose proof (value_bounds b Hw) as Bb. rewrite Hl in Bb.
  destruct (Z.eqb_spec x 0) as [->|Hx0].
  { rewrite value_replicate_0. by rewrite Z.mul_0_l, Z.mod_0_l
      by (apply Z.pow_nonzero; lia). }
  destruct (Mul_row0_inv R (Engine.New (S n) x) b (S n)
              ltac:(by rewrite E0) Hw ltac:(lia) ltac:(lia))
    as (result & carry & E & [Hlr Hwr] & Hlt & Heq).
  rewrite E0 in Hlt, Heq. rewrite take_ge in Hlt, Heq by lia.
  rewrite E. destruct (decide (S n < R)%nat) as [HR|HR].
  - destruct (Hlt HR) as (-> & Hv & _).
    rewrite Mul_carry_idle by (by right). cbn [fst]. rewrite Hv.
    symmetry. apply Z.mod_small. split; [unfold is_word in Hx; nia|].
    apply Z.lt_le_trans with (2 ^ 64 * 2 ^ (64 * Z.of_nat (S n))).
    + unfold is_word in Hx. nia.
    + rewrite <- pow64_S. apply Z.pow_le_mono_r; lia.
  - assert (S n = R) as HR' by lia.
    rewrite Mul_carry_idle.
    + cbn [fst]. by apply Heq.
    + left. replace (R - (0 + S n))%nat with 0%nat by lia. done.
Qed.

Lemma Mul_inner_skip (R : nat) (u other : list Z) (i : nat) (js : list nat)
    (st : list Z * Z) :
  (forall j, In j js -> other !!! j = 0) ->
  Engine.Mul_inner R u other i js st = st.
Proof.
  induction js as [|j js IH]; intros H; [done|].
  cbn [Engine.Mul_inner]. destruct (negb (i + j <? R)%nat); [done|].
  rewrite (H j) by (by left). cbn [Z.eqb]. apply IH.
  intros j' Hj'. apply H. by right.
Qed.

(** A row of the schoolbook product against a one-word right operand. *)
Lemma Mul_inner_col0 (R : nat) (u other : list Z) (i n : nat) (result : list Z) :
  is_word (u !!! i) -> is_word (other !!! 0%nat) ->
  (forall j, In j (seq 1 n) -> other !!! j = 0) ->
  (i < R)%nat -> wf R result -> drop (S i) result = replicate (R - S i) 0 ->
  exists result' carry',
    Engine.Mul_inner R u other i (seq 0 (S n)) (result, 0) = (result', carry') /\
    wf R result' /\
    ((S i < R)%nat ->
     carry' = 0 /\
     value result' = value result + 2 ^ (64 * Z.of_nat i) * (u !!! i * other !!! 0%nat) /\
     drop (S (S i)) result' = replicate (R - S (S i)) 0) /\
    (S i = R ->
     value result'
     = (value result + 2 ^ (64 * Z.of_nat i) * (u !!! i * other !!! 0%nat))
         mod 2 ^ (64 * Z.of_nat R)).
Proof.
  intros Hx Hy Hz Hi [Hl Hw] Hd.
  cbn [seq Engine.Mul_inner]. rewrite Nat.add_0_r.
  destruct (Nat.ltb_spec i R) as [_|?]; [|lia]. cbn [negb].
  pose proof (value_bounds result Hw) as Bv. rewrite Hl in Bv.
  assert (drop (S (S i)) result = replicate (R - S (S i)) 0) as Hd'.
  { replace (S (S i)) with (S i + 1)%nat by lia.
    rewrite <- (drop_drop _ 1 (S i)), Hd, drop_replicate. f_equal. lia. }
  destruct (Z.eqb_spec (other !!! 0%nat) 0) as [E0|Hne].
  { rewrite Mul_inner_skip by done. exists result, 0.
    split; [done|]. split; [done|]. rewrite E0, Z.mul_0_r, Z.mul_0_r, Z.add_0_r.
    split; [done|]. intros _. symmetry. apply Z.mod_small. lia. }
  pose proof (Mul64_spec (u !!! i) (other !!! 0%nat) Hx Hy) as HM.
  destruct (Mul64 (u !!! i) (other !!! 0%nat)) as [hi lo].
  destruct HM as (Hlo & Hhi & Ep).
  pose proof (Add64_spec (result !!! i) lo 0 (is_word_lookup _ _ Hw) Hlo ltac:(lia)) as HA.
  destruct (Add64 (result !!! i) lo 0) as [sum c1].
  destruct HA as (Hs & Hc1 & Es).
  pose proof (pow64_pos i) as Pi.
  destruct (Nat.ltb_spec (i + 1) R) as [HS|HS].
  - assert (<[i := sum]> result !!! (i + 1)%nat = 0) as Ez.
    { rewrite list_lookup_total_insert_ne by lia.
      replace (i + 1)%nat with (S i + 0)%nat by lia.
      rewrite <- lookup_total_drop, Hd. apply lookup_total_replicate_2. lia. }
    rewrite Ez.
    pose proof (Add64_spec 0 hi c1 ltac:(unfold is_word; lia)
                  ltac:(unfold is_word; lia) Hc1) as HB.
    destruct (Add64 0 hi c1) as [sum2 c2].
    destruct HB as (Hs2 & Hc2 & Es2).
    assert (c2 = 0) as -> by (unfold is_word in *; lia).
    rewrite Mul_inner_skip by done.
    exists (<[(i + 1)%nat := sum2]> (<[i := sum]> result)), 0.
    split; [done|]. split; [by repeat apply wf_insert|]. split; [|lia].
    intros _. split; [done|]. split.
    + rewrite value_insert by (rewrite length_insert; lia).
      rewrite value_insert by lia. rewrite Ez.
      replace (Z.of_nat (i + 1)) with (Z.of_nat (S i)) by lia.
      rewrite pow64_S. nia.
    + by rewrite !drop_insert_lt by lia.
  - rewrite Mul_inner_skip by done.
    exists (<[i := sum]> result), c1.
    split; [done|]. split; [by apply wf_insert|]. split; [lia|].
    intros HR.
    assert (wf R (<[i := sum]> result)) as [Hl' Hw'] by (by apply wf_insert).
    pose proof (value_bounds _ Hw') as Bv'. rewrite Hl' in Bv'.
    apply (Z.mod_unique _ _ (hi + c1)); [left; lia|].
    rewrite value_insert by lia.
    replace (2 ^ (64 * Z.of_nat R)) with (2 ^ 64 * 2 ^ (64 * Z.of_nat i)).
    + nia.
    + rewrite <- pow64_S. do 2 f_equal. lia.
Qed.

Lemma Mul_col0_rows (N R : nat) (a b : list Z) (m : nat) :
  wf N a -> is_word (b !!! 0%nat) ->
  (forall j, In j (seq 1 (N - 1)) -> b !!! j = 0) ->
  (0 < N <= R)%nat -> (m <= N)%nat ->
  let result := foldl (Engine.Mul_row N R a b) (replicate R 0) (seq 0 m) in
  wf R result /\
  ((m < R)%nat ->
   value result = value (take m a) * b !!! 0%nat /\
   drop (S m) result = replicate (R - S m) 0) /\
  (m = R ->
   value result = (value (take m a) * b !!! 0%nat) mod 2 ^ (64 * Z.of_nat R)).
Proof.
  intros [Hl Hw] Hy Hz HN. induction m as [|m IH]; intros Hm; cbv zeta.
  - cbn [seq foldl]. rewrite take_0, value_replicate_0. cbn [value].
    split; [split; [apply length_replicate|apply Forall_is_word_zero]|]. split.
    + intros _. split; [lia|]. by rewrite drop_replicate.
    + lia.
  - rewrite seq_snoc, foldl_snoc.
    destruct IH as (Hwf & Hlt & _); [lia|].
    set (result := foldl _ _ (seq 0 m)) in *.
    destruct Hlt as (Hv & Hd); [lia|].
    pose proof (value_bounds result (proj2 Hwf)) as Bv. rewrite (proj1 Hwf) in Bv.
    assert (value (take (S m) a)
            = value (take m a) + 2 ^ (64 * Z.of_nat m) * a !!! m) as Et.
    { rewrite take_S_total, value_snoc, length_take_le by lia. done. }
    unfold Engine.Mul_row.
    destruct (Z.eqb_spec (a !!! m) 0) as [E0|Hne].
    { split; [done|]. rewrite Et, E0, Z.mul_0_r, Z.add_0_r. split.
      - intros _. split; [done|].
        replace (S (S m)) with (S m + 1)%nat by lia.
        rewrite <- (drop_drop _ 1 (S m)), Hd, drop_replicate. f_equal. lia.
      - intros _. rewrite <- Hv. symmetry. apply Z.mod_small. lia. }
    destruct N as [|n]; [lia|].
    destruct (Mul_inner_col0 R a b m n result (is_word_lookup _ _ Hw) Hy
                ltac:(by rewrite Nat.sub_succ, Nat.sub_0_r in Hz)
                ltac:(lia) Hwf Hd)
      as (result' & carry' & E & Hwf' & Hlt' & Heq').
    rewrite E. rewrite Mul_carry_idle.
    + cbn [fst]. split; [done|]. rewrite Et. split.
      * intros HS. destruct (Hlt' HS) as (_ & Hv' & Hd'). split; [|done].
        rewrite Hv', Hv. ring.
      * intros HS. rewrite (Heq' HS), Hv. f_equal. ring.
    + destruct (decide (S m < R)%nat) as [HS|HS].
      * right. by destruct (Hlt' HS).
      * left. replace (R - (m + S n))%nat with 0%nat by lia. done.
Qed.

(** The product when the right operand fits in one word. *)
Lemma Mul_single_word_r (N R : nat) (a : list Z) (y : Z) :
  (0 < N <= R)%nat -> wf N a -> is_word y ->
  value (Engine.Mul N R a (Engine.New N y)) = (value a * y) mod 2 ^ (64 * Z.of_nat R).
Proof.
  intros HN Ha Hy. unfold Engine.Mul.
  assert (Engine.New N y !!! 0%nat = y) as E0.
  { unfold Engine.New, Engine.zeroed. apply list_lookup_total_insert_eq.
    rewrite length_replicate. lia. }
  assert (forall j, In j (seq 1 (N - 1)) -> Engine.New N y !!! j = 0) as Ez.
  { intros j Hj. apply in_seq in Hj. unfold Engine.New, Engine.zeroed.
    rewrite list_lookup_total_insert_ne by lia. apply lookup_total_replicate_2. lia. }
  destruct (Mul_col0_rows N R a (Engine.New N y) N Ha ltac:(by rewrite E0) Ez HN (le_n _))
    as (Hwf & Hlt & Heq).
  rewrite E0 in Hlt, Heq. rewrite take_ge in Hlt, Heq by (rewrite (proj1 Ha); lia).
  destruct (decide (N < R)%nat) as [HR|HR].
  - destruct (Hlt HR) as [-> _]. symmetry. apply Z.mod_small.
    pose proof (value_bounds a (proj2 Ha)) as Ba. rewrite (proj1 Ha) in Ba.
    pose proof (pow64_pos N).
    unfold is_word in Hy. split; [nia|].
    apply Z.lt_le_trans with (2 ^ 64 * 2 ^ (64 * Z.of_nat N)); [nia|].
    rewrite <- pow64_S. apply Z.pow_le_mono_r; lia.
  - apply Heq. lia.
Qed.

Lemma New_value (N : nat) (x : Z) :
  (0 < N)%nat -> wf N (Engine.New N x) -> is_word x /\ value (Engine.New N x) = x.
Proof.
  intros HN [_ Hw]. unfold Engine.New, Engine.zeroed in *.
  destruct N as [|n]; [lia|]. cbn [replicate insert list_insert] in *.
  inversion Hw; subst. split; [done|]. cbn [value]. rewrite value_replicate_0. lia.
Qed.

(** ** C1: what [Mul] returns *)

(** C1, as the code has it.  In both packages [Mul] returns sixteen words: in
    uint512 that is the double-width result type, in uint1024 it is the
    operand type itself and the product is cut to 1024 bits.  When one of the
    operands fits in a single word, the result is the full product in
    uint512 and the product modulo 2^1024 in uint1024. *)
Theorem Mul_width_and_product :
  (forall a b, wf Uint512.N a -> wf Uint512.N b ->
     wf (2 * Uint512.N) (Uint512.Mul a b) /\
     ((exists x, a = Engine.New Uint512.N x) \/ (exists y, b = Engine.New Uint512.N y) ->
      value (Uint512.Mul a b) = value a * value b)) /\
  (forall a b, wf Uint1024.N a -> wf Uint1024.N b ->
     wf Uint1024.N (Uint1024.Mul a b) /\
     ((exists x, a = Engine.New Uint1024.N x) \/ (exists y, b = Engine.New Uint1024.N y) ->
      value (Uint1024.Mul a b) = (value a * value b) mod 2 ^ 1024)).
Proof.
  split; intros a b Ha Hb; (split; [apply Mul_wf|]).
  - pose proof (value_bounds a (proj2 Ha)) as Ba. rewrite (proj1 Ha) in Ba.
    pose proof (value_bounds b (proj2 Hb)) as Bb. rewrite (proj1 Hb) in Bb.
    unfold Uint512.Mul, Uint512.N in *.
    intros [[x ->]|[y ->]].
    + destruct (New_value 8 x ltac:(lia) Ha) as [Hx ->].
      rewrite Mul_single_word by (done || lia).
      apply Z.mod_small. unfold is_word in Hx. split; [nia|].
      apply Z.lt_le_trans with (2 ^ 64 * 2 ^ (64 * Z.of_nat 8)); [nia|]. simpl; lia.
    + destruct (New_value 8 y ltac:(lia) Hb) as [Hy ->].
      rewrite Mul_single_word_r by (done || lia).
      apply Z.mod_small. unfold is_word in Hy. split; [nia|].
      apply Z.lt_le_trans with (2 ^ (64 * Z.of_nat 8) * 2 ^ 64); [nia|]. simpl; lia.
  - unfold Uint1024.Mul, Uint1024.N in *.
    intros [[x ->]|[y ->]].
    + destruct (New_value 16 x ltac:(lia) Ha) as [Hx ->].
      by rewrite Mul_single_word by (done || lia).
    + destruct (New_value 16 y ltac:(lia) Hb) as [Hy ->].
      by rewrite Mul_single_word_r by (done || lia).
Qed.

Lemma Mul_width_and_product_witness :
  (wf 16 (Uint512.Mul (Engine.New 8 100) (Engine.New 8 200)) /\
   value (Uint512.Mul (Engine.New 8 100) (Engine.New 8 200))
   = value (Engine.New 8 100) * value (Engine.New 8 200)) /\
  (wf 16 (Uint1024.Mul (Engine.MAX 16) (Engine.New 16 3)) /\
   value (Uint1024.Mul (Engine.MAX 16) (Engine.New 16 3))
   = (value (Engine.MAX 16) * value (Engine.New 16 3)) mod 2 ^ 1024).
Proof.
  destruct Mul_width_and_product as [H512 H1024]. split.
  - destruct (H512 (Engine.New 8 100) (Engine.New 8 200) ltac:(solve_wf) ltac:(solve_wf))
      as [Hw Hv].
    split; [exact Hw|]. apply Hv. left. by exists 100.
  - destruct (H1024 (Engine.MAX 16) (Engine.New 16 3) ltac:(solve_wf) ltac:(solve_wf))
      as [Hw Hv].
    split; [exact Hw|]. apply Hv. right. by exists 3.
Defined.

(** C1 as the specification words it fails twice.  In uint1024 the
    result has sixteen words, not thirty-two, and 2^1023 * 2 comes out as
    zero.  And in uint512 the carry out of word i+j+1 is added one word too
    low in the next round, so (2^128-1)^2 comes out wrong. *)
Lemma Mul_not_the_wide_product :
  (length (Uint1024.Mul (<[15%nat := 2 ^ 63]> (replicate 16 0)) (Engine.New 16 2))
     <> (2 * Uint1024.N)%nat /\
   value (Uint1024.Mul (<[15%nat := 2 ^ 63]> (replicate 16 0)) (Engine.New 16 2))
     <> value (<[15%nat := 2 ^ 63]> (replicate 16 0)) * value (Engine.New 16 2)) /\
  value (Uint512.Mul [2 ^ 64 - 1; 2 ^ 64 - 1; 0; 0; 0; 0; 0; 0]
                     [2 ^ 64 - 1; 2 ^ 64 - 1; 0; 0; 0; 0; 0; 0])
    <> value [2 ^ 64 - 1; 2 ^ 64 - 1; 0; 0; 0; 0; 0; 0]
       * value [2 ^ 64 - 1; 2 ^ 64 - 1; 0; 0; 0; 0; 0; 0].
Proof. vm_compute. repeat split; discriminate. Qed.

(** ** Ordering and single bits *)

Lemma Less_loop_ext (idx : list nat) (u o u' o' : list Z) :
  (forall i, In i idx -> u !!! i = u' !!! i /\ o !!! i = o' !!! i) ->
  Engine.Less_loop idx u o = Engine.Less_loop idx u' o'.
Proof.
  induction idx as [|i idx IH]; intros H; [done|].
  cbn [Engine.Less_loop]. destruct (H i ltac:(by left)) as [-> ->].
  rewrite IH; [done|]. intros j Hj. apply H. by right.
Qed.

Lemma Less_loop_value (u o : list Z) :
  length u = length o -> Forall is_word u -> Forall is_word o ->
  Engine.Less_loop (rev (seq 0 (length u))) u o = (value u <? value o).
Proof.
  revert o. induction u as [|x u IH] using rev_ind; intros o Hl Hu Ho.
  - destruct o; [done|discriminate].
  - destruct o as [|y o _] using rev_ind.
    { rewrite length_app in Hl. cbn in Hl. lia. }
    rewrite !length_app in Hl. cbn [length] in Hl.
    apply Forall_app in Hu as [Hu Hx]. apply Forall_app in Ho as [Ho Hy].
    inversion Hx as [|? ? Hx' _]; inversion Hy as [|? ? Hy' _]; subst.
    rewrite length_app. cbn [length]. rewrite Nat.add_1_r, seq_snoc, rev_app_distr.
    cbn [rev app Engine.Less_loop].
    rewrite !lookup_total_app_r by lia.
    replace (length u - length o)%nat with 0%nat by lia. rewrite Nat.sub_diag.
    change ([x] !!! 0%nat) with x. change ([y] !!! 0%nat) with y.
    rewrite !value_snoc.
    pose proof (value_bounds u Hu) as Bu. pose proof (value_bounds o Ho) as Bo.
    assert (length o = length u) as Elen by lia. rewrite Elen in Bo. rewrite Elen.
    pose proof (pow64_pos (length u)) as Pp.
    destruct (Z.ltb_spec x y) as [Hlt|Hge].
    { symmetry. apply Z.ltb_lt.
      assert (2 ^ (64 * Z.of_nat (length u)) * (x + 1)
              <= 2 ^ (64 * Z.of_nat (length u)) * y) by (apply Z.mul_le_mono_nonneg_l; lia).
      lia. }
    destruct (Z.gtb_spec x y) as [Hgt|Hle].
    { symmetry. apply Z.ltb_ge.
      assert (2 ^ (64 * Z.of_nat (length u)) * (y + 1)
              <= 2 ^ (64 * Z.of_nat (length u)) * x) by (apply Z.mul_le_mono_nonneg_l; lia).
      lia. }
    assert (x = y) as -> by lia.
    rewrite (Less_loop_ext _ _ _ u o).
    + rewrite IH by (done || lia).
      destruct (Z.ltb_spec (value u) (value o)), (Z.ltb_spec
        (value u + 2 ^ (64 * Z.of_nat (length u)) * y)
        (value o + 2 ^ (64 * Z.of_nat (length u)) * y)); (done || lia).
    + intros i Hi. apply in_rev, in_seq in Hi.
      rewrite !lookup_total_app_l by lia. done.
Qed.

Lemma Less_value (N : nat) (u o : list Z) :
  wf N u -> wf N o -> Engine.Less N u o = (value u <? value o).
Proof.
  intros [Hlu Hwu] [Hlo Hwo]. unfold Engine.Less. rewrite <- Hlu.
  apply Less_loop_value; (done || lia).
Qed.

Lemma lor_is_word (x y : Z) : is_word x -> is_word y -> is_word (Z.lor x y).
Proof.
  unfold is_word. intros Hx Hy.
  assert (Z.lor x y = Z.lor x y mod 2 ^ 64) as E.
  { rewrite <- (Z.land_ones _ 64) by lia.
    rewrite Z.land_lor_distr_l, !Z.land_ones by lia.
    rewrite !Z.mod_small by lia. done. }
  rewrite E. apply Z.mod_pos_bound. lia.
Qed.

Lemma land_pow2 (w k : Z) :
  0 <= k -> Z.land w (2 ^ k) = if Z.testbit w k then 2 ^ k else 0.
Proof.
  intros Hk. apply Z.bits_inj'. intros n Hn.
  rewrite Z.land_spec, Z.pow2_bits_eqb by lia.
  destruct (Z.eqb_spec k n) as [->|Hne].
  - destruct (Z.testbit w n); [|by rewrite Z.bits_0].
    rewrite Z.pow2_bits_eqb by lia. by rewrite Z.eqb_refl.
  - rewrite andb_false_r. destruct (Z.testbit w k); [|by rewrite Z.bits_0].
    rewrite Z.pow2_bits_eqb by lia. symmetry. by apply Z.eqb_neq.
Qed.

Lemma lor_pow2_clear (w k : Z) :
  0 <= k -> Z.testbit w k = false -> Z.lor w (2 ^ k) = w + 2 ^ k.
Proof.
  intros Hk Hb.
  assert (Z.land w (2 ^ k) = 0) as Hl by (by rewrite land_pow2, Hb).
  rewrite <- Z.lxor_lor by done. symmetry. by apply Z.add_nocarry_lxor.
Qed.

Lemma shl64_one (k : Z) : 0 <= k < 64 -> shl64 1 k = 2 ^ k.
Proof.
  intros Hk. unfold shl64, wrap64. rewrite Z.shiftl_1_l.
  apply Z.mod_small. split; [apply Z.pow_nonneg; lia|].
  apply Z.pow_lt_mono_r; lia.
Qed.

Lemma bit_index_split (N : nat) (i : Z) :
  0 <= i < 64 * Z.of_nat N ->
  let wi := Z.to_nat (Z.quot i 64) in
  (wi < N)%nat /\ 0 <= Z.rem i 64 < 64 /\ i = 64 * Z.of_nat wi + Z.rem i 64.
Proof.
  intros Hi wi. unfold wi.
  rewrite Z.quot_div_nonneg, Z.rem_mod_nonneg by lia.
  pose proof (Z.div_mod i 64 ltac:(lia)). pose proof (Z.mod_pos_bound i 64 ltac:(lia)).
  assert (0 <= i / 64) by (apply Z.div_pos; lia).
  assert (i / 64 < Z.of_nat N) by (apply Z.div_lt_upper_bound; lia).
  rewrite Z2Nat.id by lia. repeat split; lia.
Qed.

Lemma testbit_value (ws : list Z) (wi : nat) (bi : Z) :
  Forall is_word ws -> (wi < length ws)%nat -> 0 <= bi < 64 ->
  Z.testbit (value ws) (64 * Z.of_nat wi + bi) = Z.testbit (ws !!! wi) bi.
Proof.
  intros Hw Hwi Hbi.
  destruct (value_take ws wi Hw ltac:(lia)) as (Ev & Bt & Bd).
  rewrite (drop_S ws (ws !!! wi) wi) in Ev by (apply lookup_total_lt; lia).
  cbn [value] in Ev.
  pose proof (is_word_lookup ws wi Hw) as Hx. unfold is_word in Hx.
  pose proof (pow64_pos wi) as Pp.
  rewrite Z.add_comm, <- Z.shiftr_spec by lia.
  rewrite Z.shiftr_div_pow2 by lia.
  assert (value ws / 2 ^ (64 * Z.of_nat wi)
          = ws !!! wi + 2 ^ 64 * value (drop (S wi) ws)) as ->.
  { symmetry. apply (Z.div_unique _ _ _ (value (take wi ws))); [left; lia|].
    rewrite Ev. ring. }
  assert ((ws !!! wi + 2 ^ 64 * value (drop (S wi) ws)) mod 2 ^ 64 = ws !!! wi) as E.
  { rewrite (Z.mul_comm (2 ^ 64)), Z_mod_plus_full. apply Z.mod_small. lia. }
  rewrite <- (Z.mod_pow2_bits_low (ws !!! wi + 2 ^ 64 * value (drop (S wi) ws)) 64 bi)
    by lia.
  by rewrite E.
Qed.

Lemma Bit_value (N : nat) (u : list Z) (i : Z) :
  wf N u -> 0 <= i < 64 * Z.of_nat N -> Engine.Bit N u i = Z.testbit (value u) i.
Proof.
  intros [Hl Hw] Hi. unfold Engine.Bit, Engine.out_of_range.
  destruct (Z.ltb_spec i 0); [lia|]. destruct (Z.geb_spec i (64 * Z.of_nat N)); [lia|].
  cbn [orb]. destruct (bit_index_split N i Hi) as (Hwi & Hbi & Ei).
  set (wi := Z.to_nat (Z.quot i 64)) in *. set (bi := Z.rem i 64) in *.
  rewrite shl64_one, land_pow2 by lia.
  rewrite Ei at 1. rewrite testbit_value by (done || lia).
  assert (0 < 2 ^ bi) by (apply Z.pow_pos_nonneg; lia).
  destruct (Z.testbit (u !!! wi) bi); destruct (Z.eqb_spec (2 ^ bi) 0);
    (done || lia || (cbn; done)).
Qed.

Lemma SetBit_value (N : nat) (u : list Z) (i : Z) :
  wf N u -> 0 <= i < 64 * Z.of_nat N -> Z.testbit (value u) i = false ->
  wf N (Engine.SetBit N u i) /\ value (Engine.SetBit N u i) = value u + 2 ^ i.
Proof.
  intros [Hl Hw] Hi Hb. unfold Engine.SetBit, Engine.out_of_range.
  destruct (Z.ltb_spec i 0); [lia|]. destruct (Z.geb_spec i (64 * Z.of_nat N)); [lia|].
  cbn [orb]. destruct (bit_index_split N i Hi) as (Hwi & Hbi & Ei).
  set (wi := Z.to_nat (Z.quot i 64)) in *. set (bi := Z.rem i 64) in *.
  rewrite Ei in Hb at 1. rewrite testbit_value in Hb by (done || lia).
  rewrite shl64_one by lia.
  pose proof (is_word_lookup u wi Hw) as Hx.
  assert (is_word (2 ^ bi)) as Hp.
  { unfold is_word. split; [apply Z.pow_nonneg; lia|]. apply Z.pow_lt_mono_r; lia. }
  split.
  - apply wf_insert; [done|]. by apply lor_is_word.
  - rewrite value_insert by lia. rewrite lor_pow2_clear by (done || lia).
    replace (2 ^ i) with (2 ^ (64 * Z.of_nat wi) * 2 ^ bi); [ring|].
    rewrite <- Z.pow_add_r by lia. f_equal. lia.
Qed.

(** ** Binary long division *)

Section LongDivision.

Variable N : nat.
Variables a b : list Z.
Hypothesis Ha : wf N a.
Hypothesis Hb : wf N b.
Hypothesis Hpos : 0 < value b.

Lemma next_dividend_bit (i : Z) :
  0 <= i ->
  value a / 2 ^ i = 2 * (value a / 2 ^ (i + 1)) + Z.b2z (Z.testbit (value a) i).
Proof.
  intros Hi. rewrite Z.testbit_spec' by lia.
  rewrite Z.pow_add_r, <- Z.div_div by lia.
  change (2 ^ 1) with 2. apply Z.div_mod. lia.
Qed.

Lemma shifted_in_bit (r : list Z) (bit : bool) :
  (0 < N)%nat -> wf N r -> 2 * value r + 1 < 2 ^ (64 * Z.of_nat N) ->
  let r1 := Engine.ShlInPlace N r 1 in
  let r2 := if bit then <[0%nat := Z.lor (r1 !!! 0%nat) 1]> r1 else r1 in
  wf N r2 /\ value r2 = 2 * value r + Z.b2z bit.
Proof.
  intros HN Hr Hsmall. cbv zeta.
  destruct (ShlInPlace_value N r 1 Hr ltac:(lia)) as [Hw1 Hv1].
  pose proof (value_nonneg r (proj2 Hr)) as Hnn.
  rewrite Z.mod_small in Hv1 by (change (2 ^ 1) with 2; lia).
  change (2 ^ 1) with 2 in Hv1.
  destruct bit; cbn [Z.b2z]; [|split; [done|lia]].
  assert (Z.testbit (Engine.ShlInPlace N r 1 !!! 0%nat) 0 = false) as Hb0.
  { pose proof (testbit_value (Engine.ShlInPlace N r 1) 0 0 (proj2 Hw1)
                  ltac:(rewrite (proj1 Hw1); lia) ltac:(lia)) as Ht.
    change (64 * Z.of_nat 0 + 0) with 0 in Ht.
    rewrite <- Ht, Hv1, Z.mul_comm. apply Z.testbit_even_0. }
  split.
  - apply wf_insert; [done|]. apply lor_is_word; [apply is_word_lookup, Hw1|].
    unfold is_word. lia.
  - rewrite value_insert by (rewrite (proj1 Hw1); lia).
    pose proof (lor_pow2_clear _ 0 ltac:(lia) Hb0) as El.
    change (2 ^ 0) with 1 in El. rewrite El, Hv1.
    change (2 ^ (64 * Z.of_nat 0)) with 1. lia.
Qed.

(** One round of the loops of [Div] and [Mod], for bit [i]. *)
Lemma Div_step_inv (q r : list Z) (i : nat) :
  (i < 64 * N)%nat -> wf N q -> wf N r ->
  value r = (value a / 2 ^ (Z.of_nat i + 1)) mod value b ->
  value q = (value a / 2 ^ (Z.of_nat i + 1)) / value b * 2 ^ (Z.of_nat i + 1) ->
  let '(q', r') := Engine.Div_step N a b (q, r) i in
  wf N q' /\ wf N r' /\
  value r' = (value a / 2 ^ Z.of_nat i) mod value b /\
  value q' = (value a / 2 ^ Z.of_nat i) / value b * 2 ^ Z.of_nat i /\
  Engine.Mod_step N a b r i = r'.
Proof.
  intros Hi Hq Hr Vr Vq. unfold Engine.Div_step, Engine.Mod_step.
  pose proof (value_bounds a (proj2 Ha)) as Ba. rewrite (proj1 Ha) in Ba.
  pose proof (value_bounds b (proj2 Hb)) as Bb. rewrite (proj1 Hb) in Bb.
  set (A := value a / 2 ^ (Z.of_nat i + 1)) in *.
  assert (0 <= A) as HA by (apply Z.div_pos; [lia|apply Z.pow_pos_nonneg; lia]).
  pose proof (Z.mod_pos_bound A (value b) Hpos) as Hrb. rewrite <- Vr in Hrb.
  pose proof (Z.div_mod A (value b) ltac:(lia)) as EA. rewrite <- Vr in EA.
  assert (0 <= A / value b) as HQ by (apply Z.div_pos; lia).
  set (Q := A / value b) in *.
  assert (2 * A + 1 < 2 ^ (64 * Z.of_nat N)) as Hsmall.
  { assert (A < 2 ^ (64 * Z.of_nat N - (Z.of_nat i + 1))) as HAlt.
    { apply Z.div_lt_upper_bound; [apply Z.pow_pos_nonneg; lia|].
      rewrite <- Z.pow_add_r by lia.
      replace (Z.of_nat i + 1 + (64 * Z.of_nat N - (Z.of_nat i + 1)))
        with (64 * Z.of_nat N) by lia. lia. }
    assert (2 * 2 ^ (64 * Z.of_nat N - (Z.of_nat i + 1)) <= 2 ^ (64 * Z.of_nat N)).
    { rewrite <- Z.pow_succ_r by lia. apply Z.pow_le_mono_r; lia. }
    lia. }
  assert (value r <= A) as HrA by nia.
  destruct (shifted_in_bit r (Engine.Bit N a (Z.of_nat i)) ltac:(lia) Hr ltac:(lia))
    as [Hw2 Hv2].
  cbv zeta in Hw2, Hv2.
  set (r2 := if Engine.Bit N a (Z.of_nat i) then _ else _) in *.
  rewrite Bit_value in Hv2 by (done || lia).
  pose proof (next_dividend_bit (Z.of_nat i) ltac:(lia)) as EA'. fold A in EA'.
  set (bit := Z.b2z (Z.testbit (value a) (Z.of_nat i))) in *.
  assert (0 <= bit <= 1) as Hbit by (unfold bit; destruct (Z.testbit _ _); cbn; lia).
  assert (2 ^ (Z.of_nat i + 1) = 2 * 2 ^ Z.of_nat i) as Ep.
  { rewrite Z.pow_add_r by lia. change (2 ^ 1) with 2. ring. }
  assert (0 < 2 ^ Z.of_nat i) as Pp by (apply Z.pow_pos_nonneg; lia).
  rewrite Less_value by done.
  destruct (Z.ltb_spec (value r2) (value b)) as [Hlt|Hge]; cbn [negb].
  - split; [done|]. split; [done|]. split; [|split; [|done]].
    + apply (Z.mod_unique _ _ (2 * Q)); [left; lia|]. nia.
    + rewrite Vq, Ep.
      replace (value a / 2 ^ Z.of_nat i / value b) with (2 * Q); [ring|].
      apply (Z.div_unique _ _ _ (value r2)); [left; lia|]. nia.
  - rewrite SubInPlace_Sub by apply Hw2. cbn [operand_words].
    pose proof (Sub_wf N r2 b Hw2 Hb) as Hw3.
    pose proof (value_Sub N r2 b Hw2 Hb) as Hv3.
    rewrite Z.mod_small in Hv3 by lia.
    assert (Z.testbit (value q) (Z.of_nat i) = false) as Hclear.
    { rewrite Vq. apply Z.mul_pow2_bits_low. lia. }
    destruct (SetBit_value N q (Z.of_nat i) Hq ltac:(lia) Hclear) as [Hw4 Hv4].
    split; [done|]. split; [done|]. split; [|split; [|done]].
    + rewrite Hv3. apply (Z.mod_unique _ _ (2 * Q + 1)); [left; lia|]. nia.
    + rewrite Hv4, Vq, Ep.
      replace (value a / 2 ^ Z.of_nat i / value b) with (2 * Q + 1); [ring|].
      apply (Z.div_unique _ _ _ (value r2 - value b)); [left; lia|]. nia.
Qed.

Lemma Div_loop_inv (k i : nat) :
  (i + k = 64 * N)%nat ->
  let '(q, r) := foldl (Engine.Div_step N a b) (Engine.ZERO N, Engine.ZERO N)
                       (rev (seq i k)) in
  wf N q /\ wf N r /\
  value r = (value a / 2 ^ Z.of_nat i) mod value b /\
  value q = (value a / 2 ^ Z.of_nat i) / value b * 2 ^ Z.of_nat i /\
  foldl (Engine.Mod_step N a b) (Engine.ZERO N) (rev (seq i k)) = r.
Proof.
  revert i. induction k as [|k IH]; intros i Hik.
  - cbn [seq rev foldl].
    pose proof (value_bounds a (proj2 Ha)) as Ba. rewrite (proj1 Ha) in Ba.
    assert (value a / 2 ^ Z.of_nat i = 0) as ->.
    { apply Z.div_small. replace (Z.of_nat i) with (64 * Z.of_nat N) by lia. lia. }
    unfold Engine.ZERO, Engine.zeroed. rewrite value_replicate_0.
    repeat split; (apply wf_zeroed || done).
  - cbn [seq rev]. rewrite !foldl_snoc.
    specialize (IH (S i) ltac:(lia)).
    destruct (foldl (Engine.Div_step N a b) _ (rev (seq (S i) k))) as [q r].
    destruct IH as (Hq & Hr & Vr & Vq & ->).
    replace (Z.of_nat (S i)) with (Z.of_nat i + 1) in Vr, Vq by lia.
    pose proof (Div_step_inv q r i ltac:(lia) Hq Hr Vr Vq) as H.
    destruct (Engine.Div_step N a b (q, r) i) as [q' r'].
    destruct H as (? & ? & ? & ? & ?). done.
Qed.

End LongDivision.

(** X1. For a non-zero divisor [Div] and [Mod] return the quotient and the
    remainder of the values, on the fast paths and through the loop. *)
Theorem Div_Mod_quotient_remainder (N : nat) (a b : list Z) :
  wf N a -> wf N b -> b <> Engine.ZERO N ->
  exists q r,
    Engine.Div N a b = Ok q /\ Engine.Mod N a b = Ok r /\
    wf N q /\ wf N r /\
    value q = value a / value b /\ value r = value a mod value b /\
    value q * value b + value r = value a.
Proof.
  intros Ha Hb Hne.
  pose proof (value_nonneg b (proj2 Hb)) as Hnn.
  assert (value b <> 0) as Hv0 by (intros E; by apply Hne, (value_zero_iff N b Hb)).
  assert (0 < value b) as Hpos by lia.
  pose proof (value_nonneg a (proj2 Ha)) as Hna.
  assert (0 < N)%nat as HN.
  { destruct N; [|lia]. destruct Hb as [Hl _]. destruct b; [done|discriminate]. }
  assert (forall q r, wf N q -> wf N r ->
            value q = value a / value b -> value r = value a mod value b ->
            value q * value b + value r = value a) as Hid.
  { intros q r _ _ -> ->. pose proof (Z.div_mod (value a) (value b) Hv0). lia. }
  unfold Engine.Div, Engine.Mod.
  rewrite IsZero_value, Less_value by done.
  destruct (Z.eqb_spec (value b) 0) as [?|_]; [lia|].
  rewrite !(Clone_wf N (Engine.ZERO N)) by apply wf_zeroed.
  destruct (ONE_value N HN) as [H1 V1]. rewrite (Clone_wf N (Engine.ONE N)) by apply H1.
  rewrite (Clone_wf N a) by apply Ha.
  assert (value (Engine.ZERO N) = 0) as V0 by apply value_replicate_0.
  destruct (Z.ltb_spec (value a) (value b)) as [Hlt|Hge].
  { exists (Engine.ZERO N), a.
    assert (value (Engine.ZERO N) = value a / value b) as Eq
      by (rewrite V0; symmetry; apply Z.div_small; lia).
    assert (value a = value a mod value b) as Er by (symmetry; apply Z.mod_small; lia).
    repeat split; try done; try apply wf_zeroed; try apply Ha. rewrite V0. lia. }
  destruct (Engine.Equal N a b) eqn:Eeq.
  { apply Equal_spec in Eeq; [|apply Ha|apply Hb]. subst b.
    exists (Engine.ONE N), (Engine.ZERO N).
    rewrite V0, V1, Z.div_same, Z.mod_same by lia.
    repeat split; try done; try apply wf_zeroed; try apply H1. lia. }
  pose proof (Div_loop_inv N a b Ha Hb Hpos (64 * N) 0 ltac:(lia)) as H.
  destruct (foldl (Engine.Div_step N a b) _ _) as [q r].
  destruct H as (Hq & Hr & Vr & Vq & ->).
  cbn [Z.of_nat] in Vr, Vq. rewrite Z.pow_0_r, Z.div_1_r in Vr, Vq.
  rewrite Z.mul_1_r in Vq.
  exists q, r. cbn [fst]. repeat split; try done; try apply Hq; try apply Hr.
  by apply Hid.
Qed.

Lemma Div_Mod_quotient_remainder_witness :
  exists q r,
    Engine.Div 8 (Engine.New 8 100) (Engine.New 8 7) = Ok q /\
    Engine.Mod 8 (Engine.New 8 100) (Engine.New 8 7) = Ok r /\
    wf 8 q /\ wf 8 r /\
    value q = value (Engine.New 8 100) / value (Engine.New 8 7) /\
    value r = value (Engine.New 8 100) mod value (Engine.New 8 7) /\
    value q * value (Engine.New 8 7) + value r = value (Engine.New 8 100).
Proof.
  apply (Div_Mod_quotient_remainder 8 (Engine.New 8 100) (Engine.New 8 7));
    [solve_wf | solve_wf | discriminate].
Defined.

(** ** C2: the division identity through [Mul] *)

(** C2 at a = 2^256 - 2^129 + 1 and b = 2^128 - 1.  [Div] and [Mod] return
    the quotient 2^128 - 1 and the remainder 0, which satisfy the identity on
    the values; but the product [Mul] computes for them has two words wrong,
    so the identity evaluated through [Mul] fails, on the sixteen words and
    on their low eight. *)
Theorem Div_Mod_identity_through_Mul_fails :
  exists q r,
    Engine.Div 8 [1; 0; 2 ^ 64 - 2; 2 ^ 64 - 1; 0; 0; 0; 0]
                 [2 ^ 64 - 1; 2 ^ 64 - 1; 0; 0; 0; 0; 0; 0] = Ok q /\
    Engine.Mod 8 [1; 0; 2 ^ 64 - 2; 2 ^ 64 - 1; 0; 0; 0; 0]
                 [2 ^ 64 - 1; 2 ^ 64 - 1; 0; 0; 0; 0; 0; 0] = Ok r /\
    value q * value [2 ^ 64 - 1; 2 ^ 64 - 1; 0; 0; 0; 0; 0; 0] + value r
      = value [1; 0; 2 ^ 64 - 2; 2 ^ 64 - 1; 0; 0; 0; 0] /\
    Uint512.Mul q [2 ^ 64 - 1; 2 ^ 64 - 1; 0; 0; 0; 0; 0; 0]
      = [1; 0; 2 ^ 64 - 1; 2 ^ 64 - 2; 0; 0; 0; 0; 0; 0; 0; 0; 0; 0; 0; 0] /\
    value (Uint512.Mul q [2 ^ 64 - 1; 2 ^ 64 - 1; 0; 0; 0; 0; 0; 0]) + value r
      <> value [1; 0; 2 ^ 64 - 2; 2 ^ 64 - 1; 0; 0; 0; 0] /\
    Engine.Add 8
      (Engine.FromLimbs 8 (Uint512.Mul q [2 ^ 64 - 1; 2 ^ 64 - 1; 0; 0; 0; 0; 0; 0])) r
      <> [1; 0; 2 ^ 64 - 2; 2 ^ 64 - 1; 0; 0; 0; 0].
Proof.
  exists [2 ^ 64 - 1; 2 ^ 64 - 1; 0; 0; 0; 0; 0; 0], [0; 0; 0; 0; 0; 0; 0; 0].
  vm_compute. repeat split; discriminate.
Qed.

(** ** Fixtures of the repository's tests

    The embedding run on inputs of uint512_test.go and conversion_test.go. *)

Example test_basic_arithmetic :
  Engine.Add 8 (Engine.New 8 100) (Engine.New 8 200) = Engine.New 8 300 /\
  Engine.Sub 8 (Engine.New 8 200) (Engine.New 8 100) = Engine.New 8 100 /\
  Engine.String_fuel 16 512 (Uint512.Mul (Engine.New 8 100) (Engine.New 8 200))
    = Some "20000"%string.
Proof. by vm_compute. Qed.

Example test_from_bytes :
  Engine.FromLeBytes 16 [] = Engine.ZERO 16 /\
  Engine.FromLeBytes 16 [42] = Engine.New 16 42 /\
  Engine.FromLeBytes 16 [1; 2; 3; 4; 5; 6; 7; 8] = Engine.New 16 0x0807060504030201 /\
  Engine.FromBeBytes 16 [] = Engine.ZERO 16 /\
  Engine.FromBeBytes 16 [42] = Engine.New 16 42 /\
  Engine.FromBeBytes 16 [1; 2; 3; 4; 5; 6; 7; 8] = Engine.New 16 0x0102030405060708.
Proof. by vm_compute. Qed.

Example test_to_bytes :
  Engine.ToLeBytes 16 (Engine.New 16 42) = 42 :: replicate 127 0 /\
  Engine.ToBeBytes 16 (Engine.New 16 42) = replicate 127 0 ++ [42].
Proof. by vm_compute. Qed.

Example test_bitwise_and_shift :
  Engine.And 8 (Engine.New 8 12) (Engine.New 8 10) = Engine.New 8 8 /\
  Engine.Or 8 (Engine.New 8 12) (Engine.New 8 10) = Engine.New 8 14 /\
  Engine.Xor 8 (Engine.New 8 12) (Engine.New 8 10) = Engine.New 8 6 /\
  Engine.Or 8 (Engine.Not 8 (Engine.New 8 12)) (Engine.New 8 12) = Engine.MAX 8 /\
  Engine.Shl 8 (Engine.New 8 1) 4 = Engine.New 8 16 /\
  Engine.Shr 8 (Engine.New 8 16) 4 = Engine.New 8 1 /\
  Engine.Bit 8 (Engine.SetBit 8 (Engine.ZERO 8) 5) 5 = true /\
  Engine.ClearBit 8 (Engine.SetBit 8 (Engine.ZERO 8) 5) 5 = Engine.ZERO 8 /\
  Engine.FlipBit 8 (Engine.FlipBit 8 (Engine.ZERO 8) 3) 3 = Engine.ZERO 8.
Proof. by vm_compute. Qed.

Example test_string_conversion :
  Engine.String_fuel 8 512 (Engine.New 8 0) = Some "0"%string /\
  Engine.String_fuel 8 512 (Engine.New 8 1) = Some "1"%string /\
  Engine.String_fuel 8 512 (Engine.New 8 123) = Some "123"%string.
Proof. by vm_compute. Qed.


(** * Further properties of the packages *)

(** ** comparison.go *)

Lemma Compare_loop_Less (idx : list nat) (u o : list Z) :
  Engine.Compare_loop idx u o
  = if Engine.Less_loop idx u o then -1
    else if Engine.Less_loop idx o u then 1 else 0.
Proof.
  induction idx as [|i idx IH]; [done|].
  cbn [Engine.Compare_loop Engine.Less_loop].
  destruct (Z.ltb_spec (u !!! i) (o !!! i)) as [Hlt|Hge].
  - done.
  - destruct (Z.gtb_spec (u !!! i) (o !!! i)) as [Hgt|Hle].
    + destruct (Z.ltb_spec (o !!! i) (u !!! i)); [done|lia].
    + destruct (Z.ltb_spec (o !!! i) (u !!! i)); [lia|].
      destruct (Z.gtb_spec (o !!! i) (u !!! i)); [lia|]. apply IH.
Qed.

Lemma Equal_value (N : nat) (u o : list Z) :
  wf N u -> wf N o -> Engine.Equal N u o = (value u =? value o).
Proof.
  intros [Hlu Hwu] [Hlo Hwo].
  pose proof (Equal_spec N u o Hlu Hlo) as H.
  destruct (Engine.Equal N u o), (Z.eqb_spec (value u) (value o)); try done.
  - exfalso. apply n. f_equal. by apply H.
  - assert (u = o) as E by (apply value_inj; (done || lia)).
    apply H in E. discriminate.
Qed.

(** X2. [Compare] is the three-way comparison of the values; swapping the
    operands negates it, and it is 0 exactly when [Equal] holds. *)
Theorem Compare_three_way (N : nat) (a b : list Z) :
  wf N a -> wf N b ->
  Engine.Compare N a b
    = match value a ?= value b with Lt => -1 | Eq => 0 | Gt => 1 end /\
  Engine.Compare N a b = - Engine.Compare N b a /\
  Engine.Equal N a b = (Engine.Compare N a b =? 0).
Proof.
  intros Ha Hb.
  assert (forall x y, wf N x -> wf N y ->
            Engine.Compare N x y
            = match value x ?= value y with Lt => -1 | Eq => 0 | Gt => 1 end) as HC.
  { intros x y Hx Hy. unfold Engine.Compare. rewrite Compare_loop_Less.
    fold (Engine.Less N x y). fold (Engine.Less N y x).
    rewrite !Less_value by done.
    destruct (Z.compare_spec (value x) (value y));
      destruct (Z.ltb_spec (value x) (value y));
      destruct (Z.ltb_spec (value y) (value x)); (done || lia). }
  split; [by apply HC|]. rewrite !HC, Equal_value by done.
  rewrite (Z.compare_antisym (value a) (value b)).
  destruct (Z.compare_spec (value a) (value b)) as [E|E|E]; cbn [CompOpp]; split;
    try done; destruct (Z.eqb_spec (value a) (value b)); (done || lia).
Qed.

Lemma Compare_three_way_witness :
  Engine.Compare 8 (Engine.New 8 100) (Engine.New 8 200)
    = match value (Engine.New 8 100) ?= value (Engine.New 8 200) with
      | Lt => -1 | Eq => 0 | Gt => 1 end /\
  Engine.Compare 8 (Engine.New 8 100) (Engine.New 8 200)
    = - Engine.Compare 8 (Engine.New 8 200) (Engine.New 8 100) /\
  Engine.Equal 8 (Engine.New 8 100) (Engine.New 8 200)
    = (Engine.Compare 8 (Engine.New 8 100) (Engine.New 8 200) =? 0).
Proof.
  apply (Compare_three_way 8 (Engine.New 8 100) (Engine.New 8 200)); solve_wf.
Defined.

(** X3. The six comparison predicates decide the order of the values. *)
Theorem comparisons_decide_order (N : nat) (a b : list Z) :
  wf N a -> wf N b ->
  Engine.Equal N a b = (value a =? value b) /\
  Engine.NotEqual N a b = negb (value a =? value b) /\
  Engine.Less N a b = (value a <? value b) /\
  Engine.LessOrEqual N a b = (value a <=? value b) /\
  Engine.Greater N a b = (value b <? value a) /\
  Engine.GreaterOrEqual N a b = (value b <=? value a).
Proof.
  intros Ha Hb.
  unfold Engine.NotEqual, Engine.LessOrEqual, Engine.GreaterOrEqual, Engine.Greater.
  rewrite !Less_value, !Equal_value by done.
  repeat split; try done.
  - destruct (Z.ltb_spec (value a) (value b)), (Z.eqb_spec (value a) (value b)),
      (Z.leb_spec (value a) (value b)); (done || lia).
  - destruct (Z.ltb_spec (value b) (value a)), (Z.eqb_spec (value a) (value b)),
      (Z.leb_spec (value b) (value a)); (done || lia).
Qed.

Lemma comparisons_decide_order_witness :
  Engine.Equal 8 (Engine.New 8 7) (Engine.MAX 8)
    = (value (Engine.New 8 7) =? value (Engine.MAX 8)) /\
  Engine.NotEqual 8 (Engine.New 8 7) (Engine.MAX 8)
    = negb (value (Engine.New 8 7) =? value (Engine.MAX 8)) /\
  Engine.Less 8 (Engine.New 8 7) (Engine.MAX 8)
    = (value (Engine.New 8 7) <? value (Engine.MAX 8)) /\
  Engine.LessOrEqual 8 (Engine.New 8 7) (Engine.MAX 8)
    = (value (Engine.New 8 7) <=? value (Engine.MAX 8)) /\
  Engine.Greater 8 (Engine.New 8 7) (Engine.MAX 8)
    = (value (Engine.MAX 8) <? value (Engine.New 8 7)) /\
  Engine.GreaterOrEqual 8 (Engine.New 8 7) (Engine.MAX 8)
    = (value (Engine.MAX 8) <=? value (Engine.New 8 7)).
Proof.
  apply (comparisons_decide_order 8 (Engine.New 8 7) (Engine.MAX 8)); solve_wf.
Defined.

(** X4. [Min] and [Max] return one of the operands, the one with the smaller
    and the larger value. *)
Theorem Min_Max_values (N : nat) (a b : list Z) :
  wf N a -> wf N b ->
  (Engine.Min N a b = a \/ Engine.Min N a b = b) /\
  (Engine.Max N a b = a \/ Engine.Max N a b = b) /\
  value (Engine.Min N a b) = Z.min (value a) (value b) /\
  value (Engine.Max N a b) = Z.max (value a) (value b).
Proof.
  intros Ha Hb. unfold Engine.Min, Engine.Max, Engine.Greater.
  rewrite !Less_value by done.
  rewrite (Clone_wf N a), (Clone_wf N b) by (apply Ha || apply Hb).
  destruct (Z.ltb_spec (value a) (value b)), (Z.ltb_spec (value b) (value a));
    repeat split; auto; lia.
Qed.

Lemma Min_Max_values_witness :
  (Engine.Min 8 (Engine.New 8 3) (Engine.New 8 4) = Engine.New 8 3 \/
   Engine.Min 8 (Engine.New 8 3) (Engine.New 8 4) = Engine.New 8 4) /\
  (Engine.Max 8 (Engine.New 8 3) (Engine.New 8 4) = Engine.New 8 3 \/
   Engine.Max 8 (Engine.New 8 3) (Engine.New 8 4) = Engine.New 8 4) /\
  value (Engine.Min 8 (Engine.New 8 3) (Engine.New 8 4))
    = Z.min (value (Engine.New 8 3)) (value (Engine.New 8 4)) /\
  value (Engine.Max 8 (Engine.New 8 3) (Engine.New 8 4))
    = Z.max (value (Engine.New 8 3)) (value (Engine.New 8 4)).
Proof.
  apply (Min_Max_values 8 (Engine.New 8 3) (Engine.New 8 4)); solve_wf.
Defined.

(** X5. [IsOdd] and [IsEven] are the parity of the value. *)
Theorem parity_of_value (N : nat) (a : list Z) :
  (0 < N)%nat -> wf N a ->
  Engine.IsOdd a = Z.odd (value a) /\ Engine.IsEven a = Z.even (value a).
Proof.
  intros HN [Hl Hw]. destruct a as [|w a]; [simpl in Hl; lia|].
  unfold Engine.IsOdd, Engine.IsEven.
  change ((w :: a) !!! 0%nat) with w. cbn [value].
  change 1 with (Z.ones 1) at 1 3. rewrite !Z.land_ones by lia.
  change (2 ^ 1) with 2.
  assert ((w + 2 ^ 64 * value a) mod 2 = w mod 2) as E.
  { replace (2 ^ 64 * value a) with (2 ^ 63 * value a * 2) by (change (2 ^ 64) with (2 ^ 63 * 2); ring).
    apply Z_mod_plus_full. }
  rewrite Zodd_mod, Zeven_mod, E.
  pose proof (Z.mod_pos_bound w 2 ltac:(lia)).
  split; [done|].
  destruct (Z.eqb_spec (w mod 2) 0); destruct (Z.eqb_spec (w mod 2) 1); (done || lia).
Qed.

Lemma parity_of_value_witness :
  Engine.IsOdd (Engine.New 8 3) = Z.odd (value (Engine.New 8 3)) /\
  Engine.IsEven (Engine.New 8 3) = Z.even (value (Engine.New 8 3)).
Proof. apply (parity_of_value 8 (Engine.New 8 3)); [lia | solve_wf]. Defined.


(** ** arithmetic.go: addition *)

Lemma Add_loop_inv (N : nat) (u other : list Z) (m : nat) :
  wf N u -> wf N other -> (m <= N)%nat ->
  let '(r, c) := foldl (Engine.Add_step u other) (Engine.zeroed N, 0) (seq 0 m) in
  wf N r /\ 0 <= c <= 1 /\
  value (take m r) + 2 ^ (64 * Z.of_nat m) * c
    = value (take m u) + value (take m other).
Proof.
  intros Hu Ho. induction m as [|m IH]; intros Hm.
  - cbn [seq foldl]. split; [apply wf_zeroed|]. rewrite !take_0. simpl. lia.
  - rewrite seq_snoc, foldl_snoc.
    destruct (foldl _ _ (seq 0 m)) as [r c].
    destruct IH as (Hr & Hc & Hv); [lia|].
    unfold Engine.Add_step.
    pose proof (Add64_spec (u !!! m) (other !!! m) c
                  (is_word_lookup _ _ (proj2 Hu)) (is_word_lookup _ _ (proj2 Ho)) Hc) as HS.
    destruct (Add64 (u !!! m) (other !!! m) c) as [sum c1].
    destruct HS as (Hd & Hc1 & Hs).
    split; [by apply wf_insert|]. split; [done|].
    destruct Hr as [Hlr _]. destruct Hu as [Hlu _]. destruct Ho as [Hlo _].
    rewrite take_S_insert by lia.
    rewrite !take_S_total by lia.
    rewrite !value_snoc, !length_take_le by lia.
    rewrite pow64_S. nia.
Qed.

Lemma Add_value (N : nat) (u other : list Z) :
  wf N u -> wf N other ->
  wf N (Engine.Add N u other) /\
  value (Engine.Add N u other) = (value u + value other) mod 2 ^ (64 * Z.of_nat N).
Proof.
  intros Hu Ho. pose proof (Add_loop_inv N u other N Hu Ho (le_n _)) as H.
  unfold Engine.Add. destruct (foldl _ _ _) as [r c]. cbn [fst].
  destruct H as ([Hlr Hwr] & Hc & Hv). split; [done|].
  destruct Hu as [Hlu Hwu]. destruct Ho as [Hlo Hwo].
  rewrite !take_ge in Hv by lia.
  pose proof (value_bounds r Hwr) as Hbr. rewrite Hlr in Hbr.
  apply (Z.mod_unique _ _ c); [left; lia|]. lia.
Qed.

(** X6. [Add] is addition modulo 2^(64N): the carry out of the top word is
    dropped.  Adding zero changes nothing and the operands commute. *)
Theorem Add_wraps_around (N : nat) (a b : list Z) :
  wf N a -> wf N b ->
  wf N (Engine.Add N a b) /\
  value (Engine.Add N a b) = (value a + value b) mod 2 ^ (64 * Z.of_nat N) /\
  Engine.Add N a (Engine.ZERO N) = a /\
  Engine.Add N a b = Engine.Add N b a.
Proof.
  intros Ha Hb. destruct (Add_value N a b Ha Hb) as [Hw Hv].
  split; [done|]. split; [done|]. split.
  - destruct (Add_value N a (Engine.ZERO N) Ha (wf_zeroed N)) as [Hw0 Hv0].
    apply value_inj; [by rewrite (proj1 Hw0), (proj1 Ha) | apply Hw0 | apply Ha |].
    rewrite Hv0. unfold Engine.ZERO, Engine.zeroed. rewrite value_replicate_0, Z.add_0_r.
    apply Z.mod_small. pose proof (value_bounds a (proj2 Ha)) as B.
    by rewrite (proj1 Ha) in B.
  - destruct (Add_value N b a Hb Ha) as [Hw' Hv'].
    apply value_inj; [by rewrite (proj1 Hw), (proj1 Hw') | apply Hw | apply Hw' |].
    rewrite Hv, Hv'. f_equal. lia.
Qed.

Lemma Add_wraps_around_witness :
  wf 8 (Engine.Add 8 (Engine.MAX 8) (Engine.New 8 2)) /\
  value (Engine.Add 8 (Engine.MAX 8) (Engine.New 8 2))
    = (value (Engine.MAX 8) + value (Engine.New 8 2)) mod 2 ^ (64 * Z.of_nat 8) /\
  Engine.Add 8 (Engine.MAX 8) (Engine.ZERO 8) = Engine.MAX 8 /\
  Engine.Add 8 (Engine.MAX 8) (Engine.New 8 2) = Engine.Add 8 (Engine.New 8 2) (Engine.MAX 8).
Proof. apply (Add_wraps_around 8 (Engine.MAX 8) (Engine.New 8 2)); solve_wf. Defined.

(** X7. Addition and subtraction undo each other, whether or not they wrap. *)
Theorem Add_Sub_cancel (N : nat) (a b : list Z) :
  wf N a -> wf N b ->
  Engine.Sub N (Engine.Add N a b) b = a /\
  Engine.Add N (Engine.Sub N a b) b = a /\
  Engine.Sub N a a = Engine.ZERO N.
Proof.
  intros Ha Hb.
  pose proof (value_bounds a (proj2 Ha)) as Ba. rewrite (proj1 Ha) in Ba.
  destruct (Add_value N a b Ha Hb) as [Hw1 Hv1].
  pose proof (Sub_wf N _ _ Hw1 Hb) as Hw2. pose proof (value_Sub N _ _ Hw1 Hb) as Hv2.
  pose proof (Sub_wf N _ _ Ha Hb) as Hw3. pose proof (value_Sub N _ _ Ha Hb) as Hv3.
  destruct (Add_value N _ b Hw3 Hb) as [Hw4 Hv4].
  pose proof (Sub_wf N _ _ Ha Ha) as Hw5. pose proof (value_Sub N _ _ Ha Ha) as Hv5.
  split; [|split].
  - apply value_inj; [by rewrite (proj1 Hw2), (proj1 Ha) | apply Hw2 | apply Ha |].
    rewrite Hv2, Hv1, Zminus_mod_idemp_l.
    replace (value a + value b - value b) with (value a) by lia.
    by apply Z.mod_small.
  - apply value_inj; [by rewrite (proj1 Hw4), (proj1 Ha) | apply Hw4 | apply Ha |].
    rewrite Hv4, Hv3, Zplus_mod_idemp_l.
    replace (value a - value b + value b) with (value a) by lia.
    by apply Z.mod_small.
  - destruct (wf_zeroed N) as [Hl0 Hw0]. change (Engine.ZERO N) with (Engine.zeroed N).
    apply value_inj; [by rewrite (proj1 Hw5), Hl0 | apply Hw5 | apply Hw0 |].
    rewrite Hv5, Z.sub_diag. unfold Engine.zeroed.
    by rewrite value_replicate_0.
Qed.

Lemma Add_Sub_cancel_witness :
  Engine.Sub 8 (Engine.Add 8 (Engine.MAX 8) (Engine.New 8 2)) (Engine.New 8 2) = Engine.MAX 8 /\
  Engine.Add 8 (Engine.Sub 8 (Engine.MAX 8) (Engine.New 8 2)) (Engine.New 8 2) = Engine.MAX 8 /\
  Engine.Sub 8 (Engine.MAX 8) (Engine.MAX 8) = Engine.ZERO 8.
Proof. apply (Add_Sub_cancel 8 (Engine.MAX 8) (Engine.New 8 2)); solve_wf. Defined.


(** ** bitwise.go: the logical operations *)

Lemma testbit_cons (x v n : Z) :
  is_word x -> 0 <= v -> 0 <= n ->
  Z.testbit (x + 2 ^ 64 * v) n = if n <? 64 then Z.testbit x n else Z.testbit v (n - 64).
Proof.
  unfold is_word. intros Hx Hv Hn.
  rewrite <- (lor_disjoint_add x (2 ^ 64 * v) 64 v) by lia.
  rewrite Z.lor_spec, Z.mul_comm, <- Z.shiftl_mul_pow2 by lia.
  destruct (Z.ltb_spec n 64) as [Hlt|Hge].
  - rewrite Z.shiftl_spec_low by lia. apply orb_false_r.
  - rewrite Z.shiftl_spec by lia.
    rewrite <- (Z.mod_small x (2 ^ 64)) by lia.
    rewrite Z.mod_pow2_bits_high by lia. done.
Qed.

Lemma lxor_is_word (x y : Z) : is_word x -> is_word y -> is_word (Z.lxor x y).
Proof.
  unfold is_word. intros Hx Hy.
  assert (0 <= Z.lxor x y) as Hnn by (apply Z.lxor_nonneg; lia).
  split; [done|].
  assert (Z.lxor x y = Z.lxor x y mod 2 ^ 64) as E.
  { apply Z.bits_inj'. intros n Hn. rewrite Z.testbit_mod_pow2 by lia.
    destruct (Z.ltb_spec n 64); [done|]. rewrite Z.lxor_spec.
    rewrite <- (Z.mod_small x (2 ^ 64)), <- (Z.mod_small y (2 ^ 64)) by lia.
    rewrite !Z.mod_pow2_bits_high by lia. done. }
  rewrite E. apply Z.mod_pos_bound. lia.
Qed.

Lemma not64_is_word (x : Z) : is_word x -> is_word (not64 x).
Proof. unfold is_word, not64. lia. Qed.

Lemma land_nonneg2 (a b : Z) : 0 <= a -> 0 <= b -> 0 <= Z.land a b.
Proof. intros. apply Z.land_nonneg. by left. Qed.

Lemma lor_nonneg2 (a b : Z) : 0 <= a -> 0 <= b -> 0 <= Z.lor a b.
Proof. intros. by apply Z.lor_nonneg. Qed.

Lemma lxor_nonneg2 (a b : Z) : 0 <= a -> 0 <= b -> 0 <= Z.lxor a b.
Proof. intros. apply Z.lxor_nonneg. lia. Qed.

Section Bitwise.

Variable f : Z -> Z -> Z.
Variable g : bool -> bool -> bool.
Hypothesis f_word : forall x y, is_word x -> is_word y -> is_word (f x y).
Hypothesis f_nonneg : forall a b, 0 <= a -> 0 <= b -> 0 <= f a b.
Hypothesis f_bits : forall a b n, Z.testbit (f a b) n = g (Z.testbit a n) (Z.testbit b n).

Lemma bitwise_cons (x y a b : Z) :
  is_word x -> is_word y -> 0 <= a -> 0 <= b ->
  f (x + 2 ^ 64 * a) (y + 2 ^ 64 * b) = f x y + 2 ^ 64 * f a b.
Proof.
  intros Hx Hy Ha Hb. apply Z.bits_inj'. intros n Hn.
  rewrite f_bits, !testbit_cons by auto.
  destruct (n <? 64); by rewrite f_bits.
Qed.

Lemma value_map_bitwise (u o : list Z) :
  length u = length o -> Forall is_word u -> Forall is_word o ->
  Forall is_word (map (fun i => f (u !!! i) (o !!! i)) (seq 0 (length u))) /\
  value (map (fun i => f (u !!! i) (o !!! i)) (seq 0 (length u)))
  = f (value u) (value o).
Proof.
  revert o. induction u as [|x u IH]; intros [|y o] Hl Hu Ho; try discriminate.
  - split; [constructor|]. cbn [length seq map value].
    apply Z.bits_inj'. intros n Hn. rewrite f_bits, Z.bits_0.
    pose proof (f_bits 0 0 (-1)) as H. rewrite !Z.testbit_neg_r in H by lia.
    by rewrite <- H.
  - inversion Hu as [|? ? Hx Hu']; inversion Ho as [|? ? Hy Ho']; subst.
    destruct (IH o ltac:(simpl in Hl; lia) Hu' Ho') as [IHw IHv].
    cbn [length seq map]. rewrite <- seq_shift, map_map.
    change (map (fun i => f ((x :: u) !!! S i) ((y :: o) !!! S i)) (seq 0 (length u)))
      with (map (fun i => f (u !!! i) (o !!! i)) (seq 0 (length u))).
    change ((x :: u) !!! 0%nat) with x. change ((y :: o) !!! 0%nat) with y.
    split.
    + constructor; [by apply f_word|done].
    + cbn [value]. rewrite IHv.
      symmetry. apply bitwise_cons; auto using value_nonneg.
Qed.

Lemma copy_loop_bitwise (N : nat) (u o : list Z) :
  wf N u -> wf N o ->
  let r := foldl (fun result i => <[i := f (u !!! i) (o !!! i)]> result)
                 (Engine.zeroed N) (seq 0 N) in
  wf N r /\ value r = f (value u) (value o).
Proof.
  intros [Hlu Hwu] [Hlo Hwo]. cbv zeta.
  rewrite foldl_insert_asc by (unfold Engine.zeroed; rewrite length_replicate; lia).
  unfold Engine.zeroed. rewrite drop_replicate, Nat.sub_diag, app_nil_r.
  destruct (value_map_bitwise u o ltac:(lia) Hwu Hwo) as [Hw Hv].
  rewrite Hlu in Hw, Hv. split; [|done].
  split; [|done]. by rewrite length_map, length_seq.
Qed.

(** An in-place loop runs through the states of the copying one. *)
Lemma in_place_loop_bitwise (u : list Z) (other : operand) (m : nat) :
  (m <= length u)%nat ->
  foldl (fun u i => <[i := f (u !!! i) (operand_words u other !!! i)]> u) u (seq 0 m)
  = map (fun i => f (u !!! i) (operand_words u other !!! i)) (seq 0 m) ++ drop m u.
Proof.
  induction m as [|m IH]; intros Hm; [by rewrite drop_0|].
  rewrite seq_snoc, foldl_snoc, IH by lia.
  set (pre := map _ (seq 0 m)).
  assert (length pre = m) as Hpre by (unfold pre; by rewrite length_map, length_seq).
  assert ((pre ++ drop m u) !!! m = u !!! m) as E1.
  { rewrite lookup_total_app_r by lia. rewrite Hpre, Nat.sub_diag, lookup_total_drop.
    f_equal. lia. }
  assert (operand_words (pre ++ drop m u) other !!! m = operand_words u other !!! m) as E2.
  { destruct other; [exact E1|done]. }
  rewrite E1, E2, map_app. cbn [map].
  rewrite insert_app_r_alt by lia. rewrite Hpre, Nat.sub_diag.
  rewrite (drop_S u (u !!! m) m) by (apply lookup_total_lt; lia).
  cbn [insert list_insert]. by rewrite <- app_assoc.
Qed.

Lemma bitwise_in_place_is_copy (N : nat) (u : list Z) (other : operand) :
  length u = N ->
  foldl (fun u i => <[i := f (u !!! i) (operand_words u other !!! i)]> u) u (seq 0 N)
  = foldl (fun result i => <[i := f (u !!! i) (operand_words u other !!! i)]> result)
          (Engine.zeroed N) (seq 0 N).
Proof.
  intros Hl. rewrite in_place_loop_bitwise by lia.
  rewrite foldl_insert_asc by (unfold Engine.zeroed; rewrite length_replicate; lia).
  unfold Engine.zeroed. rewrite drop_replicate, Nat.sub_diag, drop_ge by lia. done.
Qed.

End Bitwise.

Lemma Not_value (N : nat) (u : list Z) :
  wf N u ->
  wf N (Engine.Not N u) /\
  value (Engine.Not N u) = 2 ^ (64 * Z.of_nat N) - 1 - value u.
Proof.
  intros [Hl Hw]. unfold Engine.Not.
  rewrite foldl_insert_asc by (unfold Engine.zeroed; rewrite length_replicate; lia).
  unfold Engine.zeroed. rewrite drop_replicate, Nat.sub_diag, app_nil_r.
  rewrite <- Hl. clear Hl.
  assert (Forall is_word (map (fun i => not64 (u !!! i)) (seq 0 (length u))) /\
          value (map (fun i => not64 (u !!! i)) (seq 0 (length u)))
          = 2 ^ (64 * Z.of_nat (length u)) - 1 - value u) as [H1 H2].
  { induction Hw as [|x u Hx Hw [IHw IHv]]; [by split|].
    cbn [length seq map]. rewrite <- seq_shift, map_map.
    change (map (fun i => not64 ((x :: u) !!! S i)) (seq 0 (length u)))
      with (map (fun i => not64 (u !!! i)) (seq 0 (length u))).
    change ((x :: u) !!! 0%nat) with x. split.
    - constructor; [by apply not64_is_word|done].
    - cbn [value]. rewrite IHv, pow64_S. unfold not64. ring. }
  split; [|done]. split; [|done]. by rewrite length_map, length_seq.
Qed.

Lemma And_Or_Xor_values (N : nat) (a b : list Z) :
  wf N a -> wf N b ->
  (wf N (Engine.And N a b) /\ value (Engine.And N a b) = Z.land (value a) (value b)) /\
  (wf N (Engine.Or N a b) /\ value (Engine.Or N a b) = Z.lor (value a) (value b)) /\
  (wf N (Engine.Xor N a b) /\ value (Engine.Xor N a b) = Z.lxor (value a) (value b)).
Proof.
  intros Ha Hb. split; [|split].
  - apply (copy_loop_bitwise Z.land andb land_is_word land_nonneg2 Z.land_spec N a b Ha Hb).
  - apply (copy_loop_bitwise Z.lor orb lor_is_word lor_nonneg2 Z.lor_spec N a b Ha Hb).
  - apply (copy_loop_bitwise Z.lxor xorb lxor_is_word lxor_nonneg2 Z.lxor_spec N a b Ha Hb).
Qed.

(** X8. [And], [Or] and [Xor] are the bitwise operations on the values, and
    [Not] is the complement within 64N bits. *)
Theorem logical_operations_on_values (N : nat) (a b : list Z) :
  wf N a -> wf N b ->
  (wf N (Engine.And N a b) /\ value (Engine.And N a b) = Z.land (value a) (value b)) /\
  (wf N (Engine.Or N a b) /\ value (Engine.Or N a b) = Z.lor (value a) (value b)) /\
  (wf N (Engine.Xor N a b) /\ value (Engine.Xor N a b) = Z.lxor (value a) (value b)) /\
  (wf N (Engine.Not N a) /\
   value (Engine.Not N a) = 2 ^ (64 * Z.of_nat N) - 1 - value a).
Proof.
  intros Ha Hb.
  destruct (And_Or_Xor_values N a b Ha Hb) as (H1 & H2 & H3).
  repeat split; try apply H1; try apply H2; try apply H3; by apply Not_value.
Qed.

Lemma logical_operations_on_values_witness :
  (wf 8 (Engine.And 8 (Engine.New 8 12) (Engine.New 8 10)) /\
   value (Engine.And 8 (Engine.New 8 12) (Engine.New 8 10))
   = Z.land (value (Engine.New 8 12)) (value (Engine.New 8 10))) /\
  (wf 8 (Engine.Or 8 (Engine.New 8 12) (Engine.New 8 10)) /\
   value (Engine.Or 8 (Engine.New 8 12) (Engine.New 8 10))
   = Z.lor (value (Engine.New 8 12)) (value (Engine.New 8 10))) /\
  (wf 8 (Engine.Xor 8 (Engine.New 8 12) (Engine.New 8 10)) /\
   value (Engine.Xor 8 (Engine.New 8 12) (Engine.New 8 10))
   = Z.lxor (value (Engine.New 8 12)) (value (Engine.New 8 10))) /\
  (wf 8 (Engine.Not 8 (Engine.New 8 12)) /\
   value (Engine.Not 8 (Engine.New 8 12))
   = 2 ^ (64 * Z.of_nat 8) - 1 - value (Engine.New 8 12)).
Proof.
  apply (logical_operations_on_values 8 (Engine.New 8 12) (Engine.New 8 10)); solve_wf.
Defined.

(** X9. The in-place logical operations leave in the receiver what the copying
    ones return, also when the operand is the receiver itself. *)
Theorem logical_in_place_agrees (N : nat) (a : list Z) (b : operand) :
  wf N a ->
  Engine.AndInPlace N a b = Engine.And N a (operand_words a b) /\
  Engine.OrInPlace N a b = Engine.Or N a (operand_words a b) /\
  Engine.XorInPlace N a b = Engine.Xor N a (operand_words a b) /\
  Engine.NotInPlace N a = Engine.Not N a.
Proof.
  intros [Hl _]. split; [|split; [|split]].
  - apply (bitwise_in_place_is_copy Z.land N a b Hl).
  - apply (bitwise_in_place_is_copy Z.lor N a b Hl).
  - apply (bitwise_in_place_is_copy Z.lxor N a b Hl).
  - apply (bitwise_in_place_is_copy (fun x _ => not64 x) N a Aliased Hl).
Qed.

Lemma logical_in_place_agrees_witness :
  Engine.AndInPlace 8 (Engine.New 8 12) Aliased
    = Engine.And 8 (Engine.New 8 12) (operand_words (Engine.New 8 12) Aliased) /\
  Engine.OrInPlace 8 (Engine.New 8 12) Aliased
    = Engine.Or 8 (Engine.New 8 12) (operand_words (Engine.New 8 12) Aliased) /\
  Engine.XorInPlace 8 (Engine.New 8 12) Aliased
    = Engine.Xor 8 (Engine.New 8 12) (operand_words (Engine.New 8 12) Aliased) /\
  Engine.NotInPlace 8 (Engine.New 8 12) = Engine.Not 8 (Engine.New 8 12).
Proof.
  apply (logical_in_place_agrees 8 (Engine.New 8 12) Aliased). solve_wf.
Defined.

Lemma MAX_value (N : nat) :
  wf N (Engine.MAX N) /\ value (Engine.MAX N) = 2 ^ (64 * Z.of_nat N) - 1.
Proof.
  unfold Engine.MAX. split.
  - split; [apply length_replicate|]. apply Forall_replicate. unfold is_word. lia.
  - induction N as [|n IH]; [done|].
    cbn [replicate value]. rewrite IH, pow64_S. ring.
Qed.

(** X10. The complement laws: complementing twice gives the value back, a value
    and its complement share no bit and together have every bit, and a value
    XORed with itself is zero. *)
Theorem complement_laws (N : nat) (a : list Z) :
  wf N a ->
  Engine.Not N (Engine.Not N a) = a /\
  Engine.And N a (Engine.Not N a) = Engine.ZERO N /\
  Engine.Or N a (Engine.Not N a) = Engine.MAX N /\
  Engine.Xor N a a = Engine.ZERO N.
Proof.
  intros Ha. pose proof (value_bounds a (proj2 Ha)) as Ba. rewrite (proj1 Ha) in Ba.
  destruct (Not_value N a Ha) as [Hn Vn].
  destruct (Not_value N _ Hn) as [Hnn Vnn].
  destruct (And_Or_Xor_values N a (Engine.Not N a) Ha Hn)
    as ((Hand & Vand) & (Hor & Vor) & _).
  destruct (And_Or_Xor_values N a a Ha Ha) as (_ & _ & (Hx & Vx)).
  destruct (MAX_value N) as [Hm Vm]. destruct (wf_zeroed N) as [Hl0 Hw0].
  set (W := 64 * Z.of_nat N) in *.
  assert (2 ^ W - 1 - value a = Z.land (Z.lnot (value a)) (Z.ones W)) as Ec.
  { rewrite Z.land_ones by lia. unfold Z.lnot, Z.pred.
    apply (Z.mod_unique _ _ (-1)); [left|]; lia. }
  assert (value a = Z.land (value a) (Z.ones W)) as Ea.
  { rewrite Z.land_ones by lia. symmetry. by apply Z.mod_small. }
  split; [|split; [|split]].
  - apply value_inj; [by rewrite (proj1 Hnn), (proj1 Ha) | apply Hnn | apply Ha |].
    rewrite Vnn, Vn. ring.
  - change (Engine.ZERO N) with (Engine.zeroed N).
    apply value_inj; [by rewrite (proj1 Hand), Hl0 | apply Hand | apply Hw0 |].
    unfold Engine.zeroed. rewrite value_replicate_0, Vand, Vn, Ec.
    rewrite Z.land_assoc, Z.land_lnot_diag. apply Z.land_0_l.
  - apply value_inj; [by rewrite (proj1 Hor), (proj1 Hm) | apply Hor | apply Hm |].
    rewrite Vor, Vn, Vm, Ec. rewrite Ea at 1.
    rewrite <- Z.land_lor_distr_l, Z.lor_lnot_diag, Z.land_m1_l.
    by rewrite Z.ones_equiv.
  - change (Engine.ZERO N) with (Engine.zeroed N).
    apply value_inj; [by rewrite (proj1 Hx), Hl0 | apply Hx | apply Hw0 |].
    unfold Engine.zeroed. by rewrite value_replicate_0, Vx, Z.lxor_nilpotent.
Qed.

Lemma complement_laws_witness :
  Engine.Not 8 (Engine.Not 8 (Engine.New 8 12)) = Engine.New 8 12 /\
  Engine.And 8 (Engine.New 8 12) (Engine.Not 8 (Engine.New 8 12)) = Engine.ZERO 8 /\
  Engine.Or 8 (Engine.New 8 12) (Engine.Not 8 (Engine.New 8 12)) = Engine.MAX 8 /\
  Engine.Xor 8 (Engine.New 8 12) (Engine.New 8 12) = Engine.ZERO 8.
Proof. apply (complement_laws 8 (Engine.New 8 12)). solve_wf. Defined.


(** ** bitwise.go: the shifts as arithmetic *)

(** X11. A left shift by [n] multiplies by 2^n and drops what leaves the 64N
    bits; a right shift by [n] is the floor division by 2^n. *)
Theorem shifts_multiply_and_divide (N : nat) (a : list Z) (n : Z) :
  wf N a -> 0 <= n ->
  wf N (Engine.Shl N a n) /\
  value (Engine.Shl N a n) = (value a * 2 ^ n) mod 2 ^ (64 * Z.of_nat N) /\
  wf N (Engine.Shr N a n) /\
  value (Engine.Shr N a n) = value a / 2 ^ n.
Proof.
  intros Ha Hn. unfold Engine.Shl, Engine.Shr. rewrite !Clone_wf by apply Ha.
  destruct (ShlInPlace_value N a n Ha Hn) as [H1 H2].
  destruct (ShrInPlace_value N a n Ha Hn) as [H3 H4].
  done.
Qed.

Lemma shifts_multiply_and_divide_witness :
  wf 8 (Engine.Shl 8 (Engine.New 8 5) 70) /\
  value (Engine.Shl 8 (Engine.New 8 5) 70)
  = (value (Engine.New 8 5) * 2 ^ 70) mod 2 ^ (64 * Z.of_nat 8) /\
  wf 8 (Engine.Shr 8 (Engine.New 8 5) 70) /\
  value (Engine.Shr 8 (Engine.New 8 5) 70) = value (Engine.New 8 5) / 2 ^ 70.
Proof. apply (shifts_multiply_and_divide 8 (Engine.New 8 5) 70); [solve_wf|lia]. Defined.

(** X12. Two shifts in the same direction are one shift by the sum of the counts
    (as long as the sum is a Go [uint]). *)
Theorem shifts_compose (N : nat) (a : list Z) (m n : Z) :
  wf N a -> 0 <= m -> 0 <= n -> m + n < 2 ^ 64 ->
  Engine.Shl N (Engine.Shl N a m) n = Engine.Shl N a (m + n) /\
  Engine.Shr N (Engine.Shr N a m) n = Engine.Shr N a (m + n).
Proof.
  intros Ha Hm Hn _. pose proof (value_bounds a (proj2 Ha)) as Ba.
  rewrite (proj1 Ha) in Ba. set (W := 64 * Z.of_nat N) in *.
  unfold Engine.Shl, Engine.Shr. rewrite (Clone_wf N a) by apply Ha.
  destruct (ShlInPlace_value N a m Ha Hm) as [L1 V1].
  destruct (ShrInPlace_value N a m Ha Hm) as [R1 V1'].
  rewrite (Clone_wf N _ (proj1 L1)), (Clone_wf N _ (proj1 R1)).
  destruct (ShlInPlace_value N _ n L1 Hn) as [L2 V2].
  destruct (ShrInPlace_value N _ n R1 Hn) as [R2 V2'].
  destruct (ShlInPlace_value N a (m + n) Ha ltac:(lia)) as [L3 V3].
  destruct (ShrInPlace_value N a (m + n) Ha ltac:(lia)) as [R3 V3'].
  fold W in V1, V2, V3.
  split.
  - apply value_inj; [by rewrite (proj1 L2), (proj1 L3) | apply L2 | apply L3 |].
    rewrite V2, V3, V1, Z.mul_mod_idemp_l by lia.
    by rewrite Z.pow_add_r, Z.mul_assoc by lia.
  - apply value_inj; [by rewrite (proj1 R2), (proj1 R3) | apply R2 | apply R3 |].
    rewrite V2', V3', V1', Z.pow_add_r by lia.
    rewrite Z.div_div by lia. done.
Qed.

Lemma shifts_compose_witness :
  Engine.Shl 8 (Engine.Shl 8 (Engine.New 8 5) 70) 3 = Engine.Shl 8 (Engine.New 8 5) (70 + 3) /\
  Engine.Shr 8 (Engine.Shr 8 (Engine.New 8 5) 1) 1 = Engine.Shr 8 (Engine.New 8 5) (1 + 1).
Proof.
  split.
  - apply (shifts_compose 8 (Engine.New 8 5) 70 3); [solve_wf|lia..].
  - apply (shifts_compose 8 (Engine.New 8 5) 1 1); [solve_wf|lia..].
Defined.


(** ** bitwise.go: single bits *)

Lemma testbit_high (v K k : Z) :
  0 <= v < 2 ^ K -> 0 <= K <= k -> Z.testbit v k = false.
Proof.
  intros Hv Hk. rewrite <- (Z.mod_small v (2 ^ K)) by lia.
  apply Z.mod_pow2_bits_high. lia.
Qed.

Lemma testbit_value_div (ws : list Z) (k : Z) :
  Forall is_word ws -> 0 <= k < 64 * Z.of_nat (length ws) ->
  Z.testbit (value ws) k = Z.testbit (ws !!! Z.to_nat (k / 64)) (k mod 64).
Proof.
  intros Hw Hk.
  pose proof (Z.div_mod k 64 ltac:(lia)) as Ek.
  pose proof (Z.mod_pos_bound k 64 ltac:(lia)) as Bk.
  assert (0 <= k / 64) as Hq by (apply Z.div_pos; lia).
  rewrite <- testbit_value by (done || lia). f_equal. lia.
Qed.

Lemma testbit_value_insert (ws : list Z) (wi : nat) (w' : Z) (k : Z) :
  Forall is_word ws -> (wi < length ws)%nat -> is_word w' -> 0 <= k ->
  Z.testbit (value (<[wi := w']> ws)) k
  = if k / 64 =? Z.of_nat wi then Z.testbit w' (k mod 64) else Z.testbit (value ws) k.
Proof.
  intros Hw Hwi Hw' Hk.
  assert (Forall is_word (<[wi := w']> ws)) as Hw2.
  { apply Forall_insert; done. }
  pose proof (Z.div_mod k 64 ltac:(lia)) as Ek.
  pose proof (Z.mod_pos_bound k 64 ltac:(lia)) as Bk.
  assert (0 <= k / 64) as Hq by (apply Z.div_pos; lia).
  destruct (Z_lt_le_dec k (64 * Z.of_nat (length ws))) as [Hin|Hout].
  - assert (Z.to_nat (k / 64) < length ws)%nat as Hlt by lia.
    rewrite !testbit_value_div by (rewrite ?length_insert; done || lia).
    destruct (Z.eqb_spec (k / 64) (Z.of_nat wi)) as [E|E].
    + replace (Z.to_nat (k / 64)) with wi by lia.
      by rewrite list_lookup_total_insert_eq by lia.
    + by rewrite list_lookup_total_insert_ne by lia.
  - pose proof (value_bounds _ Hw) as B1. pose proof (value_bounds _ Hw2) as B2.
    rewrite length_insert in B2.
    destruct (Z.eqb_spec (k / 64) (Z.of_nat wi)) as [E|E]; [lia|].
    rewrite (testbit_high _ (64 * Z.of_nat (length ws)) k) by lia.
    rewrite (testbit_high _ (64 * Z.of_nat (length ws)) k) by lia. done.
Qed.

Lemma pow2_is_word (k : Z) : 0 <= k < 64 -> is_word (2 ^ k).
Proof.
  intros Hk. unfold is_word. split; [lia|]. apply Z.pow_lt_mono_r; lia.
Qed.

Lemma not64_testbit (y k : Z) :
  is_word y -> 0 <= k < 64 -> Z.testbit (not64 y) k = negb (Z.testbit y k).
Proof.
  unfold is_word, not64. intros Hy Hk.
  replace (2 ^ 64 - 1 - y) with (Z.lnot y mod 2 ^ 64).
  - rewrite Z.mod_pow2_bits_low by lia. apply Z.lnot_spec. lia.
  - symmetry. unfold Z.lnot, Z.pred. apply (Z.mod_unique _ _ (-1)); [left|]; lia.
Qed.

(** The word a bit update writes, bit by bit. *)
Lemma SetBit_word (w bi k : Z) :
  0 <= bi < 64 -> 0 <= k < 64 ->
  Z.testbit (Z.lor w (shl64 1 bi)) k = (bi =? k) || Z.testbit w k.
Proof.
  intros Hb Hk. rewrite shl64_one, Z.lor_spec, Z.pow2_bits_eqb by lia.
  apply orb_comm.
Qed.

Lemma ClearBit_word (w bi k : Z) :
  0 <= bi < 64 -> 0 <= k < 64 ->
  Z.testbit (andnot64 w (shl64 1 bi)) k = Z.testbit w k && negb (bi =? k).
Proof.
  intros Hb Hk. unfold andnot64.
  rewrite shl64_one, Z.land_spec, not64_testbit, Z.pow2_bits_eqb
    by (lia || by apply pow2_is_word).
  done.
Qed.

Lemma FlipBit_word (w bi k : Z) :
  0 <= bi < 64 -> 0 <= k < 64 ->
  Z.testbit (Z.lxor w (shl64 1 bi)) k = xorb (Z.testbit w k) (bi =? k).
Proof.
  intros Hb Hk. by rewrite shl64_one, Z.lxor_spec, Z.pow2_bits_eqb by lia.
Qed.

Lemma bit_index_eqb (wi : nat) (bi k : Z) :
  0 <= bi < 64 -> 0 <= k -> k / 64 = Z.of_nat wi ->
  (bi =? k mod 64) = (64 * Z.of_nat wi + bi =? k).
Proof.
  intros Hb Hk E. pose proof (Z.div_mod k 64 ltac:(lia)) as Ek.
  destruct (Z.eqb_spec bi (k mod 64)), (Z.eqb_spec (64 * Z.of_nat wi + bi) k);
    (done || lia).
Qed.

Lemma bit_index_neq (wi : nat) (bi k : Z) :
  0 <= bi < 64 -> 0 <= k -> k / 64 <> Z.of_nat wi ->
  (64 * Z.of_nat wi + bi =? k) = false.
Proof.
  intros Hb Hk E. apply Z.eqb_neq. intros <-. apply E.
  symmetry. apply (Z.div_unique _ _ _ bi); lia.
Qed.

Lemma value_testbit_word (N : nat) (u : list Z) (wi : nat) (k : Z) :
  wf N u -> (wi < N)%nat -> 0 <= k -> k / 64 = Z.of_nat wi ->
  Z.testbit (u !!! wi) (k mod 64) = Z.testbit (value u) k.
Proof.
  intros [Hl Hw] Hwi Hk E.
  pose proof (Z.div_mod k 64 ltac:(lia)) as Ek.
  pose proof (Z.mod_pos_bound k 64 ltac:(lia)) as Bk.
  rewrite Ek at 2. rewrite E. symmetry. apply testbit_value; (done || lia).
Qed.

Lemma bit_update_values (N : nat) (a : list Z) (i : Z) :
  wf N a -> 0 <= i < 64 * Z.of_nat N ->
  (wf N (Engine.SetBit N a i) /\
   value (Engine.SetBit N a i) = Z.setbit (value a) i) /\
  (wf N (Engine.ClearBit N a i) /\
   value (Engine.ClearBit N a i) = Z.clearbit (value a) i) /\
  (wf N (Engine.FlipBit N a i) /\
   value (Engine.FlipBit N a i) = Z.lxor (value a) (2 ^ i)).
Proof.
  intros Ha Hi. pose proof Ha as [Hl Hw].
  unfold Engine.SetBit, Engine.ClearBit, Engine.FlipBit, Engine.out_of_range.
  destruct (Z.ltb_spec i 0) as [?|_]; [lia|].
  rewrite Z.geb_leb. destruct (Z.leb_spec (64 * Z.of_nat N) i) as [?|_]; [lia|].
  cbn [orb].
  destruct (bit_index_split N i Hi) as (Hwi & Hbi & Ei).
  set (wi := Z.to_nat (Z.quot i 64)) in *. set (bi := Z.rem i 64) in *.
  assert (is_word (a !!! wi)) as Hx by (by apply is_word_lookup).
  assert (is_word (2 ^ bi)) as Hp by (by apply pow2_is_word).
  assert (is_word (Z.lor (a !!! wi) (shl64 1 bi))) as W1.
  { rewrite shl64_one by done. by apply lor_is_word. }
  assert (is_word (andnot64 (a !!! wi) (shl64 1 bi))) as W2.
  { unfold andnot64. rewrite shl64_one by done.
    apply land_is_word; [done|]. unfold is_word, not64 in *. lia. }
  assert (is_word (Z.lxor (a !!! wi) (shl64 1 bi))) as W3.
  { rewrite shl64_one by done. by apply lxor_is_word. }
  assert (forall k, 0 <= k -> k / 64 = Z.of_nat wi ->
            (bi =? k mod 64) = (i =? k) /\
            Z.testbit (a !!! wi) (k mod 64) = Z.testbit (value a) k /\
            0 <= k mod 64 < 64) as Hsame.
  { intros k Hk E. rewrite Ei. split; [|split].
    - by apply bit_index_eqb.
    - by apply (value_testbit_word N).
    - apply Z.mod_pos_bound. lia. }
  assert (forall k, 0 <= k -> k / 64 <> Z.of_nat wi -> (i =? k) = false) as Hother.
  { intros k Hk E. rewrite Ei. by apply bit_index_neq. }
  split; [|split]; (split; [by apply wf_insert|]);
    apply Z.bits_inj'; intros k Hk;
    rewrite testbit_value_insert by (done || lia);
    (destruct (Z.eqb_spec (k / 64) (Z.of_nat wi)) as [E|E];
     [destruct (Hsame k Hk E) as (E1 & E2 & Bk) | pose proof (Hother k Hk E) as E1]).
  - rewrite SetBit_word, Z.setbit_eqb by lia. by rewrite E1, E2.
  - rewrite Z.setbit_eqb, E1 by lia. done.
  - rewrite ClearBit_word, Z.clearbit_eqb by lia. by rewrite E1, E2.
  - rewrite Z.clearbit_eqb, E1 by lia. cbn [negb]. by rewrite andb_true_r.
  - rewrite FlipBit_word, Z.lxor_spec, Z.pow2_bits_eqb by lia. by rewrite E1, E2.
  - rewrite Z.lxor_spec, Z.pow2_bits_eqb, E1 by lia. by rewrite xorb_false_r.
Qed.

(** X13. Within the width, [Bit] reads the bit of the value, [SetBit] sets it,
    [ClearBit] clears it and [FlipBit] inverts it; no other bit changes. *)
Theorem bit_operations_on_values (N : nat) (a : list Z) (i : Z) :
  wf N a -> 0 <= i < 64 * Z.of_nat N ->
  Engine.Bit N a i = Z.testbit (value a) i /\
  (wf N (Engine.SetBit N a i) /\
   value (Engine.SetBit N a i) = Z.setbit (value a) i) /\
  (wf N (Engine.ClearBit N a i) /\
   value (Engine.ClearBit N a i) = Z.clearbit (value a) i) /\
  (wf N (Engine.FlipBit N a i) /\
   value (Engine.FlipBit N a i) = Z.lxor (value a) (2 ^ i)).
Proof.
  intros Ha Hi. split; [by apply Bit_value | by apply bit_update_values].
Qed.

Lemma bit_operations_on_values_witness :
  Engine.Bit 8 (Engine.New 8 5) 70 = Z.testbit (value (Engine.New 8 5)) 70 /\
  (wf 8 (Engine.SetBit 8 (Engine.New 8 5) 70) /\
   value (Engine.SetBit 8 (Engine.New 8 5) 70) = Z.setbit (value (Engine.New 8 5)) 70) /\
  (wf 8 (Engine.ClearBit 8 (Engine.New 8 5) 70) /\
   value (Engine.ClearBit 8 (Engine.New 8 5) 70) = Z.clearbit (value (Engine.New 8 5)) 70) /\
  (wf 8 (Engine.FlipBit 8 (Engine.New 8 5) 70) /\
   value (Engine.FlipBit 8 (Engine.New 8 5) 70) = Z.lxor (value (Engine.New 8 5)) (2 ^ 70)).
Proof. apply (bit_operations_on_values 8 (Engine.New 8 5) 70); [solve_wf|lia]. Defined.

Lemma Bit_testbit (N : nat) (a : list Z) (j : Z) :
  wf N a ->
  Engine.Bit N a j = (0 <=? j) && (j <? 64 * Z.of_nat N) && Z.testbit (value a) j.
Proof.
  intros Ha.
  destruct (Z.leb_spec 0 j) as [H0|H0]; [destruct (Z.ltb_spec j (64 * Z.of_nat N)) as [H1|H1]|].
  - cbn [andb]. apply Bit_value; (done || lia).
  - unfold Engine.Bit, Engine.out_of_range. rewrite Z.geb_leb.
    destruct (Z.leb_spec (64 * Z.of_nat N) j); [|lia]. by rewrite orb_true_r.
  - unfold Engine.Bit, Engine.out_of_range.
    destruct (Z.ltb_spec j 0); [done|lia].
Qed.

(** X14. Reading back after an update: [SetBit], [ClearBit] and [FlipBit] at an
    index within the width change what [Bit] returns at that index only;
    flipping twice restores the value, and clearing undoes setting. *)
Theorem bit_updates_read_back (N : nat) (a : list Z) (i j : Z) :
  wf N a -> 0 <= i < 64 * Z.of_nat N ->
  Engine.Bit N (Engine.SetBit N a i) j = (i =? j) || Engine.Bit N a j /\
  Engine.Bit N (Engine.ClearBit N a i) j = negb (i =? j) && Engine.Bit N a j /\
  Engine.Bit N (Engine.FlipBit N a i) j = xorb (i =? j) (Engine.Bit N a j) /\
  Engine.FlipBit N (Engine.FlipBit N a i) i = a /\
  Engine.ClearBit N (Engine.SetBit N a i) i = Engine.ClearBit N a i /\
  Engine.SetBit N (Engine.ClearBit N a i) i = Engine.SetBit N a i.
Proof.
  intros Ha Hi.
  destruct (bit_update_values N a i Ha Hi) as ((Ws & Vs) & (Wc & Vc) & (Wf & Vf)).
  destruct (bit_update_values N _ i Wf Hi) as (_ & _ & (Wff & Vff)).
  destruct (bit_update_values N _ i Ws Hi) as (_ & (Wsc & Vsc) & _).
  destruct (bit_update_values N _ i Wc Hi) as ((Wcs & Vcs) & _ & _).
  rewrite !Bit_testbit by done. rewrite Vs, Vc, Vf.
  rewrite Z.setbit_eqb, Z.clearbit_eqb, Z.lxor_spec, Z.pow2_bits_eqb by lia.
  repeat split.
  - destruct (Z.eqb_spec i j) as [<-|_]; [|done].
    destruct (Z.leb_spec 0 i), (Z.ltb_spec i (64 * Z.of_nat N)); (done || lia).
  - destruct (Z.eqb_spec i j); cbn [negb andb];
      by rewrite ?andb_false_r, ?andb_true_r.
  - destruct (Z.eqb_spec i j) as [<-|_].
    + destruct (Z.leb_spec 0 i), (Z.ltb_spec i (64 * Z.of_nat N)); try lia.
      cbn [andb]. apply xorb_comm.
    + by rewrite xorb_false_r, xorb_false_l.
  - apply value_inj; [by rewrite (proj1 Wff), (proj1 Ha) | apply Wff | apply Ha |].
    rewrite Vff, Vf, Z.lxor_assoc, Z.lxor_nilpotent. apply Z.lxor_0_r.
  - apply value_inj; [by rewrite (proj1 Wsc), (proj1 Wc) | apply Wsc | apply Wc |].
    rewrite Vsc, Vs, Vc. apply Z.bits_inj'. intros k Hk.
    rewrite !Z.clearbit_eqb, Z.setbit_eqb by lia.
    destruct (Z.eqb_spec i k); cbn [negb orb]; by rewrite ?andb_false_r.
  - apply value_inj; [by rewrite (proj1 Wcs), (proj1 Ws) | apply Wcs | apply Ws |].
    rewrite Vcs, Vs, Vc. apply Z.bits_inj'. intros k Hk.
    rewrite !Z.setbit_eqb, Z.clearbit_eqb by lia.
    destruct (Z.eqb_spec i k); cbn [negb orb]; by rewrite ?andb_true_r.
Qed.

Lemma bit_updates_read_back_witness :
  Engine.Bit 8 (Engine.SetBit 8 (Engine.New 8 5) 70) 70
    = (70 =? 70) || Engine.Bit 8 (Engine.New 8 5) 70 /\
  Engine.Bit 8 (Engine.ClearBit 8 (Engine.New 8 5) 70) 70
    = negb (70 =? 70) && Engine.Bit 8 (Engine.New 8 5) 70 /\
  Engine.Bit 8 (Engine.FlipBit 8 (Engine.New 8 5) 70) 70
    = xorb (70 =? 70) (Engine.Bit 8 (Engine.New 8 5) 70) /\
  Engine.FlipBit 8 (Engine.FlipBit 8 (Engine.New 8 5) 70) 70 = Engine.New 8 5 /\
  Engine.ClearBit 8 (Engine.SetBit 8 (Engine.New 8 5) 70) 70
    = Engine.ClearBit 8 (Engine.New 8 5) 70 /\
  Engine.SetBit 8 (Engine.ClearBit 8 (Engine.New 8 5) 70) 70
    = Engine.SetBit 8 (Engine.New 8 5) 70.
Proof. apply (bit_updates_read_back 8 (Engine.New 8 5) 70 70); [solve_wf|lia]. Defined.


(** ** bitwise.go: counting bits *)

Lemma log2_cons (v x m : Z) :
  0 <= m -> 0 <= v < 2 ^ m -> 0 < x ->
  Z.log2 (v + 2 ^ m * x) = m + Z.log2 x.
Proof.
  intros Hm Hv Hx. pose proof (Z.log2_spec x Hx) as [L1 L2].
  pose proof (Z.log2_nonneg x) as L0.
  apply Z.log2_unique; [lia|].
  rewrite <- Z.add_succ_r, !Z.pow_add_r by lia.
  assert (0 < 2 ^ m) as Pm by (apply Z.pow_pos_nonneg; lia).
  split; [nia|].
  assert (2 ^ m * (x + 1) <= 2 ^ m * 2 ^ Z.succ (Z.log2 x)) by (apply Z.mul_le_mono_nonneg_l; lia).
  lia.
Qed.

Lemma LeadingZeros_loop_value (N : nat) (u : list Z) (m : nat) :
  Forall is_word u -> (m <= length u)%nat -> (m <= N)%nat ->
  Engine.LeadingZeros_loop N (rev (seq 0 m)) u
  = if value (take m u) =? 0 then 64 * Z.of_nat N
    else 64 * Z.of_nat N - 1 - Z.log2 (value (take m u)).
Proof.
  intros Hw. induction m as [|m IH]; intros Hm HN.
  - by rewrite take_0.
  - rewrite seq_snoc, rev_app_distr. cbn [rev app Engine.LeadingZeros_loop].
    rewrite (take_S_total u m) by lia. rewrite value_snoc, length_take_le by lia.
    assert (is_word (u !!! m)) as Hx by (by apply is_word_lookup).
    pose proof (value_bounds (take m u) (Forall_take _ _ _ Hw)) as Bv.
    rewrite length_take_le in Bv by lia.
    destruct (Z.eqb_spec (u !!! m) 0) as [E|E]; cbn [negb].
    + rewrite E, Z.mul_0_r, Z.add_0_r. apply IH; lia.
    + unfold is_word in Hx.
      assert (0 < 2 ^ (64 * Z.of_nat m)) as Pm by (apply Z.pow_pos_nonneg; lia).
      destruct (Z.eqb_spec (value (take m u) + 2 ^ (64 * Z.of_nat m) * u !!! m) 0) as [E0|_]; [nia|].
      rewrite log2_cons by lia.
      unfold LeadingZeros64, Len64.
      destruct (Z.eqb_spec (u !!! m) 0); lia.
Qed.

Lemma trailing_zeros_spec (width : nat) (x : Z) :
  0 < x < 2 ^ Z.of_nat width ->
  0 <= trailing_zeros width x < Z.of_nat width /\
  x mod 2 ^ trailing_zeros width x = 0 /\
  Z.odd (x / 2 ^ trailing_zeros width x) = true.
Proof.
  revert x. induction width as [|w IH]; intros x Hx; [cbn in Hx; lia|].
  cbn [trailing_zeros]. destruct (Z.odd x) eqn:Eo.
  - rewrite Z.pow_0_r, Z.mod_1_r, Z.div_1_r. repeat split; (done || lia).
  - pose proof (Z.div2_odd x) as E2. rewrite Eo in E2. cbn [Z.b2z] in E2.
    rewrite Nat2Z.inj_succ, Z.pow_succ_r in Hx by lia.
    destruct (IH (Z.div2 x) ltac:(lia)) as (B & M & O).
    set (t := trailing_zeros w (Z.div2 x)) in *.
    assert (0 < 2 ^ t) as Pt by (apply Z.pow_pos_nonneg; lia).
    replace (1 + t) with (Z.succ t) by lia. rewrite Z.pow_succ_r by lia.
    split; [lia|]. split.
    + rewrite E2 at 1. rewrite Z.add_0_r, Z.mul_mod_distr_l by lia. lia.
    + rewrite E2 at 1. rewrite Z.add_0_r, Z.div_mul_cancel_l by lia. done.
Qed.

Lemma TrailingZeros_loop_value (N : nat) (m k : nat) (u : list Z) :
  length u = (k + m)%nat -> N = (k + m)%nat -> Forall is_word u ->
  let t := Engine.TrailingZeros_loop N (seq k m) u in
  let v := value (drop k u) in
  if v =? 0 then t = 64 * Z.of_nat N
  else 64 * Z.of_nat k <= t < 64 * Z.of_nat N /\
       v mod 2 ^ (t - 64 * Z.of_nat k) = 0 /\
       Z.odd (v / 2 ^ (t - 64 * Z.of_nat k)) = true.
Proof.
  revert k. induction m as [|m IH]; intros k Hl HN Hw; cbv zeta.
  - rewrite drop_ge by lia. done.
  - cbn [seq Engine.TrailingZeros_loop].
    rewrite (drop_S u (u !!! k) k) by (apply lookup_total_lt; lia). cbn [value].
    assert (is_word (u !!! k)) as Hx by (by apply is_word_lookup).
    pose proof (value_nonneg (drop (S k) u) (Forall_drop _ _ _ Hw)) as Hv.
    specialize (IH (S k) ltac:(lia) ltac:(lia) Hw). cbv zeta in IH.
    set (v' := value (drop (S k) u)) in *. unfold is_word in Hx.
    destruct (Z.eqb_spec (u !!! k) 0) as [E|E]; cbn [negb].
    + rewrite E, Z.add_0_l.
      set (t := Engine.TrailingZeros_loop N (seq (S k) m) u) in *.
      destruct (Z.eqb_spec v' 0) as [E0|E0].
      * destruct (Z.eqb_spec (2 ^ 64 * v') 0); [done|lia].
      * destruct (Z.eqb_spec (2 ^ 64 * v') 0); [lia|].
        destruct IH as (B & M & O). rewrite Nat2Z.inj_succ in B, M, O.
        replace (t - 64 * Z.of_nat k) with (64 + (t - 64 * Z.succ (Z.of_nat k))) by lia.
        set (e := t - 64 * Z.succ (Z.of_nat k)) in *.
        assert (0 < 2 ^ e) as Pe by (apply Z.pow_pos_nonneg; lia).
        rewrite Z.pow_add_r by lia.
        split; [lia|]. split.
        -- rewrite Z.mul_mod_distr_l by lia. lia.
        -- rewrite Z.div_mul_cancel_l by lia. done.
    + destruct (Z.eqb_spec (u !!! k + 2 ^ 64 * v') 0) as [E0|_]; [lia|].
      unfold TrailingZeros64. destruct (Z.eqb_spec (u !!! k) 0); [done|].
      destruct (trailing_zeros_spec 64 (u !!! k) ltac:(lia)) as (B & M & O).
      set (t0 := trailing_zeros 64 (u !!! k)) in *.
      replace (Z.of_nat k * 64 + t0 - 64 * Z.of_nat k) with t0 by lia.
      assert (0 < 2 ^ t0) as Pt by (apply Z.pow_pos_nonneg; lia).
      assert (2 ^ 64 = 2 ^ t0 * (2 * 2 ^ (64 - t0 - 1))) as E64.
      { rewrite <- Z.pow_succ_r, <- Z.pow_add_r by lia. f_equal. lia. }
      split; [lia|].
      apply Z.mod_divide in M; [|lia]. destruct M as [q Eq].
      rewrite Eq, Z.div_mul in O by lia.
      assert (u !!! k + 2 ^ 64 * v' = (q + 2 * 2 ^ (64 - t0 - 1) * v') * 2 ^ t0) as ->.
      { rewrite Eq, E64. ring. }
      split.
      * apply Z.mod_mul. lia.
      * rewrite Z.div_mul by lia.
        rewrite <- Z.mul_assoc, Z.odd_add_mul_2. done.
Qed.

(** X15. [LeadingZeros] and [TrailingZeros] return the width for zero.  For any
    other value, [LeadingZeros] is the width less the bit length of the
    value, and [TrailingZeros] is the exponent of the largest power of two
    dividing it. *)
Theorem zero_bit_counts (N : nat) (a : list Z) :
  wf N a ->
  (value a = 0 ->
   Engine.LeadingZeros N a = 64 * Z.of_nat N /\
   Engine.TrailingZeros N a = 64 * Z.of_nat N) /\
  (value a <> 0 ->
   Engine.LeadingZeros N a = 64 * Z.of_nat N - 1 - Z.log2 (value a) /\
   0 <= Engine.TrailingZeros N a < 64 * Z.of_nat N /\
   value a mod 2 ^ Engine.TrailingZeros N a = 0 /\
   Z.odd (value a / 2 ^ Engine.TrailingZeros N a) = true).
Proof.
  intros [Hl Hw].
  pose proof (LeadingZeros_loop_value N a N Hw ltac:(lia) ltac:(lia)) as HL.
  rewrite take_ge in HL by lia.
  pose proof (TrailingZeros_loop_value N N 0 a ltac:(lia) ltac:(lia) Hw) as HT.
  cbv zeta in HT. rewrite drop_0 in HT.
  unfold Engine.LeadingZeros, Engine.TrailingZeros.
  destruct (Z.eqb_spec (value a) 0) as [E|E]; split; intros E'; try done.
  destruct HT as (B & M & O). rewrite Z.sub_0_r in M, O.
  repeat split; (done || lia).
Qed.

Lemma zero_bit_counts_witness :
  Engine.LeadingZeros 8 (Engine.New 8 12) = 64 * Z.of_nat 8 - 1 - Z.log2 (value (Engine.New 8 12)) /\
  0 <= Engine.TrailingZeros 8 (Engine.New 8 12) < 64 * Z.of_nat 8 /\
  value (Engine.New 8 12) mod 2 ^ Engine.TrailingZeros 8 (Engine.New 8 12) = 0 /\
  Z.odd (value (Engine.New 8 12) / 2 ^ Engine.TrailingZeros 8 (Engine.New 8 12)) = true.
Proof.
  destruct (zero_bit_counts 8 (Engine.New 8 12)) as [_ H]; [solve_wf|].
  apply H. vm_compute. discriminate.
Defined.

Lemma filter_length_shift (P : nat -> bool) (k m : nat) :
  length (List.filter P (seq (S k) m))
  = length (List.filter (fun i => P (S i)) (seq k m)).
Proof.
  rewrite <- seq_shift. induction (seq k m) as [|i l IH]; [done|].
  cbn [map List.filter]. destruct (P (S i)); cbn [length]; by rewrite IH.
Qed.

Lemma ones_count_bits (width : nat) (x : Z) :
  ones_count width x
  = Z.of_nat (length (List.filter (fun i => Z.testbit x (Z.of_nat i)) (seq 0 width))).
Proof.
  revert x. induction width as [|w IH]; intros x; [done|].
  cbn [ones_count seq List.filter]. change (Z.of_nat 0) with 0.
  rewrite Z.bit0_odd, IH.
  assert (length (List.filter (fun i => Z.testbit (Z.div2 x) (Z.of_nat i)) (seq 0 w))
          = length (List.filter (fun i => Z.testbit x (Z.of_nat i)) (seq 1 w))) as ->.
  { rewrite filter_length_shift. f_equal. apply List.filter_ext. intros i.
    rewrite Nat2Z.inj_succ, Z.div2_spec, Z.shiftr_spec by lia. f_equal; lia. }
  destruct (Z.odd x); cbn [Z.b2z length]; lia.
Qed.

Lemma OnesCount_acc (u : list Z) (c : Z) :
  foldl (fun count word => count + OnesCount64 word) c u = c + Engine.OnesCount u.
Proof.
  unfold Engine.OnesCount. revert c. induction u as [|x u IH]; intros c; [cbn; lia|].
  cbn [foldl]. rewrite IH, (IH (0 + _)). lia.
Qed.

Lemma filter_length_offset (P : nat -> bool) (k m : nat) :
  length (List.filter P (seq k m))
  = length (List.filter (fun i => P (k + i)%nat) (seq 0 m)).
Proof.
  revert P. induction k as [|k IH]; intros P; [done|].
  by rewrite filter_length_shift, IH.
Qed.

Lemma OnesCount_bits (u : list Z) :
  Forall is_word u ->
  Engine.OnesCount u
  = Z.of_nat (length (List.filter (fun i => Z.testbit (value u) (Z.of_nat i))
                                  (seq 0 (64 * length u)))).
Proof.
  induction 1 as [|x u Hx Hw IH]; [done|].
  unfold Engine.OnesCount. cbn [foldl]. rewrite OnesCount_acc, IH, Z.add_0_l.
  unfold OnesCount64. rewrite ones_count_bits.
  cbn [length value]. replace (64 * S (length u))%nat with (64 + 64 * length u)%nat by lia.
  rewrite seq_app, List.filter_app, length_app, Nat2Z.inj_add.
  pose proof (value_nonneg u Hw) as Hv.
  rewrite (filter_length_offset _ (0 + 64)).
  assert (List.filter (fun i => Z.testbit (x + 2 ^ 64 * value u) (Z.of_nat i)) (seq 0 64)
          = List.filter (fun i => Z.testbit x (Z.of_nat i)) (seq 0 64)) as ->.
  { apply List.filter_ext_in. intros i Hi. apply in_seq in Hi.
    rewrite testbit_cons by (done || lia).
    destruct (Z.ltb_spec (Z.of_nat i) 64); [done|lia]. }
  assert (List.filter (fun i => Z.testbit (x + 2 ^ 64 * value u) (Z.of_nat (0 + 64 + i)))
                      (seq 0 (64 * length u))
          = List.filter (fun i => Z.testbit (value u) (Z.of_nat i)) (seq 0 (64 * length u))) as ->.
  { apply List.filter_ext_in. intros i Hi. apply in_seq in Hi.
    rewrite testbit_cons by (done || lia).
    destruct (Z.ltb_spec (Z.of_nat (0 + 64 + i)) 64); [lia|]. f_equal. lia. }
  done.
Qed.

(** X16. [OnesCount] is the number of bit indices within the width at which [Bit]
    returns true; it is zero for the zero value only. *)
Theorem OnesCount_counts_set_bits (N : nat) (a : list Z) :
  wf N a ->
  Engine.OnesCount a
  = Z.of_nat (length (List.filter (fun i => Engine.Bit N a (Z.of_nat i))
                                  (seq 0 (64 * N)))) /\
  (Engine.OnesCount a = 0 <-> a = Engine.ZERO N).
Proof.
  intros Ha. pose proof Ha as [Hl Hw].
  assert (Engine.OnesCount a
          = Z.of_nat (length (List.filter (fun i => Engine.Bit N a (Z.of_nat i))
                                          (seq 0 (64 * N))))) as E.
  { rewrite OnesCount_bits, Hl by done. f_equal. f_equal.
    apply List.filter_ext_in. intros i Hi. apply in_seq in Hi.
    symmetry. apply Bit_value; [done|lia]. }
  split; [done|]. rewrite E. split.
  - intros H0. apply value_zero_iff; [done|].
    apply Z.bits_inj'. intros k Hk. rewrite Z.bits_0.
    destruct (Z_lt_le_dec k (64 * Z.of_nat N)) as [Hin|Hout].
    + rewrite <- (Bit_value N a k) by (done || lia).
      destruct (Engine.Bit N a k) eqn:Eb; [|done].
      assert (In (Z.to_nat k) (List.filter (fun i => Engine.Bit N a (Z.of_nat i)) (seq 0 (64 * N)))) as Hin'.
      { apply List.filter_In. split; [apply in_seq; lia|]. by rewrite Z2Nat.id. }
      destruct (List.filter _ _); [destruct Hin'|cbn [length] in H0; lia].
    + pose proof (value_bounds a Hw) as B. rewrite Hl in B.
      rewrite <- (Z.mod_small (value a) (2 ^ (64 * Z.of_nat N))) by lia.
      apply Z.mod_pow2_bits_high. lia.
  - intros ->.
    rewrite (List.filter_ext_in _ (fun _ => false)).
    + clear. induction (seq 0 (64 * N)) as [|i l IHl]; [done | exact IHl].
    + intros i Hi. apply in_seq in Hi.
      destruct (wf_zeroed N) as [Hl0 Hw0].
      rewrite Bit_value by (done || lia).
      change (Engine.ZERO N) with (Engine.zeroed N). unfold Engine.zeroed.
      rewrite value_replicate_0. apply Z.bits_0.
Qed.

Lemma OnesCount_counts_set_bits_witness :
  Engine.OnesCount (Engine.New 8 12)
  = Z.of_nat (length (List.filter (fun i => Engine.Bit 8 (Engine.New 8 12) (Z.of_nat i))
                                  (seq 0 (64 * 8)))) /\
  (Engine.OnesCount (Engine.New 8 12) = 0 <-> Engine.New 8 12 = Engine.ZERO 8).
Proof. apply (OnesCount_counts_set_bits 8 (Engine.New 8 12)). solve_wf. Defined.


(** ** The constructors and exporters on inputs of any length *)

(** X17. [FromLimbs] keeps the first N limbs of a longer slice and fills a shorter
    one up with zero words: the value is that of the limbs it keeps. *)
Theorem FromLimbs_truncates_and_pads (N : nat) (limbs : list Z) :
  Forall is_word limbs ->
  Engine.FromLimbs N limbs = take N limbs ++ replicate (N - length limbs) 0 /\
  wf N (Engine.FromLimbs N limbs) /\
  value (Engine.FromLimbs N limbs) = value (take N limbs).
Proof.
  intros Hw.
  assert (Engine.FromLimbs N limbs = take N limbs ++ replicate (N - length limbs) 0) as E.
  { unfold Engine.FromLimbs, Engine.zeroed, copy.
    destruct (Nat.ltb_spec N (length limbs)) as [Hlt|Hge].
    - rewrite take_replicate, drop_replicate, !length_replicate, length_take.
      replace (N `min` N)%nat with N by lia.
      rewrite take_take. replace (N `min` N)%nat with N by lia.
      rewrite drop_replicate, <- app_assoc, <- replicate_add. do 2 f_equal. lia.
    - rewrite take_replicate, drop_replicate, !length_replicate.
      rewrite !(take_ge limbs) by lia.
      rewrite drop_replicate, <- app_assoc, <- replicate_add. do 2 f_equal. lia. }
  split; [done|]. rewrite E. split; [split|].
  - rewrite length_app, length_take, length_replicate. lia.
  - apply Forall_app. split; [by apply Forall_take | apply Forall_is_word_zero].
  - by rewrite value_app, value_replicate_0, Z.mul_0_r, Z.add_0_r.
Qed.

Lemma FromLimbs_truncates_and_pads_witness :
  Engine.FromLimbs 8 [1; 2; 3] = take 8 [1; 2; 3] ++ replicate (8 - length [1; 2; 3]) 0 /\
  wf 8 (Engine.FromLimbs 8 [1; 2; 3]) /\
  value (Engine.FromLimbs 8 [1; 2; 3]) = value (take 8 [1; 2; 3]).
Proof.
  apply (FromLimbs_truncates_and_pads 8 [1; 2; 3]).
  repeat (constructor; [unfold is_word; lia|]). constructor.
Defined.

Lemma le_value_app (a b : list Z) :
  le_value (a ++ b) = le_value a + 256 ^ Z.of_nat (length a) * le_value b.
Proof.
  induction a as [|x a IH]; [cbn; lia|].
  cbn [app le_value length]. rewrite IH, Nat2Z.inj_succ, Z.pow_succ_r by lia. ring.
Qed.

Lemma le_value_zeros (k : nat) : le_value (replicate k 0) = 0.
Proof. induction k as [|k IH]; [done|]. cbn [replicate le_value]. lia. Qed.

Lemma be_value_rev (bs : list Z) : be_value (rev bs) = le_value bs.
Proof.
  induction bs as [|b bs IH]; [done|].
  cbn [rev le_value]. rewrite be_value_snoc, IH. lia.
Qed.

Lemma LittleEndian_Uint64_le_value (c : list Z) :
  length c = 8%nat -> Forall is_byte c ->
  LittleEndian_Uint64 c = le_value c /\ is_word (le_value c).
Proof.
  intros Hl Hb. destruct (bytes8_inv c Hl) as (b0 & b1 & b2 & b3 & b4 & b5 & b6 & b7 & ->).
  repeat match goal with H : Forall _ (_ :: _) |- _ => inversion H; subst; clear H end.
  rewrite LittleEndian_Uint64_sum by done.
  unfold is_byte, is_word in *. cbn [le_value]. split; lia.
Qed.

Lemma value_map_LittleEndian (cs : list (list Z)) :
  Forall (fun c => length c = 8%nat /\ Forall is_byte c) cs ->
  value (map LittleEndian_Uint64 cs) = le_value (concat cs) /\
  Forall is_word (map LittleEndian_Uint64 cs).
Proof.
  induction 1 as [|c cs [Hl Hb] Hcs [IHv IHw]]; [by split|].
  destruct (LittleEndian_Uint64_le_value c Hl Hb) as [E W].
  cbn [map concat value]. split.
  - rewrite le_value_app, Hl, IHv, E. done.
  - constructor; [by rewrite E|done].
Qed.

Lemma PutUint64_rev (v : Z) : BigEndian_PutUint64 v = rev (LittleEndian_PutUint64 v).
Proof. done. Qed.

Lemma concat_map_rev (f g : Z -> list Z) (u : list Z) :
  (forall v, g v = rev (f v)) ->
  concat (map g (rev u)) = rev (concat (map f u)).
Proof.
  intros H. induction u as [|x u IH]; [done|].
  cbn [rev map concat]. rewrite map_app, concat_app, IH, rev_app_distr.
  cbn [map concat]. by rewrite app_nil_r, H.
Qed.

Lemma ToLeBytes_words (N : nat) (a : list Z) :
  length a = N -> Engine.ToLeBytes N a = concat (map LittleEndian_PutUint64 a).
Proof.
  intros Hl. rewrite ToLeBytes_chunks. f_equal.
  rewrite <- (map_map (fun i => a !!! i) LittleEndian_PutUint64).
  by rewrite <- Hl, map_lookup_total_seq.
Qed.

Lemma ToBeBytes_words (N : nat) (a : list Z) :
  length a = N -> Engine.ToBeBytes N a = concat (map BigEndian_PutUint64 (rev a)).
Proof.
  intros Hl. rewrite ToBeBytes_chunks. f_equal.
  rewrite <- (map_map (fun i => a !!! (N - 1 - i)%nat) BigEndian_PutUint64).
  f_equal. pose proof (f_equal (@rev Z) (rev_map_lookup_desc a)) as E.
  rewrite rev_involutive, Hl in E. exact E.
Qed.

Lemma PutUint64_chunks (ws : list Z) :
  Forall is_word ws ->
  Forall (fun c => length c = 8%nat /\ Forall is_byte c) (map LittleEndian_PutUint64 ws) /\
  map LittleEndian_Uint64 (map LittleEndian_PutUint64 ws) = ws.
Proof.
  induction 1 as [|w ws Hw Hws [IH1 IH2]]; [by split|].
  destruct (PutUint64_digits w Hw) as [Hb E].
  cbn [map]. split; [by constructor|]. by rewrite E, IH2.
Qed.

(** X18. The exporters write 8N valid bytes that spell the value, least
    significant byte first for [ToLeBytes] and most significant byte first
    for [ToBeBytes]; one output is the other reversed. *)
Theorem exported_bytes_spell_the_value (N : nat) (a : list Z) :
  wf N a ->
  (length (Engine.ToLeBytes N a) = (8 * N)%nat /\
   Forall is_byte (Engine.ToLeBytes N a) /\
   le_value (Engine.ToLeBytes N a) = value a) /\
  (length (Engine.ToBeBytes N a) = (8 * N)%nat /\
   Forall is_byte (Engine.ToBeBytes N a) /\
   be_value (Engine.ToBeBytes N a) = value a) /\
  Engine.ToBeBytes N a = rev (Engine.ToLeBytes N a).
Proof.
  intros [Hl Hw].
  destruct (PutUint64_chunks a Hw) as [Hc Hr].
  destruct (value_map_LittleEndian _ Hc) as [Hv _]. rewrite Hr in Hv.
  assert (Engine.ToBeBytes N a = rev (Engine.ToLeBytes N a)) as Erev.
  { rewrite ToBeBytes_words, ToLeBytes_words by done.
    apply concat_map_rev, PutUint64_rev. }
  assert (length (Engine.ToLeBytes N a) = (8 * N)%nat) as Elen.
  { rewrite ToLeBytes_chunks. by apply length_chunks. }
  assert (Forall is_byte (Engine.ToLeBytes N a)) as Hbytes.
  { rewrite ToLeBytes_words by done. apply Forall_concat.
    eapply Forall_impl; [exact Hc|]. by intros c [_ H]. }
  repeat split; try done.
  - by rewrite ToLeBytes_words.
  - by rewrite Erev, length_rev.
  - rewrite Erev. by apply Forall_rev.
  - by rewrite Erev, be_value_rev, ToLeBytes_words.
Qed.

Lemma exported_bytes_spell_the_value_witness :
  (length (Engine.ToLeBytes 8 (Engine.New 8 300)) = (8 * 8)%nat /\
   Forall is_byte (Engine.ToLeBytes 8 (Engine.New 8 300)) /\
   le_value (Engine.ToLeBytes 8 (Engine.New 8 300)) = value (Engine.New 8 300)) /\
  (length (Engine.ToBeBytes 8 (Engine.New 8 300)) = (8 * 8)%nat /\
   Forall is_byte (Engine.ToBeBytes 8 (Engine.New 8 300)) /\
   be_value (Engine.ToBeBytes 8 (Engine.New 8 300)) = value (Engine.New 8 300)) /\
  Engine.ToBeBytes 8 (Engine.New 8 300) = rev (Engine.ToLeBytes 8 (Engine.New 8 300)).
Proof. apply (exported_bytes_spell_the_value 8 (Engine.New 8 300)). solve_wf. Defined.


(** The eight bytes [FromLeBytes] reads for a word: a chunk of the input
    filled up with zero bytes. *)
Lemma FromLeBytes_chunk (N : nat) (data : list Z) (dataLen start : nat) :
  (dataLen <= length data)%nat -> (dataLen <= 8 * N)%nat ->
  (start < dataLen)%nat -> (start + 8 <= 8 * N)%nat ->
  copy (replicate 8 0)
       (slice data start
              (start + (if (dataLen <? start + 8)%nat then (dataLen - start)%nat else 8%nat)))
  = slice (take dataLen data ++ replicate (8 * N - dataLen) 0) start (start + 8).
Proof.
  intros H1 H2 H3 H4. unfold copy, slice.
  rewrite length_replicate.
  rewrite drop_app_le by (rewrite length_take; lia).
  rewrite take_app, length_drop, length_take, take_replicate, drop_replicate.
  replace (take dataLen data) with (take (start + (dataLen - start)) data) by (f_equal; lia).
  rewrite <- take_drop_commute, !take_take, length_take, length_drop.
  destruct (Nat.ltb_spec dataLen (start + 8)); (f_equal; [f_equal; lia|f_equal; lia]).
Qed.

Lemma LittleEndian_Uint64_zeros : LittleEndian_Uint64 (replicate 8 0) = 0.
Proof. done. Qed.

Lemma FromLeBytes_loop (N : nat) (data : list Z) (m : nat) :
  let dataLen := if (8 * N <? length data)%nat then (8 * N)%nat else length data in
  let padded := take dataLen data ++ replicate (8 * N - dataLen) 0 in
  (m <= N)%nat ->
  foldl (fun u i =>
           let start := (i * 8)%nat in
           let end_ := (start + 8)%nat in
           if (start <? dataLen)%nat then
             let bytesToRead := if (dataLen <? end_)%nat then (dataLen - start)%nat else 8%nat in
             let wordBytes := copy (replicate 8 0) (slice data start (start + bytesToRead)) in
             <[i := LittleEndian_Uint64 wordBytes]> u
           else u)
        (Engine.zeroed N) (seq 0 m)
  = map (fun i => LittleEndian_Uint64 (slice padded (i * 8) (i * 8 + 8))) (seq 0 m)
    ++ replicate (N - m) 0.
Proof.
  intros dataLen padded.
  assert (dataLen <= length data /\ dataLen <= 8 * N)%nat as [L1 L2].
  { unfold dataLen. destruct (Nat.ltb_spec (8 * N) (length data)); lia. }
  induction m as [|m IH]; intros Hm.
  - cbn [seq foldl map app]. unfold Engine.zeroed. f_equal. lia.
  - rewrite seq_snoc, foldl_snoc, IH by lia. cbv zeta.
    rewrite map_app. cbn [map].
    set (pre := map _ (seq 0 m)).
    assert (length pre = m) as Hpre by (unfold pre; by rewrite length_map, length_seq).
    replace (N - m)%nat with (S (N - S m)) by lia. cbn [replicate].
    rewrite <- app_assoc. cbn [app].
    destruct (Nat.ltb_spec (m * 8) dataLen) as [Hin|Hout].
    + rewrite insert_app_r_alt by lia. rewrite Hpre, Nat.sub_diag.
      cbn [insert list_insert]. do 3 f_equal.
      apply (FromLeBytes_chunk N); lia.
    + do 2 f_equal. unfold padded, slice.
      rewrite drop_app_ge by (rewrite length_take; lia).
      rewrite drop_replicate, take_replicate, length_take.
      replace ((m * 8 + 8 - m * 8) `min` (8 * N - dataLen - (m * 8 - dataLen `min` length data)))%nat
        with 8%nat by lia.
      done.
Qed.

Lemma FromLeBytes_value (N : nat) (data : list Z) :
  Forall is_byte data ->
  wf N (Engine.FromLeBytes N data) /\
  value (Engine.FromLeBytes N data) = le_value (take (8 * N) data).
Proof.
  intros Hb. unfold Engine.FromLeBytes.
  pose proof (FromLeBytes_loop N data N) as E. cbv zeta in E.
  rewrite E by lia. clear E.
  set (dataLen := if (8 * N <? length data)%nat then (8 * N)%nat else length data).
  assert (dataLen <= length data /\ dataLen <= 8 * N)%nat as [L1 L2].
  { unfold dataLen. destruct (Nat.ltb_spec (8 * N) (length data)); lia. }
  set (padded := take dataLen data ++ replicate (8 * N - dataLen) 0).
  assert (length padded = (8 * N)%nat) as Hlen.
  { unfold padded. rewrite length_app, length_take, length_replicate. lia. }
  assert (Forall is_byte padded) as Hp.
  { apply Forall_app. split; [by apply Forall_take|].
    apply Forall_replicate. unfold is_byte. lia. }
  rewrite Nat.sub_diag. cbn [replicate]. rewrite app_nil_r.
  rewrite <- (map_map (fun i => slice padded (i * 8) (i * 8 + 8)) LittleEndian_Uint64).
  destruct (value_map_LittleEndian _ (slices_wf padded N ltac:(lia) Hp)) as [Hv Hw].
  split; [split; [by rewrite !length_map, length_seq | done]|].
  rewrite Hv, concat_slices, take_ge by lia.
  unfold padded. rewrite le_value_app, le_value_zeros, Z.mul_0_r, Z.add_0_r.
  f_equal. unfold dataLen.
  destruct (Nat.ltb_spec (8 * N) (length data)); [done|].
  by rewrite !take_ge by lia.
Qed.

(** X19. [FromLeBytes] reads its input as one little-endian number: the first 8N
    bytes of a longer input, and a shorter input as it stands (the missing
    high-order bytes count as zero).  On an input of at most 8N bytes it
    agrees with [FromBeBytes] on the reversed input. *)
Theorem FromLeBytes_reads_little_endian (N : nat) (data : list Z) :
  Forall is_byte data ->
  wf N (Engine.FromLeBytes N data) /\
  value (Engine.FromLeBytes N data) = le_value (take (8 * N) data) /\
  ((length data <= 8 * N)%nat ->
   Engine.FromLeBytes N data = Engine.FromBeBytes N (rev data)).
Proof.
  intros Hb. destruct (FromLeBytes_value N data Hb) as [Hw Hv].
  split; [done|]. split; [done|]. intros Hlen.
  destruct (FromBeBytes_value N (rev data) (Forall_rev Hb)) as [Hw' Hv'].
  apply value_inj; [by rewrite (proj1 Hw), (proj1 Hw') | apply Hw | apply Hw' |].
  rewrite Hv, Hv', !take_ge by (rewrite ?length_rev; lia).
  by rewrite be_value_rev.
Qed.

Lemma FromLeBytes_reads_little_endian_witness :
  wf 8 (Engine.FromLeBytes 8 [1; 2; 3]) /\
  value (Engine.FromLeBytes 8 [1; 2; 3]) = le_value (take (8 * 8) [1; 2; 3]) /\
  Engine.FromLeBytes 8 [1; 2; 3] = Engine.FromBeBytes 8 (rev [1; 2; 3]).
Proof.
  destruct (FromLeBytes_reads_little_endian 8 [1; 2; 3]) as (H1 & H2 & H3).
  - repeat (constructor; [unfold is_byte; lia|]). constructor.
  - split; [exact H1|]. split; [exact H2|]. apply H3. simpl. lia.
Defined.


(** ** Hexadecimal rendering *)

Lemma hex_digit_spec (d : Z) :
  0 <= d < 16 ->
  hex_digit_value (hex_digit d) = d /\ is_hex_digit (hex_digit d) /\
  (hex_digit d = "0"%char -> d = 0).
Proof.
  intros Hd.
  assert (d = 0 \/ d = 1 \/ d = 2 \/ d = 3 \/ d = 4 \/ d = 5 \/ d = 6 \/ d = 7 \/
          d = 8 \/ d = 9 \/ d = 10 \/ d = 11 \/ d = 12 \/ d = 13 \/ d = 14 \/ d = 15)
    as H by lia.
  repeat (destruct H as [->|H]); try subst d;
    (split; [reflexivity|split; [unfold is_hex_digit; vm_compute; intuition discriminate|]]);
    intros E; (reflexivity || discriminate E).
Qed.

Lemma hex_foldl_acc (l : list ascii) (acc : Z) :
  foldl (fun acc c => 16 * acc + hex_digit_value c) acc l
  = acc * 16 ^ Z.of_nat (length l)
    + foldl (fun acc c => 16 * acc + hex_digit_value c) 0 l.
Proof.
  revert acc. induction l as [|c l IH]; intros acc; [cbn; lia|].
  cbn [foldl length]. rewrite IH, (IH (16 * 0 + _)).
  rewrite Nat2Z.inj_succ, Z.pow_succ_r by lia. ring.
Qed.

Lemma hex_foldl_app (l k : list ascii) :
  foldl (fun acc c => 16 * acc + hex_digit_value c) 0 (l ++ k)
  = foldl (fun acc c => 16 * acc + hex_digit_value c) 0 l * 16 ^ Z.of_nat (length k)
    + foldl (fun acc c => 16 * acc + hex_digit_value c) 0 k.
Proof. by rewrite foldl_app, hex_foldl_acc. Qed.

Lemma nibble_spec (x : Z) (k : nat) :
  0 <= x ->
  Z.land (Z.shiftr x (4 * Z.of_nat k)) 15 = (x / 16 ^ Z.of_nat k) mod 16.
Proof.
  intros Hx. change 15 with (Z.ones 4). rewrite Z.land_ones, Z.shiftr_div_pow2 by lia.
  rewrite Z.pow_mul_r by lia. done.
Qed.

Lemma hex_digits_value (x : Z) (n : nat) :
  0 <= x ->
  foldl (fun acc c => 16 * acc + hex_digit_value c) 0
        (map (fun k => hex_digit (Z.land (Z.shiftr x (4 * Z.of_nat k)) 15)) (rev (seq 0 n)))
  = x mod 16 ^ Z.of_nat n /\
  Forall is_hex_digit
    (map (fun k => hex_digit (Z.land (Z.shiftr x (4 * Z.of_nat k)) 15)) (rev (seq 0 n))).
Proof.
  intros Hx. induction n as [|n [IHv IHd]].
  - split; [|constructor]. cbn. by rewrite Z.mod_1_r.
  - rewrite seq_snoc, rev_app_distr. cbn [rev app map foldl].
    assert (0 <= Z.land (Z.shiftr x (4 * Z.of_nat n)) 15 < 16) as Hn.
    { rewrite nibble_spec by done. apply Z.mod_pos_bound. lia. }
    destruct (hex_digit_spec _ Hn) as (Ev & Ed & _).
    split; [|by constructor].
    rewrite hex_foldl_acc, IHv, Ev, length_map, length_rev, length_seq.
    rewrite nibble_spec by done.
    rewrite Nat2Z.inj_succ, Z.pow_succ_r, (Z.mul_comm 16 (16 ^ Z.of_nat n)), Z.rem_mul_r by lia. ring.
Qed.

Lemma hex16_spec (x : Z) :
  is_word x ->
  foldl (fun acc c => 16 * acc + hex_digit_value c) 0 (hex16 x) = x /\
  Forall is_hex_digit (hex16 x) /\ length (hex16 x) = 16%nat.
Proof.
  unfold is_word. intros Hx. destruct (hex_digits_value x 16 ltac:(lia)) as [Hv Hd].
  split; [|split; [done|]].
  - unfold hex16. rewrite Hv. apply Z.mod_small. change (16 ^ Z.of_nat 16) with (2 ^ 64). lia.
  - unfold hex16. by rewrite length_map, length_rev, length_seq.
Qed.

Lemma strip_leading_zeros_spec (l : list ascii) :
  l <> [] -> Forall is_hex_digit l ->
  let v := foldl (fun acc c => 16 * acc + hex_digit_value c) 0 l in
  Forall is_hex_digit (strip_leading_zeros l) /\
  foldl (fun acc c => 16 * acc + hex_digit_value c) 0 (strip_leading_zeros l) = v /\
  exists c rest, strip_leading_zeros l = c :: rest /\ (v <> 0 -> c <> "0"%char).
Proof.
  induction l as [|c l IH]; intros Hne Hd; [done|]. cbv zeta.
  inversion Hd as [|? ? Hc Hl]; subst.
  destruct l as [|c' l].
  - cbn [strip_leading_zeros foldl]. split; [done|]. split; [done|].
    exists c, []. split; [done|]. intros Hv ->. by apply Hv.
  - assert (strip_leading_zeros (c :: c' :: l)
            = if Ascii.eqb c "0" then strip_leading_zeros (c' :: l) else c :: c' :: l)
      as -> by done.
    destruct (Ascii.eqb_spec c "0"%char) as [->|Hc0].
    + destruct (IH ltac:(done) Hl) as (H1 & H2 & H3). cbv zeta in H2, H3.
      split; [done|]. split; [by rewrite H2|]. exact H3.
    + split; [done|]. split; [done|]. by exists c, (c' :: l).
Qed.

Lemma list_ascii_of_string_app (s1 s2 : string) :
  list_ascii_of_string (s1 ++ s2)
  = list_ascii_of_string s1 ++ list_ascii_of_string s2.
Proof. induction s1 as [|c s1 IH]; [done|]. cbn. by rewrite IH. Qed.

Lemma string_app_assoc (s1 s2 s3 : string) :
  ((s1 ++ s2) ++ s3 = s1 ++ (s2 ++ s3))%string.
Proof. induction s1 as [|c s1 IH]; [done|]. cbn. by rewrite IH. Qed.

Lemma Hex_loop_prefix (u : list Z) (p q : string) (idx : list nat) :
  foldl (fun result i => (result ++ Sprintf_016x (u !!! i))%string) (p ++ q)%string idx
  = (p ++ foldl (fun result i => (result ++ Sprintf_016x (u !!! i))%string) q idx)%string.
Proof.
  revert q. induction idx as [|i idx IH]; intros q; [done|].
  cbn [foldl]. by rewrite string_app_assoc, IH.
Qed.

Lemma Hex_loop_value (u : list Z) (k : nat) (q : string) :
  Forall is_word u -> (k <= length u)%nat ->
  let body := foldl (fun result i => (result ++ Sprintf_016x (u !!! i))%string) q
                    (rev (seq 0 k)) in
  hex_value body = hex_value q * 2 ^ (64 * Z.of_nat k) + value (take k u) /\
  (Forall is_hex_digit (list_ascii_of_string q) ->
   Forall is_hex_digit (list_ascii_of_string body)) /\
  exists tail, body = (q ++ tail)%string.
Proof.
  intros Hw. revert q. induction k as [|k IH]; intros q Hk; cbv zeta.
  - cbn [seq rev foldl]. rewrite take_0. cbn [value].
    split; [rewrite Z.mul_0_r, Z.pow_0_r; lia|]. split; [done|].
    exists ""%string. clear. induction q as [|c q IHq]; [done|]. cbn. by rewrite <- IHq.
  - rewrite seq_snoc, rev_app_distr. cbn [rev app foldl].
    destruct (IH (q ++ Sprintf_016x (u !!! k))%string ltac:(lia)) as (Hv & Hd & tail & Et).
    cbv zeta in Hv, Hd, Et.
    assert (is_word (u !!! k)) as Hx by (by apply is_word_lookup).
    destruct (hex16_spec _ Hx) as (Xv & Xd & Xl).
    split; [|split].
    + rewrite Hv. unfold hex_value at 1.
      rewrite list_ascii_of_string_app. unfold Sprintf_016x.
      rewrite list_ascii_of_string_of_list_ascii, hex_foldl_app, Xv, Xl.
      fold (hex_value q).
      rewrite (take_S_total u k) by lia. rewrite value_snoc, length_take_le by lia.
      change (16 ^ Z.of_nat 16) with (2 ^ 64).
      replace (64 * Z.of_nat (S k)) with (64 + 64 * Z.of_nat k) by lia.
      rewrite Z.pow_add_r by lia. ring.
    + intros Hq. apply Hd. rewrite list_ascii_of_string_app. apply Forall_app.
      split; [done|]. unfold Sprintf_016x. by rewrite list_ascii_of_string_of_list_ascii.
    + exists (Sprintf_016x (u !!! k) ++ tail)%string.
      by rewrite Et, string_app_assoc.
Qed.

Lemma Hex_msw_spec (u : list Z) (m : nat) :
  let msw := Engine.Hex_msw (rev (seq 0 m)) u in
  (msw = -1 /\ forall j, (j < m)%nat -> u !!! j = 0) \/
  (0 <= msw < Z.of_nat m /\ u !!! Z.to_nat msw <> 0 /\
   forall j, (Z.to_nat msw < j < m)%nat -> u !!! j = 0).
Proof.
  induction m as [|m IH]; cbv zeta.
  - left. split; [done|]. intros j Hj. lia.
  - rewrite seq_snoc, rev_app_distr. cbn [rev app Engine.Hex_msw].
    destruct (Z.eqb_spec (u !!! m) 0) as [E|E]; cbn [negb].
    + cbv zeta in IH. destruct IH as [[E1 H1]|(B & H1 & H2)].
      * left. split; [done|]. intros j Hj.
        destruct (decide (j = m)) as [->|]; [done|]. apply H1. lia.
      * right. split; [lia|]. split; [done|]. intros j Hj.
        destruct (decide (j = m)) as [->|]; [done|]. apply H2. lia.
    + right. rewrite Nat2Z.id. split; [lia|]. split; [done|]. intros j Hj. lia.
Qed.

Lemma value_low_words (u : list Z) (k : nat) :
  (forall j, (k <= j < length u)%nat -> u !!! j = 0) ->
  value u = value (take k u).
Proof.
  intros H. rewrite (value_take_drop u k) at 1.
  assert (value (drop k u) = 0) as ->; [|lia].
  assert (drop k u = replicate (length u - k) 0) as ->; [|apply value_replicate_0].
  apply list_eq_total; [by rewrite length_drop, length_replicate|].
  intros i Hi. rewrite length_drop in Hi.
  rewrite lookup_total_drop, lookup_total_replicate_2 by lia. apply H. lia.
Qed.

(** X20. [Hex] renders zero as "0x0" and any other value as "0x" followed by its
    hexadecimal numeral: lower-case digits only, no leading zero, spelling
    the value. *)
Theorem Hex_spells_the_value (N : nat) (a : list Z) :
  wf N a ->
  (value a = 0 -> Engine.Hex N a = "0x0"%string) /\
  (value a <> 0 ->
   exists body,
     Engine.Hex N a = ("0x" ++ body)%string /\
     Forall is_hex_digit (list_ascii_of_string body) /\
     (exists c rest, body = String c rest /\ c <> "0"%char) /\
     hex_value body = value a).
Proof.
  intros Ha. pose proof Ha as [Hl Hw].
  unfold Engine.Hex. rewrite IsZero_value by done.
  destruct (Z.eqb_spec (value a) 0) as [E0|Hne]; (split; [done|]); [done|].
  intros _.
  pose proof (Hex_msw_spec a N) as Hm. cbv zeta in Hm.
  set (msw := Engine.Hex_msw (rev (seq 0 N)) a) in *.
  destruct Hm as [[E1 H1]|(B & Htop & Hhigh)].
  { exfalso. apply Hne. rewrite (value_low_words a 0); [by rewrite take_0|].
    intros j Hj. apply H1. lia. }
  destruct (Z.eqb_spec msw (-1)) as [?|_]; [lia|].
  set (k := Z.to_nat msw) in *.
  assert (is_word (a !!! k)) as Hx by (by apply is_word_lookup).
  destruct (hex16_spec _ Hx) as (Xv & Xd & Xl).
  assert (hex16 (a !!! k) <> []) as Xne.
  { intros E. rewrite E in Xl. discriminate. }
  destruct (strip_leading_zeros_spec _ Xne Xd) as (Sd & Sv & c & rest & Es & Hc).
  cbv zeta in Sv, Hc. rewrite Xv in Sv, Hc.
  rewrite Hex_loop_prefix.
  destruct (Hex_loop_value a k (Sprintf_x (a !!! k)) Hw ltac:(lia)) as (Hv & Hd & tail & Et).
  cbv zeta in Hv, Hd, Et.
  eexists. split; [reflexivity|]. split; [|split].
  - apply Hd. unfold Sprintf_x. by rewrite list_ascii_of_string_of_list_ascii.
  - rewrite Et. unfold Sprintf_x. rewrite Es. cbn.
    eexists _, _. split; [reflexivity|]. by apply Hc.
  - rewrite Hv. unfold hex_value at 1, Sprintf_x.
    rewrite list_ascii_of_string_of_list_ascii, Sv.
    rewrite (value_low_words a (S k)) by (intros j Hj; apply Hhigh; lia).
    rewrite (take_S_total a k) by lia. rewrite value_snoc, length_take_le by lia. ring.
Qed.

Lemma Hex_spells_the_value_witness :
  exists body,
    Engine.Hex 8 (Engine.New 8 255) = ("0x" ++ body)%string /\
    Forall is_hex_digit (list_ascii_of_string body) /\
    (exists c rest, body = String c rest /\ c <> "0"%char) /\
    hex_value body = value (Engine.New 8 255).
Proof.
  destruct (Hex_spells_the_value 8 (Engine.New 8 255)) as [_ H]; [solve_wf|].
  apply H. vm_compute. discriminate.
Defined.


(** ** The constants and the basic constructors *)

(** X21. [ZERO], [ONE] and [MAX] are 0, 1 and 2^(64N) - 1; [New] makes the value
    of its argument; [Clone] returns an equal value; and [IsZero] holds of
    the value 0 only. *)
Theorem constants_and_constructors (N : nat) (a : list Z) (x : Z) :
  (0 < N)%nat -> wf N a -> is_word x ->
  (wf N (Engine.ZERO N) /\ value (Engine.ZERO N) = 0) /\
  (wf N (Engine.ONE N) /\ value (Engine.ONE N) = 1) /\
  (wf N (Engine.MAX N) /\ value (Engine.MAX N) = 2 ^ (64 * Z.of_nat N) - 1) /\
  (wf N (Engine.New N x) /\ value (Engine.New N x) = x) /\
  Engine.Clone N a = a /\
  Engine.IsZero N a = (value a =? 0).
Proof.
  intros HN Ha Hx. destruct (wf_zeroed N) as [Hl0 Hw0].
  assert (value (Engine.zeroed N) = 0) as V0 by apply value_replicate_0.
  split; [by split|]. split; [by apply ONE_value|]. split; [apply MAX_value|].
  split; [|split; [apply Clone_wf, Ha | by apply IsZero_value]].
  unfold Engine.New. split; [by apply wf_insert|].
  rewrite value_insert, V0 by lia.
  assert (Engine.zeroed N !!! 0%nat = 0) as ->.
  { unfold Engine.zeroed. apply lookup_total_replicate_2. lia. }
  change (64 * Z.of_nat 0) with 0. rewrite Z.pow_0_r. lia.
Qed.

Lemma constants_and_constructors_witness :
  (wf 8 (Engine.ZERO 8) /\ value (Engine.ZERO 8) = 0) /\
  (wf 8 (Engine.ONE 8) /\ value (Engine.ONE 8) = 1) /\
  (wf 8 (Engine.MAX 8) /\ value (Engine.MAX 8) = 2 ^ (64 * Z.of_nat 8) - 1) /\
  (wf 8 (Engine.New 8 7) /\ value (Engine.New 8 7) = 7) /\
  Engine.Clone 8 (Engine.MAX 8) = Engine.MAX 8 /\
  Engine.IsZero 8 (Engine.MAX 8) = (value (Engine.MAX 8) =? 0).
Proof.
  apply (constants_and_constructors 8 (Engine.MAX 8) 7);
    [lia | solve_wf | unfold is_word; lia].
Defined.

(** ** Division by a small divisor, and the decimal rendering of the wide
    result type *)

Lemma Wide_divBySmall_eq (w : list Z) (d : Z) :
  Uint512.Wide_divBySmall w d = Engine.divBySmall 16 w d.
Proof. unfold Uint512.Wide_divBySmall, Engine.divBySmall. reflexivity. Qed.

(** X22. [divBySmall] leaves the quotient in the receiver and returns the
    remainder, for a divisor up to 2^32; so does the copy of it for the
    result type of uint512's [Mul]. *)
Theorem divBySmall_quotient_and_remainder (N : nat) (u w : list Z) (d : Z) :
  wf N u -> wf 16 w -> 0 < d <= 2 ^ 32 ->
  (wf N (fst (Engine.divBySmall N u d)) /\
   value (fst (Engine.divBySmall N u d)) = value u / d /\
   snd (Engine.divBySmall N u d) = value u mod d) /\
  (wf 16 (fst (Uint512.Wide_divBySmall w d)) /\
   value (fst (Uint512.Wide_divBySmall w d)) = value w / d /\
   snd (Uint512.Wide_divBySmall w d) = value w mod d).
Proof.
  intros Hu Hw Hd. split; [by apply divBySmall_spec|].
  rewrite Wide_divBySmall_eq. by apply divBySmall_spec.
Qed.

Lemma divBySmall_quotient_and_remainder_witness :
  (wf 8 (fst (Engine.divBySmall 8 (Engine.MAX 8) 10)) /\
   value (fst (Engine.divBySmall 8 (Engine.MAX 8) 10)) = value (Engine.MAX 8) / 10 /\
   snd (Engine.divBySmall 8 (Engine.MAX 8) 10) = value (Engine.MAX 8) mod 10) /\
  (wf 16 (fst (Uint512.Wide_divBySmall (Engine.MAX 16) 10)) /\
   value (fst (Uint512.Wide_divBySmall (Engine.MAX 16) 10)) = value (Engine.MAX 16) / 10 /\
   snd (Uint512.Wide_divBySmall (Engine.MAX 16) 10) = value (Engine.MAX 16) mod 10).
Proof.
  apply (divBySmall_quotient_and_remainder 8 (Engine.MAX 8) (Engine.MAX 16) 10);
    [solve_wf | solve_wf | lia].
Defined.

(** The bound on the divisor is needed: 2^96 divided by 2^32 + 1 comes out
    wrong, in the quotient and in the remainder. *)
Example divBySmall_beyond_the_bound :
  value (fst (Engine.divBySmall 8 [0; 2 ^ 32; 0; 0; 0; 0; 0; 0] (2 ^ 32 + 1)))
    <> value [0; 2 ^ 32; 0; 0; 0; 0; 0; 0] / (2 ^ 32 + 1) /\
  snd (Engine.divBySmall 8 [0; 2 ^ 32; 0; 0; 0; 0; 0; 0] (2 ^ 32 + 1))
    <> value [0; 2 ^ 32; 0; 0; 0; 0; 0; 0] mod (2 ^ 32 + 1).
Proof. vm_compute. split; discriminate. Qed.

Lemma Wide_isZero_value (w : list Z) :
  Forall is_word w -> Uint512.Wide_isZero w = (value w =? 0).
Proof.
  induction 1 as [|x w Hx Hw IH]; [done|].
  cbn [Uint512.Wide_isZero value]. pose proof (value_nonneg w Hw) as Hv.
  unfold is_word in Hx.
  destruct (Z.eqb_spec x 0) as [->|Hne]; cbn [negb].
  - rewrite IH. destruct (Z.eqb_spec (value w) 0), (Z.eqb_spec (0 + 2 ^ 64 * value w) 0);
      (done || lia).
  - destruct (Z.eqb_spec (x + 2 ^ 64 * value w) 0); [lia|done].
Qed.

Lemma Wide_String_loop_eq (fuel : nat) (temp digits : list Z) :
  wf 16 temp ->
  Uint512.Wide_String_loop fuel temp digits = Engine.String_loop 16 fuel temp digits.
Proof.
  revert temp digits. induction fuel as [|fuel IH]; intros temp digits Ht;
    cbn [Uint512.Wide_String_loop Engine.String_loop];
    rewrite Wide_isZero_value, IsZero_value by (done || apply Ht).
  - reflexivity.
  - destruct (value temp =? 0); [reflexivity|].
    rewrite Wide_divBySmall_eq.
    destruct (divBySmall_spec 16 temp 10 Ht ltac:(lia)) as (Hq & _ & _).
    destruct (Engine.divBySmall 16 temp 10) as [q r]. apply IH. exact Hq.
Qed.

Lemma Wide_String_fuel_eq (fuel : nat) (w : list Z) :
  wf 16 w -> Uint512.Wide_String_fuel fuel w = Engine.String_fuel 16 fuel w.
Proof.
  intros Hw. unfold Uint512.Wide_String_fuel, Engine.String_fuel.
  rewrite Wide_isZero_value, IsZero_value by (done || apply Hw).
  destruct (value w =? 0); [reflexivity|].
  rewrite copy_same_length by (rewrite length_replicate; symmetry; apply Hw).
  rewrite Wide_String_loop_eq by exact Hw.
  rewrite (Clone_wf 16 w) by apply Hw. reflexivity.
Qed.

Lemma String_fuel_decimal (N : nat) (a : list Z) :
  wf N a ->
  exists s,
    (forall fuel, (64 * N <= fuel)%nat -> Engine.String_fuel N fuel a = Some s) /\
    (value a = 0 -> s = "0"%string) /\
    (value a <> 0 ->
     Forall is_digit (list_ascii_of_string s) /\
     (exists c rest, s = String c rest /\ c <> "0"%char) /\
     decimal_value s = value a).
Proof.
  intros Ha. unfold Engine.String_fuel. rewrite IsZero_value by done.
  destruct (Z.eqb_spec (value a) 0) as [E0|Hne].
  - exists "0"%string. repeat split; try done.
  - rewrite Clone_wf by apply Ha.
    assert (value a < 10 ^ Z.of_nat (64 * N)) as Hlt.
    { pose proof (value_bounds a (proj2 Ha)) as Hb. rewrite (proj1 Ha) in Hb.
      apply Z.lt_le_trans with (2 ^ (64 * Z.of_nat N)); [lia|].
      replace (Z.of_nat (64 * N)) with (64 * Z.of_nat N) by lia.
      apply Z.pow_le_mono_l. lia. }
    destruct (String_loop_spec N (64 * N) a [] Ha Hlt) as (ds & E & Hd & Hf & _ & Hlast).
    cbn [app] in E.
    exists (string_of_bytes (rev ds)). split; [|split; [done|]].
    + intros fuel Hfuel. rewrite (String_loop_mono N _ fuel _ _ _ Hfuel E).
      by rewrite reverse_in_place_rev.
    + intros _.
      assert (Forall (fun b => 48 <= b <= 57) (rev ds)) as Hd' by exact (Forall_rev Hd).
      destruct (decimal_value_bytes (rev ds) Hd') as [Ev Edig].
      split; [done|]. split.
      * destruct (Hlast Hne) as (ds' & b & -> & Hb).
        rewrite rev_app_distr. cbn [rev app].
        eexists _, _. split; [reflexivity|].
        intros Hc. apply (f_equal N_of_ascii) in Hc.
        rewrite Forall_app in Hd. destruct Hd as [_ Hd].
        inversion Hd as [|? ? Hb' _]; subst.
        rewrite N_ascii_embedding in Hc by lia.
        change (N_of_ascii "0") with 48%N in Hc. lia.
      * by rewrite Ev, foldl_rev_digits.
Qed.

(** X23. The [String] method of the result type of uint512's [Mul] renders a
    sixteen-word value as its decimal numeral, as uint1024's [String] does:
    "0" for zero, otherwise digits only with no leading zero, spelling the
    value.  Its loop ends within 1024 rounds. *)
Theorem Wide_String_is_decimal (w : list Z) :
  wf 16 w ->
  (forall fuel, Uint512.Wide_String_fuel fuel w = Engine.String_fuel 16 fuel w) /\
  exists s,
    (forall fuel, (1024 <= fuel)%nat -> Uint512.Wide_String_fuel fuel w = Some s) /\
    (value w = 0 -> s = "0"%string) /\
    (value w <> 0 ->
     Forall is_digit (list_ascii_of_string s) /\
     (exists c rest, s = String c rest /\ c <> "0"%char) /\
     decimal_value s = value w).
Proof.
  intros Hw. split; [intros fuel; by apply Wide_String_fuel_eq|].
  destruct (String_fuel_decimal 16 w Hw) as (s & Hs & H0 & Hd).
  exists s. split; [|done].
  intros fuel Hfuel. rewrite Wide_String_fuel_eq by done. apply Hs. lia.
Qed.

Lemma Wide_String_is_decimal_witness :
  (forall fuel, Uint512.Wide_String_fuel fuel (Engine.New 16 300)
                = Engine.String_fuel 16 fuel (Engine.New 16 300)) /\
  exists s,
    (forall fuel, (1024 <= fuel)%nat ->
       Uint512.Wide_String_fuel fuel (Engine.New 16 300) = Some s) /\
    (value (Engine.New 16 300) = 0 -> s = "0"%string) /\
    (value (Engine.New 16 300) <> 0 ->
     Forall is_digit (list_ascii_of_string s) /\
     (exists c rest, s = String c rest /\ c <> "0"%char) /\
     decimal_value s = value (Engine.New 16 300)).
Proof. apply (Wide_String_is_decimal (Engine.New 16 300)). solve_wf. Defined.

(** X24. Printing a product: when one factor fits in a single word, the decimal
    string of what uint512's [Mul] returns spells the product of the two
    values. *)
Theorem String_of_single_word_product (x : Z) (b : list Z) :
  is_word x -> wf 8 b ->
  exists s,
    (forall fuel, (1024 <= fuel)%nat ->
       Uint512.Wide_String_fuel fuel (Uint512.Mul (Engine.New 8 x) b) = Some s /\
       Uint512.Wide_String_fuel fuel (Uint512.Mul b (Engine.New 8 x)) = Some s) /\
    decimal_value s = x * value b.
Proof.
  intros Hx Hb.
  pose proof (value_bounds b (proj2 Hb)) as Bb. rewrite (proj1 Hb) in Bb.
  assert (wf 16 (Uint512.Mul (Engine.New 8 x) b)) as W1 by apply Mul_wf.
  assert (wf 16 (Uint512.Mul b (Engine.New 8 x))) as W2 by apply Mul_wf.
  assert (0 <= x * value b < 2 ^ (64 * Z.of_nat 16)) as Bp.
  { unfold is_word in Hx. split; [nia|].
    apply Z.lt_le_trans with (2 ^ 64 * 2 ^ (64 * Z.of_nat 8)); [nia|]. simpl; lia. }
  assert (value (Uint512.Mul (Engine.New 8 x) b) = x * value b) as V1.
  { unfold Uint512.Mul, Uint512.N. rewrite Mul_single_word by (done || lia).
    by apply Z.mod_small. }
  assert (value (Uint512.Mul b (Engine.New 8 x)) = x * value b) as V2.
  { unfold Uint512.Mul, Uint512.N. rewrite Mul_single_word_r by (done || lia).
    rewrite Z.mul_comm. by apply Z.mod_small. }
  assert (Uint512.Mul b (Engine.New 8 x) = Uint512.Mul (Engine.New 8 x) b) as E.
  { apply value_inj; [by rewrite (proj1 W1), (proj1 W2) | apply W2 | apply W1 | congruence]. }
  destruct (String_fuel_decimal 16 _ W1) as (s & Hs & H0 & Hd).
  exists s. split.
  - intros fuel Hfuel. rewrite E. rewrite Wide_String_fuel_eq by done.
    split; apply Hs; lia.
  - rewrite V1 in H0, Hd. destruct (Z.eq_dec (x * value b) 0) as [E0|Hne].
    + rewrite (H0 E0), E0. done.
    + by destruct (Hd Hne) as (_ & _ & ->).
Qed.

Lemma String_of_single_word_product_witness :
  exists s,
    (forall fuel, (1024 <= fuel)%nat ->
       Uint512.Wide_String_fuel fuel (Uint512.Mul (Engine.New 8 12) (Engine.MAX 8)) = Some s /\
       Uint512.Wide_String_fuel fuel (Uint512.Mul (Engine.MAX 8) (Engine.New 8 12)) = Some s) /\
    decimal_value s = 12 * value (Engine.MAX 8).
Proof.
  apply (String_of_single_word_product 12 (Engine.MAX 8)); [unfold is_word; lia | solve_wf].
Defined.


(** ** Arithmetic against the logical operations and the shifts *)

(** X25. The complement is the difference from [MAX]; negation is complement plus
    one; doubling is a left shift by one; and a sum splits into the bits
    that differ and the carries, [a + b = (a xor b) + 2 (a and b)], as well
    as into [(a or b) + (a and b)]. *)
Theorem arithmetic_meets_logic (N : nat) (a b : list Z) :
  (0 < N)%nat -> wf N a -> wf N b ->
  Engine.Not N a = Engine.Sub N (Engine.MAX N) a /\
  Engine.Sub N (Engine.ZERO N) a = Engine.Add N (Engine.Not N a) (Engine.ONE N) /\
  Engine.Shl N a 1 = Engine.Add N a a /\
  Engine.Add N a b
    = Engine.Add N (Engine.Xor N a b) (Engine.Shl N (Engine.And N a b) 1) /\
  Engine.Add N a b = Engine.Add N (Engine.Or N a b) (Engine.And N a b).
Proof.
  intros HN Ha Hb.
  pose proof (value_bounds a (proj2 Ha)) as Ba. rewrite (proj1 Ha) in Ba.
  destruct (Not_value N a Ha) as [Wn Vn].
  destruct (MAX_value N) as [Wm Vm].
  destruct (ONE_value N HN) as [W1 V1].
  destruct (wf_zeroed N) as [Hl0 Hw0].
  assert (wf N (Engine.ZERO N)) as W0 by (by split).
  assert (value (Engine.ZERO N) = 0) as V0 by apply value_replicate_0.
  destruct (And_Or_Xor_values N a b Ha Hb) as ((Wand & Vand) & (Wor & Vor) & (Wx & Vx)).
  assert (forall u n, wf N u -> 0 <= n ->
            wf N (Engine.Shl N u n) /\
            value (Engine.Shl N u n) = (value u * 2 ^ n) mod 2 ^ (64 * Z.of_nat N)) as HShl.
  { intros u n Hu Hn. unfold Engine.Shl. rewrite Clone_wf by apply Hu.
    by apply ShlInPlace_value. }
  destruct (HShl a 1 Ha ltac:(lia)) as [Ws Vs].
  destruct (HShl _ 1 Wand ltac:(lia)) as [Wsa Vsa].
  destruct (Add_value N a b Ha Hb) as [Wab Vab].
  destruct (Add_value N a a Ha Ha) as [Waa Vaa].
  destruct (Add_value N _ _ Wn W1) as [Wn1 Vn1].
  destruct (Add_value N _ _ Wx Wsa) as [Wxs Vxs].
  destruct (Add_value N _ _ Wor Wand) as [Woa Voa].
  pose proof (Sub_wf N _ _ Wm Ha) as Wma. pose proof (value_Sub N _ _ Wm Ha) as Vma.
  pose proof (Sub_wf N _ _ W0 Ha) as W0a. pose proof (value_Sub N _ _ W0 Ha) as V0a.
  set (M := 2 ^ (64 * Z.of_nat N)) in *.
  assert (0 < M) as HM by (apply Z.pow_pos_nonneg; lia).
  repeat split.
  - apply value_inj; [by rewrite (proj1 Wn), (proj1 Wma) | apply Wn | apply Wma |].
    rewrite Vn, Vma, Vm. symmetry. apply Z.mod_small. lia.
  - apply value_inj; [by rewrite (proj1 W0a), (proj1 Wn1) | apply W0a | apply Wn1 |].
    rewrite V0a, Vn1, Vn, V0, V1.
    replace (M - 1 - value a + 1) with (0 - value a + 1 * M) by lia.
    by rewrite Z_mod_plus_full.
  - apply value_inj; [by rewrite (proj1 Ws), (proj1 Waa) | apply Ws | apply Waa |].
    rewrite Vs, Vaa. f_equal. lia.
  - apply value_inj; [by rewrite (proj1 Wab), (proj1 Wxs) | apply Wab | apply Wxs |].
    rewrite Vab, Vxs, Vx, Vsa, Vand, Z.add_mod_idemp_r by lia.
    f_equal. rewrite <- (Z.add_lxor_2land (value a) (value b)). lia.
  - apply value_inj; [by rewrite (proj1 Wab), (proj1 Woa) | apply Wab | apply Woa |].
    rewrite Vab, Voa, Vor, Vand. by rewrite Z.add_lor_land.
Qed.

Lemma arithmetic_meets_logic_witness :
  Engine.Not 8 (Engine.New 8 12) = Engine.Sub 8 (Engine.MAX 8) (Engine.New 8 12) /\
  Engine.Sub 8 (Engine.ZERO 8) (Engine.New 8 12)
    = Engine.Add 8 (Engine.Not 8 (Engine.New 8 12)) (Engine.ONE 8) /\
  Engine.Shl 8 (Engine.New 8 12) 1 = Engine.Add 8 (Engine.New 8 12) (Engine.New 8 12) /\
  Engine.Add 8 (Engine.New 8 12) (Engine.MAX 8)
    = Engine.Add 8 (Engine.Xor 8 (Engine.New 8 12) (Engine.MAX 8))
                   (Engine.Shl 8 (Engine.And 8 (Engine.New 8 12) (Engine.MAX 8)) 1) /\
  Engine.Add 8 (Engine.New 8 12) (Engine.MAX 8)
    = Engine.Add 8 (Engine.Or 8 (Engine.New 8 12) (Engine.MAX 8))
                   (Engine.And 8 (Engine.New 8 12) (Engine.MAX 8)).
Proof.
  apply (arithmetic_meets_logic 8 (Engine.New 8 12) (Engine.MAX 8)); [lia | solve_wf | solve_wf].
Defined.
